(** * The DOM event responder system

    A shallow embedding of
    [packages/react-dom/src/events/DOMEventResponderSystem.js]: the module
    state, the responder context handed to responder callbacks, the timer
    subsystem, the ownership arbitration and the three-phase traversal, with
    the properties the specification states about them. *)

From stdpp Require Import gmap strings list fin_maps.

Open Scope Z_scope.

(** ** Object identities

    JavaScript compares instances, responders, fibers, DOM nodes, emitted
    event objects, symbols and host timer handles by identity ([===], [Map]
    and [Set] keys).  Each kind of object is a reference here. *)

Definition Instance := nat.   (* a ReactEventComponentInstance *)
Definition Responder := nat.  (* a ReactEventResponder object *)
Definition Node := nat.       (* an Element or a Document *)
Definition Symbol := nat.     (* the result of Symbol() *)
Definition TimeoutID := nat.  (* the result of the host's setTimeout *)

(** ** JavaScript [Set] and [Map] with insertion order

    [Array.from] of a Set or of a Map's values lists the entries in
    insertion order, so the collections the module iterates over are lists
    without duplicates. *)

Section Collections.
Context {A : Type} `{EqDecision A}.

Definition set_has (x : A) (s : list A) : bool := bool_decide (x ∈ s).

(** [s.add(x)]: appended unless already there. *)
Definition set_add (x : A) (s : list A) : list A :=
  if set_has x s then s else s ++ [x].

(** [s.delete(x)]. *)
Definition set_delete (x : A) (s : list A) : list A :=
  List.filter (fun y => negb (bool_decide (y = x))) s.

Context {V : Type}.

Fixpoint omap_get (k : A) (m : list (A * V)) : option V :=
  match m with
  | [] => None
  | (k', v) :: m' => if decide (k' = k) then Some v else omap_get k m'
  end.

(** [m.set(k, v)]: an existing key keeps its position. *)
Fixpoint omap_set (k : A) (v : V) (m : list (A * V)) : list (A * V) :=
  match m with
  | [] => [(k, v)]
  | (k', v') :: m' =>
      if decide (k' = k) then (k, v) :: m' else (k', v') :: omap_set k v m'
  end.

(** [m.delete(k)]. *)
Definition omap_delete (k : A) (m : list (A * V)) : list (A * V) :=
  List.filter (fun kv => negb (bool_decide (kv.1 = k))) m.

Definition omap_values (m : list (A * V)) : list V := map snd m.
End Collections.

(** ** Event types, responders, fibers *)

(** [ReactEventResponderEventType]: a string, or an object with a [name]. *)
Inductive ReactEventResponderEventType :=
| EventTypeString (name : string)
| EventTypeObject (name : string) (passive capture : option bool).

(** [typeof t === 'string' ? t : t.name] *)
Definition topLevelEventTypeOf (t : ReactEventResponderEventType) : string :=
  match t with
  | EventTypeString name => name
  | EventTypeObject name _ _ => name
  end.

Inductive WorkTag := EventComponent | EventTargetWorkTag | HostComponent | OtherTag.

Global Instance WorkTag_eq_dec : EqDecision WorkTag.
Proof. solve_decision. Defined.

(** A fiber's [tag] together with what its [stateNode] holds: the instance
    of an event component, the DOM node of a host component. *)
Inductive FiberKind :=
| EventComponentFiber (i : Instance)
| EventTargetFiber
| HostComponentFiber (n : Node)
| OtherFiber.

(** An event-target child of a fiber, as [getEventTargetsFromTarget] reads
    it through [node.child] and [child.sibling]: its tag, [type.type], [key]
    and [stateNode.props].  In a fiber tree [child.return] is the fiber the
    child list hangs from. *)
Record ChildFiber := mkChildFiber {
  child_tag : WorkTag;
  child_type : nat;
  child_key : option string;
  child_props : option nat;
}.

(** A fiber with its chain of [return] pointers. *)
Unset Elimination Schemes.
Inductive Fiber := mkFiber {
  fiber_id : nat;
  fiber_kind : FiberKind;
  fiber_children : list ChildFiber;
  fiber_return : option Fiber;
}.
Set Elimination Schemes.

Definition fiber_tag (f : Fiber) : WorkTag :=
  match fiber_kind f with
  | EventComponentFiber _ => EventComponent
  | EventTargetFiber => EventTargetWorkTag
  | HostComponentFiber _ => HostComponent
  | OtherFiber => OtherTag
  end.

(** The ancestors of a fiber, itself first: the nodes [node = node.return]
    visits until [null]. *)
Fixpoint returnPath (node : Fiber) : list Fiber :=
  node :: match fiber_return node with
          | None => []
          | Some parent => returnPath parent
          end.

Definition pathFrom (node : option Fiber) : list Fiber :=
  match node with None => [] | Some f => returnPath f end.

(** [fiber.stateNode === instance] *)
Definition stateNode_is (f : Fiber) (i : option Instance) : bool :=
  match fiber_kind f, i with
  | EventComponentFiber j, Some k => bool_decide (j = k)
  | _, _ => false
  end.

(** [node === parentFiber], where [parentFiber] may be [null]. *)
Definition same_fiber (node : Fiber) (other : option Fiber) : bool :=
  match other with
  | Some f => bool_decide (fiber_id node = fiber_id f)
  | None => false
  end.

(** An object passed to [context.dispatchEvent]; [target] and [type] may be
    missing. *)
Record EventObject := mkEventObject {
  event_id : nat;
  event_target : option Node;
  event_type : option string;
}.

Record EventQueue := mkEventQueue {
  events : list EventObject;
  discrete : bool;
}.

Definition createEventQueue : EventQueue :=
  {| events := []; discrete := false |}.

Record ReactResponderEvent := mkResponderEvent {
  re_nativeEvent : nat;
  re_target : Node;
  re_type : string;
  re_passive : bool;
  re_passiveSupported : bool;
}.

(** What a thrown value can be. *)
Inductive Exn :=
| Invariant (message : string)
| Error (message : string)
| TypeError
| Raised (value : nat).

(** The messages of the two [invariant] calls. *)
Definition outsideCycleMessage : string :=
  "An event responder context was used outside of an event cycle. Use context.setTimeout() to use asynchronous responder context outside of event cycle .".

Definition duplicateRootEventMessage : string :=
  "addRootEventTypes() found a duplicate root event type of '%s'. This might be because the event type exists in the event responder 'rootEventTypes' array or because of a previous addRootEventTypes() using this root event type.".

(** ** Module state

    [F] is the type of the JavaScript functions the engine stores and calls:
    responder handlers, timer callbacks and the listeners of emitted events.
    The engine never looks inside them. *)

Section Engine.
Variable F : Type.

Record ResponderTimer := mkTimer {
  timer_instance : option Instance;
  timer_func : F;
  timer_id : Symbol;
}.

(** The module-level variables.  A [ResponderTimeout] object [{id, timers}]
    is shared by [currentTimers], by [activeTimeouts] and by the closure
    handed to the host; it is referred to by its host handle [id], and
    [timeoutTimers] holds the [timers] Map of each.  The mutable
    [rootEventTypes] field of the instances is [instanceRootEventTypes]
    ([None] for [null]).  [nextSymbol] and [nextTimeoutID] are the host's
    supply of fresh symbols and timer handles. *)
Record State := mkState {
  activeTimeouts : gmap Symbol TimeoutID;
  rootEventTypesToEventComponentInstances : gmap string (list Instance);
  ownershipChangeListeners : list Instance;
  eventListeners : gmap nat F;
  currentTimers : option (gmap Z TimeoutID);
  currentOwner : option Instance;
  currentInstance : option Instance;
  currentEventQueue : option EventQueue;
  timeoutTimers : gmap TimeoutID (list (Symbol * ResponderTimer));
  instanceRootEventTypes : gmap Instance (list string);
  nextSymbol : Symbol;
  nextTimeoutID : TimeoutID;
}.

(** The state when the module has just been loaded. *)
Definition initialState : State :=
  {| activeTimeouts := ∅;
     rootEventTypesToEventComponentInstances := ∅;
     ownershipChangeListeners := [];
     eventListeners := ∅;
     currentTimers := Some ∅;
     currentOwner := None;
     currentInstance := None;
     currentEventQueue := None;
     timeoutTimers := ∅;
     instanceRootEventTypes := ∅;
     nextSymbol := 0%nat;
     nextTimeoutID := 0%nat |}.

Definition set_activeTimeouts v (s : State) : State :=
  mkState v (rootEventTypesToEventComponentInstances s)
    (ownershipChangeListeners s) (eventListeners s) (currentTimers s)
    (currentOwner s) (currentInstance s) (currentEventQueue s)
    (timeoutTimers s) (instanceRootEventTypes s) (nextSymbol s)
    (nextTimeoutID s).
Definition set_rootEventTypesToEventComponentInstances v (s : State) : State :=
  mkState (activeTimeouts s) v
    (ownershipChangeListeners s) (eventListeners s) (currentTimers s)
    (currentOwner s) (currentInstance s) (currentEventQueue s)
    (timeoutTimers s) (instanceRootEventTypes s) (nextSymbol s)
    (nextTimeoutID s).
Definition set_ownershipChangeListeners v (s : State) : State :=
  mkState (activeTimeouts s) (rootEventTypesToEventComponentInstances s)
    v (eventListeners s) (currentTimers s)
    (currentOwner s) (currentInstance s) (currentEventQueue s)
    (timeoutTimers s) (instanceRootEventTypes s) (nextSymbol s)
    (nextTimeoutID s).
Definition set_eventListeners v (s : State) : State :=
  mkState (activeTimeouts s) (rootEventTypesToEventComponentInstances s)
    (ownershipChangeListeners s) v (currentTimers s)
    (currentOwner s) (currentInstance s) (currentEventQueue s)
    (timeoutTimers s) (instanceRootEventTypes s) (nextSymbol s)
    (nextTimeoutID s).
Definition set_currentTimers v (s : State) : State :=
  mkState (activeTimeouts s) (rootEventTypesToEventComponentInstances s)
    (ownershipChangeListeners s) (eventListeners s) v
    (currentOwner s) (currentInstance s) (currentEventQueue s)
    (timeoutTimers s) (instanceRootEventTypes s) (nextSymbol s)
    (nextTimeoutID s).
Definition set_currentOwner v (s : State) : State :=
  mkState (activeTimeouts s) (rootEventTypesToEventComponentInstances s)
    (ownershipChangeListeners s) (eventListeners s) (currentTimers s)
    v (currentInstance s) (currentEventQueue s)
    (timeoutTimers s) (instanceRootEventTypes s) (nextSymbol s)
    (nextTimeoutID s).
Definition set_currentInstance v (s : State) : State :=
  mkState (activeTimeouts s) (rootEventTypesToEventComponentInstances s)
    (ownershipChangeListeners s) (eventListeners s) (currentTimers s)
    (currentOwner s) v (currentEventQueue s)
    (timeoutTimers s) (instanceRootEventTypes s) (nextSymbol s)
    (nextTimeoutID s).
Definition set_currentEventQueue v (s : State) : State :=
  mkState (activeTimeouts s) (rootEventTypesToEventComponentInstances s)
    (ownershipChangeListeners s) (eventListeners s) (currentTimers s)
    (currentOwner s) (currentInstance s) v
    (timeoutTimers s) (instanceRootEventTypes s) (nextSymbol s)
    (nextTimeoutID s).
Definition set_timeoutTimers v (s : State) : State :=
  mkState (activeTimeouts s) (rootEventTypesToEventComponentInstances s)
    (ownershipChangeListeners s) (eventListeners s) (currentTimers s)
    (currentOwner s) (currentInstance s) (currentEventQueue s)
    v (instanceRootEventTypes s) (nextSymbol s)
    (nextTimeoutID s).
Definition set_instanceRootEventTypes v (s : State) : State :=
  mkState (activeTimeouts s) (rootEventTypesToEventComponentInstances s)
    (ownershipChangeListeners s) (eventListeners s) (currentTimers s)
    (currentOwner s) (currentInstance s) (currentEventQueue s)
    (timeoutTimers s) v (nextSymbol s)
    (nextTimeoutID s).
Definition set_nextSymbol v (s : State) : State :=
  mkState (activeTimeouts s) (rootEventTypesToEventComponentInstances s)
    (ownershipChangeListeners s) (eventListeners s) (currentTimers s)
    (currentOwner s) (currentInstance s) (currentEventQueue s)
    (timeoutTimers s) (instanceRootEventTypes s) v
    (nextTimeoutID s).
Definition set_nextTimeoutID v (s : State) : State :=
  mkState (activeTimeouts s) (rootEventTypesToEventComponentInstances s)
    (ownershipChangeListeners s) (eventListeners s) (currentTimers s)
    (currentOwner s) (currentInstance s) (currentEventQueue s)
    (timeoutTimers s) (instanceRootEventTypes s) (nextSymbol s)
    v.

(** ** What the engine does to the outside

    Every call of a stored function is recorded with the state it is
    entered in; so are the calls to the host's timers, to the document
    listener set-up and to the batching and error-isolation helpers. *)

Inductive Callee :=
| OnEventCapture (i : Instance)
| OnEvent (i : Instance)
| OnRootEvent (i : Instance)
| OnOwnershipChange (i : Instance)
| OnUnmount (i : Instance)
| TimerFunc (id : Symbol)
| Listener (e : EventObject).

Inductive Effect :=
| Invoke (c : Callee) (entry : State)
| HostSetTimeout (id : TimeoutID) (delay : Z)
| HostClearTimeout (id : TimeoutID)
| ListenToResponderEventTypes (types : list ReactEventResponderEventType) (doc : Node)
| InteractiveUpdates
| BatchedUpdates
| CaughtError (e : Exn).

(** How a call ends: normally with a value, or by throwing. *)
Inductive Completion (A : Type) :=
| Normal (a : A) (s : State)
| Throw (e : Exn) (s : State).
Arguments Normal {A} a s.
Arguments Throw {A} e s.

Definition finalState {A} (c : Completion A) : State :=
  match c with Normal _ s => s | Throw _ s => s end.

Definition isThrow {A} (c : Completion A) : bool :=
  match c with Normal _ _ => false | Throw _ _ => true end.

Record Result (A : Type) := mkResult {
  effects : list Effect;
  completion : Completion A;
}.
Arguments mkResult {A} effects completion.
Arguments effects {A} r.
Arguments completion {A} r.

Definition M (A : Type) : Type := State → Result A.

Definition ret {A} (a : A) : M A := fun s => mkResult [] (Normal a s).

Definition bind {A B} (m : M A) (k : A → M B) : M B := fun s =>
  let r := m s in
  match completion r with
  | Normal a s' =>
      let r' := k a s' in mkResult (effects r ++ effects r') (completion r')
  | Throw e s' => mkResult (effects r) (Throw e s')
  end.

Definition throw {A} (e : Exn) : M A := fun s => mkResult [] (Throw e s).
Definition get {A} (f : State → A) : M A := fun s => mkResult [] (Normal (f s) s).
Definition modify (f : State → State) : M unit := fun s => mkResult [] (Normal tt (f s)).
Definition emit (e : Effect) : M unit := fun s => mkResult [e] (Normal tt s).

(** [try { body } finally { cleanup }] where the cleanup only assigns. *)
Definition try_finally {A} (body : M A) (cleanup : State → State) : M A := fun s =>
  let r := body s in
  mkResult (effects r)
    match completion r with
    | Normal a s' => Normal a (cleanup s')
    | Throw e s' => Throw e (cleanup s')
    end.

(** [for (let i = 0; i < xs.length; i++) body(xs[i])] over an array that
    the body does not change. *)
Fixpoint for_each {A} (xs : list A) (body : A → M unit) : M unit :=
  match xs with
  | [] => ret tt
  | x :: xs' => bind (body x) (fun _ => for_each xs' body)
  end.

(** [invariant(cond, message)] *)
Definition invariant (cond : bool) (message : string) : M unit :=
  if cond then ret tt else throw (Invariant message).

Global Instance M_ret : MRet M := fun A a => ret a.
Global Instance M_bind : MBind M := fun A B k m => bind m k.

(** ** Responders and the collaborators

    The fields of a responder object are read-only for the engine. *)
Record ReactEventResponder := mkResponder {
  targetEventTypes : list ReactEventResponderEventType;
  stopLocalPropagation : bool;
  onEventCapture : option F;
  onEvent : option F;
  onRootEvent : option F;
  onOwnershipChange : option F;
  onUnmount : option F;
}.

(** The arguments of a stored function besides the context, the props and
    the state of the current instance. *)
Inductive Args :=
| NoArgs
| ResponderEventArg (e : ReactResponderEvent)
| EmittedEventArg (e : EventObject).

(** [instance.responder] *)
Variable responder : Instance → Responder.
Variable responderFields : Responder → ReactEventResponder.
(** What calling a stored function does to the module state, which it
    reaches through the context it is handed: the state it leaves, and
    whether it returns or throws.  What it calls in between is its own
    matter and not part of the record of the engine's run. *)
Variable call : F → Args → State → Completion unit.
(** [getClosestInstanceFromNode] of [ReactDOMComponentTree]. *)
Variable getClosestInstanceFromNode : Node → option Fiber.

Definition invoke (c : Callee) (f : F) (args : Args) : M unit := fun s =>
  mkResult [Invoke c s] (call f args s).

(** Calling a function that may be [undefined] is a [TypeError]. *)
Definition invoke_defined (c : Callee) (f : option F) (args : Args) : M unit :=
  match f with
  | Some f => invoke c f args
  | None => throw TypeError
  end.

(** ** The responder context *)

Definition validateResponderContext : M unit :=
  q ← get currentEventQueue;
  i ← get currentInstance;
  invariant (bool_decide (is_Some q) && bool_decide (is_Some i))
    outsideCycleMessage.

(** [((currentInstance: any): ReactEventComponentInstance)] followed by a
    field access. *)
Definition theCurrentInstance : M Instance :=
  i ← get currentInstance;
  match i with Some i => mret i | None => throw TypeError end.

Definition triggerOwnershipListeners : M unit :=
  listeningInstances ← get ownershipChangeListeners;
  previousInstance ← get currentInstance;
  try_finally
    (for_each listeningInstances (fun instance =>
       modify (set_currentInstance (Some instance));;
       invoke_defined (OnOwnershipChange instance)
         (onOwnershipChange (responderFields (responder instance))) NoArgs))
    (set_currentInstance previousInstance).

Definition dispatchEvent (possibleEventObject : EventObject) (listener : F)
    (discrete_opt : bool) : M unit :=
  validateResponderContext;;
  (if bool_decide (event_target possibleEventObject = None)
      || bool_decide (event_type possibleEventObject = None)
   then throw (Error "context.dispatchEvent: 'target' and 'type' fields on event object are required.")
   else mret tt);;
  q ← get currentEventQueue;
  match q with
  | None => throw TypeError
  | Some eventQueue =>
      let eventQueue :=
        if discrete_opt then mkEventQueue (events eventQueue) true else eventQueue in
      modify (fun s => set_eventListeners
                (<[event_id possibleEventObject := listener]> (eventListeners s)) s);;
      modify (set_currentEventQueue
                (Some (mkEventQueue (events eventQueue ++ [possibleEventObject])
                         (discrete eventQueue))))
  end.

Definition isTargetWithinEventComponent (target : option Node) : M bool :=
  validateResponderContext;;
  match target with
  | Some target =>
      cur ← get currentInstance;
      mret (existsb (fun fiber => stateNode_is fiber cur)
              (pathFrom (getClosestInstanceFromNode target)))
  | None => mret false
  end.

Definition isTargetWithinElement (childTarget parentTarget : Node) : M bool :=
  let childFiber := getClosestInstanceFromNode childTarget in
  let parentFiber := getClosestInstanceFromNode parentTarget in
  mret (existsb (fun node => same_fiber node parentFiber) (pathFrom childFiber)).

(** The document collaborator of [isPositionWithinTouchHitTarget]:
    [doc.elementFromPoint] ([None] where it is not a function),
    [target.parentNode] and [getBoundingClientRect] as (left, top, right,
    bottom), with [x > y] on coordinates. *)
Variable Coord : Type.
Variable coord_gt : Coord → Coord → bool.
Variable elementFromPoint : Node → option (Coord → Coord → option Node).
Variable parentNode : Node → Node.
Variable getBoundingClientRect : Node → Coord * Coord * Coord * Coord.

Definition isPositionWithinTouchHitTarget (doc : Node) (x y : Coord) : M bool :=
  validateResponderContext;;
  match elementFromPoint doc with
  | None => mret false
  | Some elementFromPoint_ =>
      match elementFromPoint_ x y with
      | None => mret false
      | Some target =>
          match getClosestInstanceFromNode target with
          | None => mret false
          | Some childFiber =>
              match fiber_return childFiber with
              | Some parentFiber =>
                  if bool_decide (fiber_tag parentFiber = EventTargetWorkTag) then
                    let '(rect_left, rect_top, rect_right, rect_bottom) :=
                      getBoundingClientRect (parentNode target) in
                    if coord_gt x rect_left && coord_gt y rect_top
                       && coord_gt rect_right x && coord_gt rect_bottom y
                    then mret false
                    else mret true
                  else mret false
              | None => mret false
              end
          end
      end
  end.

(** The Set [rootEventTypesToEventComponentInstances.get(type)] is shared
    with the Map: adding to it or deleting from it changes the entry. *)
Definition registry_add (topLevelEventType : string) (i : Instance) (s : State) : State :=
  set_rootEventTypesToEventComponentInstances
    (<[topLevelEventType :=
         set_add i (default [] (rootEventTypesToEventComponentInstances s !! topLevelEventType))]>
       (rootEventTypesToEventComponentInstances s)) s.

Definition registry_delete (topLevelEventType : string) (i : Instance) (s : State) : State :=
  match rootEventTypesToEventComponentInstances s !! topLevelEventType with
  | Some instances =>
      set_rootEventTypesToEventComponentInstances
        (<[topLevelEventType := set_delete i instances]>
           (rootEventTypesToEventComponentInstances s)) s
  | None => s
  end.

(** [if (instances === undefined) { instances = new Set(); map.set(type, instances) }] *)
Definition registry_ensure (topLevelEventType : string) (s : State) : State :=
  match rootEventTypesToEventComponentInstances s !! topLevelEventType with
  | Some _ => s
  | None =>
      set_rootEventTypesToEventComponentInstances
        (<[topLevelEventType := []]> (rootEventTypesToEventComponentInstances s)) s
  end.

(** [if (set === null) { set = instance.rootEventTypes = new Set() }] *)
Definition rootEventTypes_ensure (i : Instance) (s : State) : State :=
  match instanceRootEventTypes s !! i with
  | Some _ => s
  | None => set_instanceRootEventTypes (<[i := []]> (instanceRootEventTypes s)) s
  end.

Definition rootEventTypes_add (i : Instance) (topLevelEventType : string) (s : State) : State :=
  set_instanceRootEventTypes
    (<[i := set_add topLevelEventType (default [] (instanceRootEventTypes s !! i))]>
       (instanceRootEventTypes s)) s.

Definition rootEventTypes_delete (i : Instance) (topLevelEventType : string) (s : State) : State :=
  match instanceRootEventTypes s !! i with
  | Some types =>
      set_instanceRootEventTypes
        (<[i := set_delete topLevelEventType types]> (instanceRootEventTypes s)) s
  | None => s
  end.

Definition rootEventTypes_has (i : Instance) (topLevelEventType : string) (s : State) : bool :=
  set_has topLevelEventType (default [] (instanceRootEventTypes s !! i)).

(** The body of the loop of [addRootEventTypes]. *)
Definition addRootEventType (rootEventType : ReactEventResponderEventType) : M unit :=
  let topLevelEventType := topLevelEventTypeOf rootEventType in
  modify (registry_ensure topLevelEventType);;
  componentInstance ← theCurrentInstance;
  modify (rootEventTypes_ensure componentInstance);;
  has ← get (rootEventTypes_has componentInstance topLevelEventType);
  invariant (negb has) duplicateRootEventMessage;;
  modify (rootEventTypes_add componentInstance topLevelEventType);;
  modify (registry_add topLevelEventType componentInstance).

(** [listenToResponderEventTypesImpl] is the implementation installed by
    [setListenToResponderEventTypes]; its call is recorded. *)
Definition addRootEventTypes (doc : Node)
    (rootEventTypes : list ReactEventResponderEventType) : M unit :=
  validateResponderContext;;
  emit (ListenToResponderEventTypes rootEventTypes doc);;
  for_each rootEventTypes addRootEventType.

Definition removeRootEventTypes
    (rootEventTypes : list ReactEventResponderEventType) : M unit :=
  validateResponderContext;;
  for_each rootEventTypes (fun rootEventType =>
    let topLevelEventType := topLevelEventTypeOf rootEventType in
    componentInstance ← theCurrentInstance;
    modify (rootEventTypes_delete componentInstance topLevelEventType);;
    modify (registry_delete topLevelEventType componentInstance)).

Definition hasOwnership : M bool :=
  validateResponderContext;;
  owner ← get currentOwner;
  cur ← get currentInstance;
  mret (bool_decide (owner = cur)).

Definition requestOwnership : M bool :=
  validateResponderContext;;
  owner ← get currentOwner;
  if bool_decide (owner ≠ None) then mret false
  else
    cur ← get currentInstance;
    modify (set_currentOwner cur);;
    triggerOwnershipListeners;;
    mret true.

Definition releaseOwnership : M bool :=
  validateResponderContext;;
  owner ← get currentOwner;
  cur ← get currentInstance;
  if bool_decide (owner ≠ cur) then mret false
  else
    modify (set_currentOwner None);;
    triggerOwnershipListeners;;
    mret false.

(** The host's [setTimeout] and [clearTimeout].  The callback handed to the
    host is [() => processTimers(timers)] for the fresh [timers] Map, kept
    in [timeoutTimers] under the handle. *)
Definition host_setTimeout (delay : Z) : M TimeoutID :=
  id ← get nextTimeoutID;
  modify (set_nextTimeoutID (S id));;
  modify (fun s => set_timeoutTimers (<[id := []]> (timeoutTimers s)) s);;
  emit (HostSetTimeout id delay);;
  mret id.

Definition host_clearTimeout (id : TimeoutID) : M unit :=
  emit (HostClearTimeout id).

(** [Symbol()] *)
Definition freshSymbol : M Symbol :=
  sym ← get nextSymbol;
  modify (set_nextSymbol (S sym));;
  mret sym.

Definition timers_of (timeout : TimeoutID) (s : State) : list (Symbol * ResponderTimer) :=
  default [] (timeoutTimers s !! timeout).

Definition setTimeout (func : F) (delay : Z) : M Symbol :=
  validateResponderContext;;
  modify (fun s => match currentTimers s with
                   | None => set_currentTimers (Some ∅) s
                   | Some _ => s
                   end);;
  found ← get (fun s => default ∅ (currentTimers s) !! delay);
  timerId ← freshSymbol;
  timeout ← match found with
            | None =>
                id ← host_setTimeout delay;
                modify (fun s => set_currentTimers
                          (Some (<[delay := id]> (default ∅ (currentTimers s)))) s);;
                mret id
            | Some timeout => mret timeout
            end;
  cur ← get currentInstance;
  modify (fun s => set_timeoutTimers
            (<[timeout := omap_set timerId (mkTimer cur func timerId) (timers_of timeout s)]>
               (timeoutTimers s)) s);;
  modify (fun s => set_activeTimeouts (<[timerId := timeout]> (activeTimeouts s)) s);;
  mret timerId.

Definition clearTimeout (timerId : Symbol) : M unit :=
  validateResponderContext;;
  found ← get (fun s => activeTimeouts s !! timerId);
  match found with
  | Some timeout =>
      modify (fun s => set_timeoutTimers
                (<[timeout := omap_delete timerId (timers_of timeout s)]>
                   (timeoutTimers s)) s);;
      size ← get (fun s => length (timers_of timeout s));
      if bool_decide (size = 0%nat) then host_clearTimeout timeout else mret tt
  | None => mret tt
  end.

Definition queryEventTarget (child : ChildFiber)
    (queryType : option nat) (queryKey : option string) : bool :=
  if match queryType with
     | Some t => bool_decide (child_type child ≠ t)
     | None => false
     end
  then false
  else if match queryKey with
          | Some k => bool_decide (child_key child ≠ Some k)
          | None => false
          end
  then false
  else true.

(** The nodes the outer loop of [getEventTargetsFromTarget] visits: up the
    [return] chain until the fiber of the current instance. *)
Fixpoint upToInstance (cur : option Instance) (path : list Fiber) : list Fiber :=
  match path with
  | [] => []
  | node :: rest =>
      if stateNode_is node cur then [] else node :: upToInstance cur rest
  end.

(** The inner loop stops at the first child that is an event target and
    matches the query; its [return] is [node]. *)
Definition eventTargetOf (cur : option Instance) (node : Fiber)
    (queryType : option nat) (queryKey : option string) : list (Node * option nat) :=
  match List.find (fun child =>
            bool_decide (child_tag child = EventTargetWorkTag)
            && queryEventTarget child queryType queryKey) (fiber_children node) with
  | Some child =>
      if stateNode_is node cur then []
      else match fiber_kind node with
           | HostComponentFiber n => [(n, child_props child)]
           | _ => []
           end
  | None => []
  end.

Definition getEventTargetsFromTarget (target : Node)
    (queryType : option nat) (queryKey : option string) : M (list (Node * option nat)) :=
  validateResponderContext;;
  cur ← get currentInstance;
  mret (concat (map (fun node => eventTargetOf cur node queryType queryKey)
                  (upToInstance cur (pathFrom (getClosestInstanceFromNode target))))).

(** ** Flushing the event queue *)

(** [invokeGuardedCallbackAndCatchFirstError]: the callee's exception is
    caught and kept by [ReactErrorUtils]. *)
Definition invokeGuardedCallbackAndCatchFirstError (m : M unit) : M unit := fun s =>
  let r := m s in
  match completion r with
  | Normal _ _ => r
  | Throw e s' => mkResult (effects r ++ [CaughtError e]) (Normal tt s')
  end.

Definition processEvent (event : EventObject) : M unit :=
  listener ← get (fun s => eventListeners s !! event_id event);
  invokeGuardedCallbackAndCatchFirstError
    (invoke_defined (Listener event) listener (EmittedEventArg event)).

(** The loop bound is the length on entry: events pushed during the flush
    are not processed. *)
Definition processEvents (events : list EventObject) : M unit :=
  for_each events processEvent.

Definition processEventQueue : M unit :=
  q ← get currentEventQueue;
  match q with
  | None => throw TypeError
  | Some q =>
      if bool_decide (length (events q) = 0%nat) then mret tt
      else if discrete q then
        emit InteractiveUpdates;; emit BatchedUpdates;; processEvents (events q)
      else
        emit BatchedUpdates;; processEvents (events q)
  end.

(** The three assignments of the [finally] blocks that end a cycle. *)
Definition endCycle (s : State) : State :=
  set_currentEventQueue None (set_currentInstance None (set_currentTimers None s)).

(** ** Timers firing

    The host calls [processTimers(timers)] with the [timers] Map of the
    timeout; [Array.from(timers.values())] is taken on entry.  [fireTimer]
    is the body of its loop. *)
Definition fireTimer (timer : ResponderTimer) : M unit :=
  modify (set_currentInstance (timer_instance timer));;
  try_finally
    (invoke (TimerFunc (timer_id timer)) (timer_func timer) NoArgs)
    (fun s => set_activeTimeouts (delete (timer_id timer) (activeTimeouts s)) s).

Definition processTimers (timers : TimeoutID) : M unit :=
  timersArr ← get (fun s => omap_values (timers_of timers s));
  modify (set_currentEventQueue (Some createEventQueue));;
  try_finally
    (for_each timersArr fireTimer;;
     processEventQueue)
    endCycle.

(** ** Finding the responder instances of an event *)

(** The Set is cached per [eventTypes] array, which is not modified. *)
Definition getTargetEventTypes (eventTypes : list ReactEventResponderEventType)
    : list string :=
  fold_left (fun cachedSet eventType => set_add (topLevelEventTypeOf eventType) cachedSet)
    eventTypes [].

Definition ownerAllows (s : State) (i : Instance) : bool :=
  bool_decide (currentOwner s = None) || bool_decide (currentOwner s = Some i).

Definition getTargetEventResponderInstances (topLevelType : string)
    (targetFiber : option Fiber) (s : State) : list Instance :=
  flat_map (fun node =>
    match fiber_kind node with
    | EventComponentFiber eventComponentInstance =>
        if ownerAllows s eventComponentInstance then
          if set_has topLevelType
               (getTargetEventTypes
                  (targetEventTypes (responderFields (responder eventComponentInstance))))
          then [eventComponentInstance] else []
        else []
    | _ => []
    end) (pathFrom targetFiber).

Definition getRootEventResponderInstances (topLevelType : string) (s : State)
    : list Instance :=
  match rootEventTypesToEventComponentInstances s !! topLevelType with
  | Some rootEventInstances => List.filter (ownerAllows s) rootEventInstances
  | None => []
  end.

(** [IS_PASSIVE] and [PASSIVE_NOT_SUPPORTED] of [EventSystemFlags]. *)
Variable IS_PASSIVE : Z.
Variable PASSIVE_NOT_SUPPORTED : Z.

Definition createResponderEvent (topLevelType : string) (nativeEvent : nat)
    (nativeEventTarget : Node) (eventSystemFlags : Z) : ReactResponderEvent :=
  {| re_nativeEvent := nativeEvent;
     re_target := nativeEventTarget;
     re_type := topLevelType;
     re_passive := negb (Z.land eventSystemFlags IS_PASSIVE =? 0);
     re_passiveSupported := Z.land eventSystemFlags PASSIVE_NOT_SUPPORTED =? 0 |}.

(** ** The traversal *)

(** The body of the capture and of the bubble loop, over the instances in
    the order the loop visits them; [propagatedEventResponders] is threaded
    through and returned. *)
Fixpoint targetPhase (handler : ReactEventResponder → option F)
    (callee : Instance → Callee) (responderEvent : ReactResponderEvent)
    (instances : list Instance) (propagatedEventResponders : list Responder)
    : M (list Responder) :=
  match instances with
  | [] => mret propagatedEventResponders
  | targetEventResponderInstance :: rest =>
      let r := responder targetEventResponderInstance in
      if stopLocalPropagation (responderFields r)
         && set_has r propagatedEventResponders
      then targetPhase handler callee responderEvent rest propagatedEventResponders
      else
        let propagated' :=
          if stopLocalPropagation (responderFields r)
          then set_add r propagatedEventResponders
          else propagatedEventResponders in
        match handler (responderFields r) with
        | Some eventListener =>
            modify (set_currentInstance (Some targetEventResponderInstance));;
            invoke (callee targetEventResponderInstance) eventListener
              (ResponderEventArg responderEvent)
        | None => mret tt
        end;;
        targetPhase handler callee responderEvent rest propagated'
  end.

Definition rootPhase (responderEvent : ReactResponderEvent)
    (rootEventResponderInstances : list Instance) : M unit :=
  for_each rootEventResponderInstances (fun rootEventResponderInstance =>
    match onRootEvent (responderFields (responder rootEventResponderInstance)) with
    | Some eventListener =>
        modify (set_currentInstance (Some rootEventResponderInstance));;
        invoke (OnRootEvent rootEventResponderInstance) eventListener
          (ResponderEventArg responderEvent)
    | None => mret tt
    end).

Definition traverseAndHandleEventResponderInstances (topLevelType : string)
    (targetFiber : option Fiber) (nativeEvent : nat) (nativeEventTarget : Node)
    (eventSystemFlags : Z) : M unit :=
  targetEventResponderInstances ←
    get (getTargetEventResponderInstances topLevelType targetFiber);
  let responderEvent :=
    createResponderEvent topLevelType nativeEvent nativeEventTarget eventSystemFlags in
  let propagatedEventResponders : list Responder := [] in
  (if bool_decide (0 < length targetEventResponderInstances)%nat then
     (* Capture target phase: i from length - 1 down to 0 *)
     propagatedEventResponders ←
       targetPhase onEventCapture OnEventCapture responderEvent
         (reverse targetEventResponderInstances) propagatedEventResponders;
     (* propagatedEventResponders.clear() *)
     let propagatedEventResponders : list Responder := [] in
     (* Bubble target phase *)
     targetPhase onEvent OnEvent responderEvent
       targetEventResponderInstances propagatedEventResponders;;
     mret tt
   else mret tt);;
  rootEventResponderInstances ← get (getRootEventResponderInstances topLevelType);
  rootPhase responderEvent rootEventResponderInstances.

(** ** Mounting, unmounting, entry points *)

Definition mountEventResponder (eventComponentInstance : Instance) : M unit :=
  if bool_decide (is_Some (onOwnershipChange
                             (responderFields (responder eventComponentInstance))))
  then modify (fun s => set_ownershipChangeListeners
                 (set_add eventComponentInstance (ownershipChangeListeners s)) s)
  else mret tt.

Definition unmountEventResponder (eventComponentInstance : Instance) : M unit :=
  let fields := responderFields (responder eventComponentInstance) in
  match onUnmount fields with
  | Some onUnmount_ =>
      modify (set_currentEventQueue (Some createEventQueue));;
      modify (set_currentInstance (Some eventComponentInstance));;
      try_finally
        (invoke (OnUnmount eventComponentInstance) onUnmount_ NoArgs)
        endCycle
  | None => mret tt
  end;;
  owner ← get currentOwner;
  (if bool_decide (owner = Some eventComponentInstance) then
     modify (set_currentOwner None);;
     triggerOwnershipListeners
   else mret tt);;
  (if bool_decide (is_Some (onOwnershipChange fields)) then
     modify (fun s => set_ownershipChangeListeners
               (set_delete eventComponentInstance (ownershipChangeListeners s)) s)
   else mret tt);;
  rootEventTypesSet ← get (fun s => instanceRootEventTypes s !! eventComponentInstance);
  match rootEventTypesSet with
  | Some rootEventTypes =>
      for_each rootEventTypes (fun topLevelEventType =>
        modify (registry_delete topLevelEventType eventComponentInstance))
  | None => mret tt
  end.

(** [enableEventAPI] of [ReactFeatureFlags]. *)
Variable enableEventAPI : bool.

Definition dispatchEventForResponderEventSystem (topLevelType : string)
    (targetFiber : option Fiber) (nativeEvent : nat) (nativeEventTarget : Node)
    (eventSystemFlags : Z) : M unit :=
  if enableEventAPI then
    modify (set_currentEventQueue (Some createEventQueue));;
    try_finally
      (traverseAndHandleEventResponderInstances topLevelType targetFiber
         nativeEvent nativeEventTarget eventSystemFlags;;
       processEventQueue)
      endCycle
  else mret tt.

Definition addRootEventTypesForComponentInstance (eventComponentInstance : Instance)
    (rootEventTypes : list ReactEventResponderEventType) : M unit :=
  for_each rootEventTypes (fun rootEventType =>
    let topLevelEventType := topLevelEventTypeOf rootEventType in
    modify (registry_ensure topLevelEventType);;
    modify (rootEventTypes_ensure eventComponentInstance);;
    modify (rootEventTypes_add eventComponentInstance topLevelEventType);;
    modify (registry_add topLevelEventType eventComponentInstance)).

End Engine.

Arguments mkTimer {F}.
Arguments timer_instance {F}.
Arguments timer_func {F}.
Arguments timer_id {F}.
Arguments Invoke {F}.
Arguments HostSetTimeout {F}.
Arguments HostClearTimeout {F}.
Arguments ListenToResponderEventTypes {F}.
Arguments InteractiveUpdates {F}.
Arguments BatchedUpdates {F}.
Arguments CaughtError {F}.
Arguments Normal {F A}.
Arguments Throw {F A}.
Arguments mkResult {F A}.
Arguments effects {F A}.
Arguments completion {F A}.
Arguments mkResponder {F}.
Arguments activeTimeouts {F}.
Arguments rootEventTypesToEventComponentInstances {F}.
Arguments ownershipChangeListeners {F}.
Arguments eventListeners {F}.
Arguments currentTimers {F}.
Arguments currentOwner {F}.
Arguments currentInstance {F}.
Arguments currentEventQueue {F}.
Arguments timeoutTimers {F}.
Arguments instanceRootEventTypes {F}.
Arguments nextSymbol {F}.
Arguments nextTimeoutID {F}.
Arguments mkState {F}.
Arguments targetEventTypes {F}.
Arguments stopLocalPropagation {F}.
Arguments onEventCapture {F}.
Arguments onEvent {F}.
Arguments onRootEvent {F}.
Arguments onOwnershipChange {F}.
Arguments onUnmount {F}.
Arguments initialState {F}.
Arguments set_activeTimeouts {F}.
Arguments set_rootEventTypesToEventComponentInstances {F}.
Arguments set_ownershipChangeListeners {F}.
Arguments set_eventListeners {F}.
Arguments set_currentTimers {F}.
Arguments set_currentOwner {F}.
Arguments set_currentInstance {F}.
Arguments set_currentEventQueue {F}.
Arguments set_timeoutTimers {F}.
Arguments set_instanceRootEventTypes {F}.
Arguments set_nextSymbol {F}.
Arguments set_nextTimeoutID {F}.
Arguments finalState {F A}.
Arguments isThrow {F A}.
Arguments ret {F A}.
Arguments bind {F A B}.
Arguments throw {F A}.
Arguments get {F A}.
Arguments modify {F}.
Arguments emit {F}.
Arguments try_finally {F A}.
Arguments for_each {F A}.
Arguments invariant {F}.
Arguments invoke {F}.
Arguments invoke_defined {F}.
Arguments validateResponderContext {F}.
Arguments theCurrentInstance {F}.
Arguments triggerOwnershipListeners {F}.
Arguments dispatchEvent {F}.
Arguments isTargetWithinEventComponent {F}.
Arguments isTargetWithinElement {F}.
Arguments isPositionWithinTouchHitTarget {F}.
Arguments registry_add {F}.
Arguments registry_delete {F}.
Arguments registry_ensure {F}.
Arguments rootEventTypes_ensure {F}.
Arguments rootEventTypes_add {F}.
Arguments rootEventTypes_delete {F}.
Arguments rootEventTypes_has {F}.
Arguments addRootEventType {F}.
Arguments addRootEventTypes {F}.
Arguments removeRootEventTypes {F}.
Arguments hasOwnership {F}.
Arguments requestOwnership {F}.
Arguments releaseOwnership {F}.
Arguments host_setTimeout {F}.
Arguments host_clearTimeout {F}.
Arguments freshSymbol {F}.
Arguments timers_of {F}.
Arguments setTimeout {F}.
Arguments clearTimeout {F}.
Arguments getEventTargetsFromTarget {F}.
Arguments invokeGuardedCallbackAndCatchFirstError {F}.
Arguments processEvent {F}.
Arguments processEvents {F}.
Arguments processEventQueue {F}.
Arguments endCycle {F}.
Arguments fireTimer {F}.
Arguments processTimers {F}.
Arguments ownerAllows {F}.
Arguments getTargetEventResponderInstances {F}.
Arguments getRootEventResponderInstances {F}.
Arguments targetPhase {F}.
Arguments rootPhase {F}.
Arguments traverseAndHandleEventResponderInstances {F}.
Arguments mountEventResponder {F}.
Arguments unmountEventResponder {F}.
Arguments dispatchEventForResponderEventSystem {F}.
Arguments addRootEventTypesForComponentInstance {F}.

(** ** Reading the record of a run *)

Definition callee_of {F} (e : Effect F) : option Callee :=
  match e with Invoke c _ => Some c | _ => None end.

(** The stored functions a run called, in order. *)
Definition callees {F} (es : list (Effect F)) : list Callee := omap callee_of es.

(** The instance a phase callback ([onEventCapture], [onEvent],
    [onRootEvent]) is invoked on. *)
Definition phase_instance (c : Callee) : option Instance :=
  match c with
  | OnEventCapture i | OnEvent i | OnRootEvent i => Some i
  | _ => None
  end.

Definition capture_invocations {F} (es : list (Effect F)) : list Instance :=
  omap (fun c => match c with OnEventCapture i => Some i | _ => None end) (callees es).

Definition bubble_invocations {F} (es : list (Effect F)) : list Instance :=
  omap (fun c => match c with OnEvent i => Some i | _ => None end) (callees es).

Definition host_timers_created {F} (es : list (Effect F)) : list TimeoutID :=
  omap (fun e => match e with HostSetTimeout id _ => Some id | _ => None end) es.

Definition host_timers_cleared {F} (es : list (Effect F)) : list TimeoutID :=
  omap (fun e => match e with HostClearTimeout id => Some id | _ => None end) es.

(** A call made outside a cycle. *)
Definition outsideCycle {F} (s : State F) : Prop :=
  currentEventQueue s = None ∨ currentInstance s = None.

(** An effect is a call of a stored function only for callees in [Pc]. *)
Definition onCallees {F} (Pc : Callee → Prop) (e : Effect F) : Prop :=
  match e with Invoke c _ => Pc c | _ => True end.

(** A call made inside a cycle: [validateResponderContext] passes. *)
Definition inCycle {F} (s : State F) : Prop :=
  is_Some (currentEventQueue s) ∧ is_Some (currentInstance s).

(** [ensures P m E Q R]: run from a state in [P], the computation [m] has
    only effects in [E], and ends in [Q] when it returns and in [R] when it
    throws. *)
Definition ensures {F A} (P : State F → Prop) (m : M F A) (E : Effect F → Prop)
    (Q : A → State F → Prop) (R : State F → Prop) : Prop :=
  ∀ s, P s →
    Forall E (effects (m s)) ∧
    match completion (m s) with
    | Normal a s' => Q a s'
    | Throw _ s' => R s'
    end.

(** No stored function throws. *)
Definition neverThrows {F} (call : F → Args → State F → Completion F unit) : Prop :=
  ∀ f args s, isThrow (call f args s) = false.

(** Instance [i] is registered for the root event type [n]: the type is in
    the instance's [rootEventTypes] and the instance is in the type's Set of
    [rootEventTypesToEventComponentInstances]. *)
Definition registered {F} (i : Instance) (n : string) (s : State F) : Prop :=
  rootEventTypes_has i n s = true ∧
  i ∈ default [] (rootEventTypesToEventComponentInstances s !! n).

(** The four assignments of one turn of the loop of
    [addRootEventTypesForComponentInstance]. *)
Definition registerStatic {F} (i : Instance) (s : State F)
    (rootEventType : ReactEventResponderEventType) : State F :=
  let n := topLevelEventTypeOf rootEventType in
  registry_add n i (rootEventTypes_add i n (rootEventTypes_ensure i (registry_ensure n s))).

(** The [rootEventTypes] of instance [i] and the registry agree: the
    instance is in the registry's Set of every type it holds.  The two are
    written together by [addRootEventTypes], [removeRootEventTypes] and
    [addRootEventTypesForComponentInstance]; [unmountEventResponder] takes
    the instance it destroys out of the registry only. *)
Definition rootTypesAgree {F} (i : Instance) (s : State F) : Prop :=
  ∀ n, rootEventTypes_has i n s = true →
       i ∈ default [] (rootEventTypesToEventComponentInstances s !! n).

(** An ownership listener is entered as the current instance, inside a
    cycle. *)
Definition notifiedInCycle {F} (e : Effect F) : Prop :=
  match e with
  | Invoke (OnOwnershipChange i) entry => currentInstance entry = Some i ∧ inCycle entry
  | _ => True
  end.

(** The stored functions leave the current event queue in place: the
    context has no operation that ends the cycle. *)
Definition keepsQueue {F} (call : F → Args → State F → Completion F unit) : Prop :=
  ∀ f args s, is_Some (currentEventQueue s) →
              is_Some (currentEventQueue (finalState (call f args s))).

(** The stored functions keep registered tokens registered: the context
    has no operation that takes an entry out of [activeTimeouts]. *)
Definition keepsTokens {F} (call : F → Args → State F → Completion F unit) : Prop :=
  ∀ f args s id, is_Some (activeTimeouts s !! id) →
                 is_Some (activeTimeouts (finalState (call f args s)) !! id).

(** A timer callback is entered with its own token in [activeTimeouts]. *)
Definition entryPresent {F} (e : Effect F) : Prop :=
  match e with
  | Invoke (TimerFunc id) entry => is_Some (activeTimeouts entry !! id)
  | _ => True
  end.

(** The instances of a target-phase loop that are not skipped by
    [continue], in the order visited, and the set the loop ends with. *)
Section LocalPropagation.
Context {F : Type}.
Variable responder : Instance → Responder.
Variable responderFields : Responder → ReactEventResponder F.

Definition stops (i : Instance) : bool :=
  stopLocalPropagation (responderFields (responder i)).

Fixpoint notSkipped (instances : list Instance) (propagated : list Responder)
    : list Instance :=
  match instances with
  | [] => []
  | i :: rest =>
      if stops i && set_has (responder i) propagated
      then notSkipped rest propagated
      else i :: notSkipped rest
                  (if stops i then set_add (responder i) propagated else propagated)
  end.

Fixpoint propagatedAfter (instances : list Instance) (propagated : list Responder)
    : list Responder :=
  match instances with
  | [] => propagated
  | i :: rest =>
      if stops i && set_has (responder i) propagated
      then propagatedAfter rest propagated
      else propagatedAfter rest
             (if stops i then set_add (responder i) propagated else propagated)
  end.

Definition hasHandler (handler : ReactEventResponder F → option F) (i : Instance) : bool :=
  bool_decide (is_Some (handler (responderFields (responder i)))).
End LocalPropagation.

(** What a property [Pc] of the callees has to cover in the target phases:
    the instances of the target-phase list that a phase does not skip and
    that have its handler. *)
Definition coversTarget {F} (responder : Instance → Responder)
    (responderFields : Responder → ReactEventResponder F) (Pc : Callee → Prop)
    (P0 : State F → Prop) (topLevelType : string) (targetFiber : option Fiber) : Prop :=
  ∀ s, P0 s →
    let l := getTargetEventResponderInstances responder responderFields
               topLevelType targetFiber s in
    (∀ i, i ∈ notSkipped responder responderFields (reverse l) [] →
          hasHandler responder responderFields onEventCapture i = true →
          Pc (OnEventCapture i)) ∧
    (∀ i, i ∈ notSkipped responder responderFields l [] →
          hasHandler responder responderFields onEvent i = true →
          Pc (OnEvent i)).

(** The instances the root phase called, and the timers that fired, in
    order. *)
Definition root_invocations {F} (es : list (Effect F)) : list Instance :=
  omap (fun c => match c with OnRootEvent i => Some i | _ => None end) (callees es).

Definition timer_invocations {F} (es : list (Effect F)) : list Symbol :=
  omap (fun c => match c with TimerFunc id => Some id | _ => None end) (callees es).

(** A phase callback is entered as the current instance, inside a cycle. *)
Definition enteredAsCurrent {F} (e : Effect F) : Prop :=
  match e with
  | Invoke c entry =>
      ∀ i, phase_instance c = Some i → currentInstance entry = Some i ∧ inCycle entry
  | _ => True
  end.

(** The stored functions keep recorded listeners recorded: the context only
    ever adds to [eventListeners]. *)
Definition keepsListeners {F} (call : F → Args → State F → Completion F unit) : Prop :=
  ∀ f args s id, is_Some (eventListeners s !! id) →
                 is_Some (eventListeners (finalState (call f args s)) !! id).

(** The stored functions leave the ownership slot as it is. *)
Definition keepsOwner {F} (call : F → Args → State F → Completion F unit) : Prop :=
  ∀ f args s, currentOwner (finalState (call f args s)) = currentOwner s.

(** The two assignments of one turn of the loop of [removeRootEventTypes]. *)
Definition unregister {F} (i : Instance) (s : State F)
    (x : ReactEventResponderEventType) : State F :=
  registry_delete (topLevelEventTypeOf x) i
    (rootEventTypes_delete i (topLevelEventTypeOf x) s).

(** ** A small tree of responders

    Instances 1 and 2 share the responder [press], which reacts to clicks
    and key presses and stops local propagation; instance 3 has the
    responder [watch], which reacts to clicks, listens to ownership changes
    and asks [hasOwnership] when notified; instances 4 and 5 have the
    responder [plain]; instance 6 has the responder [letgo], which releases
    ownership in [onEvent].  The fibers are
    host node 100 (the event target) inside instance 1 inside instance 2
    inside instance 3. *)
Module Example.
Local Open Scope nat_scope.

Inductive Fn := Noop | AskHasOwnership | CancelTimer (id : Symbol) | Release | Fail.

(** A stored function that uses the context: what the operation does to
    the module state is what the function does. *)
Definition run {A} (m : M Fn A) (s : State Fn) : Completion Fn unit :=
  match completion (m s) with
  | Normal _ s' => Normal tt s'
  | Throw e s' => Throw e s'
  end.

(** Functions that all do nothing. *)
Definition quiet (f : Fn) (_ : Args) (s : State Fn) : Completion Fn unit :=
  Normal tt s.

Definition press : Responder := 10%nat.
Definition watch : Responder := 11%nat.
Definition plain : Responder := 12%nat.
Definition letgo : Responder := 13%nat.

Definition responderFields (r : Responder) : ReactEventResponder Fn :=
  if bool_decide (r = press) then
    mkResponder [EventTypeString "click"; EventTypeString "keydown"] true
      (Some Noop) (Some Noop) (Some Noop) None None
  else if bool_decide (r = watch) then
    mkResponder [EventTypeObject "click" None None] false None (Some Noop) (Some Noop)
      (Some AskHasOwnership) None
  else if bool_decide (r = plain) then
    mkResponder [EventTypeString "click"] false (Some Noop) (Some Noop) None None
      (Some Noop)
  else if bool_decide (r = letgo) then
    mkResponder [EventTypeString "click"] false None (Some Release) None None None
  else mkResponder [] false None None None None None.

Definition responder (i : Instance) : Responder :=
  match i with
  | 1%nat | 2%nat => press
  | 3%nat => watch
  | 4%nat | 5%nat => plain
  | 6%nat => letgo
  | _ => 0%nat
  end.

(** What the example functions do: nothing, [context.hasOwnership()],
    [context.clearTimeout(id)], [context.releaseOwnership()] (with listeners
    that do nothing), [throw]. *)
Definition call (f : Fn) (_ : Args) (s : State Fn) : Completion Fn unit :=
  match f with
  | Noop => Normal tt s
  | AskHasOwnership => run hasOwnership s
  | CancelTimer id => run (clearTimeout id) s
  | Release => run (releaseOwnership responder responderFields quiet) s
  | Fail => Throw (Raised 0) s
  end.

Definition fiber3 : Fiber := mkFiber 3 (EventComponentFiber 3) [] None.
Definition fiber2 : Fiber := mkFiber 2 (EventComponentFiber 2) [] (Some fiber3).
Definition fiber1 : Fiber := mkFiber 1 (EventComponentFiber 1) [] (Some fiber2).
Definition leaf : Fiber := mkFiber 100 (HostComponentFiber 100) [] (Some fiber1).

(** Instances 4 and 5 in a tree of their own, under host node 200. *)
Definition fiber5 : Fiber := mkFiber 5 (EventComponentFiber 5) [] None.
Definition fiber4 : Fiber := mkFiber 4 (EventComponentFiber 4) [] (Some fiber5).
Definition leaf' : Fiber := mkFiber 200 (HostComponentFiber 200) [] (Some fiber4).

(** Instance 6 alone, under host node 300. *)
Definition fiber6 : Fiber := mkFiber 6 (EventComponentFiber 6) [] None.
Definition leaf6 : Fiber := mkFiber 300 (HostComponentFiber 300) [] (Some fiber6).

Definition getClosestInstanceFromNode (n : Node) : option Fiber :=
  if bool_decide (n = 100%nat) then Some leaf
  else if bool_decide (n = 300%nat) then Some leaf6
  else if bool_decide (n = 200%nat) then Some leaf'
  else if bool_decide (n = 3%nat) then Some fiber3
  else None.

(** Instance 1 asked for ownership and got it; all of 1, 2 and 3 are
    registered for root clicks; 3 listens to ownership changes. *)
Definition owned : State Fn :=
  set_currentOwner (Some 1%nat)
    (set_ownershipChangeListeners [3%nat]
       (set_rootEventTypesToEventComponentInstances
          {["click" := [1%nat; 2%nat; 3%nat]]}
          (set_currentTimers None initialState))).

(** [owned] in the middle of a cycle in which instance 1 is current. *)
Definition owned_inCycle : State Fn :=
  set_currentInstance (Some 1%nat)
    (set_currentEventQueue (Some createEventQueue) owned).

(** A cycle of instance 1 with nothing else going on. *)
Definition fresh_inCycle : State Fn :=
  set_currentInstance (Some 1)
    (set_currentEventQueue (Some createEventQueue) initialState).

(** Instance 1 scheduled a timer that cancels its own token, and the
    cycle ended: the token is symbol 0, the host timer is handle 0. *)
Definition scheduled : State Fn :=
  endCycle (finalState (completion (setTimeout (CancelTimer 0) 10%Z fresh_inCycle))).

(** Instance 1, in a cycle, is registered for root clicks. *)
Definition registered_inCycle : State Fn :=
  finalState (completion
    (addRootEventTypesForComponentInstance 1 [EventTypeString "click"] fresh_inCycle)).

(** Instance 6 holds the slot; 6 and 3 are registered for root clicks. *)
Definition owned_by_6 : State Fn :=
  set_currentOwner (Some 6)
    (set_rootEventTypesToEventComponentInstances {["click" := [6; 3]]} owned).

(** Instance 4, whose responder has [onUnmount], holds the slot. *)
Definition owned_by_4 : State Fn := set_currentOwner (Some 4) owned.

(** Instance 1 registered "click" as a static root event type and was
    unmounted afterwards. *)
Definition unmounted : State Fn :=
  finalState (completion
    ((addRootEventTypesForComponentInstance 1 [EventTypeString "click"];;
      unmountEventResponder responder responderFields quiet 1) initialState)).
End Example.

(** * Properties *)

(** ** The insertion-ordered collections *)

Section CollectionFacts.
Context {A : Type} `{EqDecision A}.
Implicit Types (x y : A) (s : list A).

Lemma set_has_true x s : set_has x s = true ↔ x ∈ s.
Proof. unfold set_has. apply bool_decide_eq_true. Qed.

Lemma set_has_false x s : set_has x s = false ↔ x ∉ s.
Proof. unfold set_has. apply bool_decide_eq_false. Qed.

Lemma set_add_present x s : x ∈ s → set_add x s = s.
Proof. intros Hin. unfold set_add. by rewrite (proj2 (set_has_true x s) Hin). Qed.

Lemma elem_of_set_add x y s : y ∈ set_add x s ↔ y = x ∨ y ∈ s.
Proof.
  unfold set_add. destruct (set_has x s) eqn:Hx.
  - apply set_has_true in Hx. split; [by right | intros [-> | ?]; done].
  - rewrite elem_of_app, list_elem_of_singleton. tauto.
Qed.

Lemma set_add_idemp x s : set_add x (set_add x s) = set_add x s.
Proof. apply set_add_present, elem_of_set_add. by left. Qed.
End CollectionFacts.

(** ** Running the monad *)

Section Run.
Context {F : Type}.
Implicit Types (s : State F).

Lemma run_bind {A B} (m : M F A) (k : A → M F B) s :
  (m ≫= k) s =
  match completion (m s) with
  | Normal a s' => mkResult (effects (m s) ++ effects (k a s')) (completion (k a s'))
  | Throw e s' => mkResult (effects (m s)) (Throw e s')
  end.
Proof. reflexivity. Qed.

Lemma run_ret {A} (a : A) s : (mret a : M F A) s = mkResult [] (Normal a s).
Proof. reflexivity. Qed.

Lemma ensures_ret {A} (a : A) P E (Q : A → State F → Prop) R :
  (∀ s, P s → Q a s) → ensures P (mret a : M F A) E Q R.
Proof. intros H s Hs. split; [constructor | by apply H]. Qed.

Lemma ensures_bind {A B} (m : M F A) (k : A → M F B) P E Q' Q R :
  ensures P m E Q' R →
  (∀ a, ensures (Q' a) (k a) E Q R) →
  ensures P (m ≫= k) E Q R.
Proof.
  intros Hm Hk s Hs. rewrite run_bind.
  destruct (Hm s Hs) as [HE Hc].
  destruct (completion (m s)) as [a s'|e s']; simpl.
  - destruct (Hk a s' Hc) as [HE' Hc']. split; [by apply Forall_app | done].
  - done.
Qed.

Lemma ensures_get {A} (f : State F → A) P E (Q : A → State F → Prop) R :
  (∀ s, P s → Q (f s) s) → ensures P (get f) E Q R.
Proof. intros H s Hs. split; [constructor | by apply H]. Qed.

Lemma ensures_modify (f : State F → State F) P E (Q : unit → State F → Prop) R :
  (∀ s, P s → Q tt (f s)) → ensures P (modify f) E Q R.
Proof. intros H s Hs. split; [constructor | by apply H]. Qed.

Lemma ensures_emit (e : Effect F) P E (Q : unit → State F → Prop) R :
  E e → (∀ s, P s → Q tt s) → ensures P (emit e) E Q R.
Proof. intros He H s Hs. split; [by repeat constructor | by apply H]. Qed.

Lemma ensures_throw {A} (e : Exn) P E (Q : A → State F → Prop) (R : State F → Prop) :
  (∀ s, P s → R s) → ensures P (throw e : M F A) E Q R.
Proof. intros H s Hs. split; [constructor | by apply H]. Qed.

Lemma ensures_invariant (c : bool) msg P E (Q : unit → State F → Prop) (R : State F → Prop) :
  (∀ s, P s → c = true → Q tt s) → (∀ s, P s → c = false → R s) →
  ensures P (invariant c msg) E Q R.
Proof.
  intros H1 H2. destruct c; [apply ensures_ret | apply ensures_throw]; eauto.
Qed.

Lemma ensures_try_finally {A} (body : M F A) cleanup P E Q' R' (Q : A → State F → Prop) R :
  ensures P body E Q' R' →
  (∀ a s, Q' a s → Q a (cleanup s)) →
  (∀ s, R' s → R (cleanup s)) →
  ensures P (try_finally body cleanup) E Q R.
Proof.
  intros Hb HQ HR s Hs. destruct (Hb s Hs) as [HE Hc].
  unfold try_finally; simpl. split; [done |].
  destruct (completion (body s)); eauto.
Qed.

Lemma ensures_for_each {A} (xs : list A) (body : A → M F unit) (I : State F → Prop) E R :
  (∀ x, x ∈ xs → ensures I (body x) E (fun _ => I) R) →
  ensures I (for_each xs body) E (fun _ => I) R.
Proof.
  induction xs as [|x xs IH]; intros Hbody; simpl.
  - by apply (ensures_ret tt).
  - apply (ensures_bind (body x) (fun _ => for_each xs body) _ _ (fun _ => I)).
    + apply Hbody. by left.
    + intros _. apply IH. intros y Hy. apply Hbody. by right.
Qed.

Lemma ensures_weaken {A} (m : M F A) (P P' : State F → Prop) (E E' : Effect F → Prop)
    (Q Q' : A → State F → Prop) (R R' : State F → Prop) :
  ensures P' m E' Q' R' →
  (∀ s, P s → P' s) → (∀ e, E' e → E e) →
  (∀ a s, Q' a s → Q a s) → (∀ s, R' s → R s) →
  ensures P m E Q R.
Proof.
  intros H HP HE HQ HR s Hs. destruct (H s (HP s Hs)) as [H1 H2]. split.
  - eapply Forall_impl; eauto.
  - destruct (completion (m s)); eauto.
Qed.

Lemma ensures_get_bind {A B} (f : State F → A) (k : A → M F B) P E Q R :
  (∀ a, ensures (fun s => P s ∧ a = f s) (k a) E Q R) →
  ensures P (get f ≫= k) E Q R.
Proof.
  intros Hk. eapply ensures_bind; [|exact Hk].
  apply ensures_get. by intros s Hs.
Qed.

Lemma ensures_modify_bind {B} (g : State F → State F) (k : unit → M F B) P P' E Q R :
  (∀ s, P s → P' (g s)) →
  ensures P' (k tt) E Q R →
  ensures P (modify g ≫= k) E Q R.
Proof.
  intros Hg Hk. eapply ensures_bind; [|intros []; exact Hk].
  by apply ensures_modify.
Qed.

Lemma ensures_emit_bind {B} (e : Effect F) (k : unit → M F B) P E Q R :
  E e → ensures P (k tt) E Q R → ensures P (emit e ≫= k) E Q R.
Proof.
  intros He Hk. eapply ensures_bind; [|intros []; exact Hk].
  by apply ensures_emit.
Qed.

Lemma ensures_invoke call c f args P (E : Effect F → Prop) (Q : unit → State F → Prop) R :
  (∀ s, P s → E (Invoke c s)) →
  (∀ s, P s → match call f args s with Normal _ s' => Q tt s' | Throw _ s' => R s' end) →
  ensures P (invoke call c f args) E Q R.
Proof.
  intros HE Hc s Hs. unfold invoke; simpl. split.
  - repeat constructor. by apply HE.
  - specialize (Hc s Hs). by destruct (call f args s) as [[] ?|? ?].
Qed.
End Run.

(** ** The local-propagation rule on lists *)

Section LocalPropagationFacts.
Context {F : Type}.
Variable responder : Instance → Responder.
Variable responderFields : Responder → ReactEventResponder F.
Implicit Types (i x y : Instance) (l : list Instance) (p : list Responder)
  (r : Responder).


Local Abbreviation stops := (stops responder responderFields).
Local Abbreviation notSkipped := (notSkipped responder responderFields).
Local Abbreviation propagatedAfter := (propagatedAfter responder responderFields).

Lemma notSkipped_sub l p i : i ∈ notSkipped l p → i ∈ l.
Proof.
  revert p. induction l as [|x l IH]; intros p; simpl; [done|].
  destruct (_ && _).
  - intros H. right. by eapply IH.
  - intros [->|H]%elem_of_cons; [by left | right; by eapply IH].
Qed.


Lemma propagatedAfter_mono l p r : r ∈ p → r ∈ propagatedAfter l p.
Proof.
  revert p. induction l as [|x l IH]; intros p Hr; simpl; [done|].
  destruct (_ && _); [by apply IH|]. apply IH.
  destruct (stops x); [|done]. apply elem_of_set_add. by right.
Qed.




(** Where no responder that stops local propagation has two instances in
    the list, nothing is skipped. *)
Lemma notSkipped_all l p :
  NoDup (map responder (List.filter stops l)) →
  (∀ i, i ∈ l → stops i = true → responder i ∉ p) →
  notSkipped l p = l.
Proof.
  revert p. induction l as [|x l IH]; intros p Hnd Hp; simpl; [done|].
  simpl in Hnd. destruct (stops x) eqn:Hsx; simpl.
  - simpl in Hnd. apply NoDup_cons in Hnd as [Hx Hnd].
    assert (Hfresh : responder x ∉ p) by (apply Hp; [by left | done]).
    rewrite (proj2 (set_has_false _ _) Hfresh). f_equal. apply IH; [done|].
    intros i Hi Hsi [Heq|H]%elem_of_set_add.
    + apply Hx. rewrite <- Heq.
      apply list_elem_of_In, in_map, filter_In. split; [by apply list_elem_of_In | done].
    + eapply Hp; [by right | done | done].
  - f_equal. apply IH; [done|]. intros i Hi. apply Hp. by right.
Qed.

Lemma filter_reverse_bool (f : Instance → bool) l :
  List.filter f (reverse l) = reverse (List.filter f l).
Proof.
  induction l as [|x l IH]; [done|].
  rewrite reverse_cons, List.filter_app, IH. simpl.
  destruct (f x); [by rewrite reverse_cons | by rewrite app_nil_r].
Qed.

Lemma NoDup_map_reverse (l : list Instance) :
  NoDup (map responder (List.filter stops l)) →
  NoDup (map responder (List.filter stops (reverse l))).
Proof.
  intros H. rewrite filter_reverse_bool.
  change (map responder ?k) with (responder <$> k). rewrite fmap_reverse.
  by rewrite reverse_Permutation.
Qed.
End LocalPropagationFacts.

(** ** Ownership filters every phase *)

Section OwnershipFilter.
Context {F : Type}.
Variable responder : Instance → Responder.
Variable responderFields : Responder → ReactEventResponder F.
Variable call : F → Args → State F → Completion F unit.
Variables IS_PASSIVE PASSIVE_NOT_SUPPORTED : Z.
Variable enableEventAPI : bool.
Implicit Types (s : State F) (X i : Instance).

Lemma ownerAllows_owner s X i :
  currentOwner s = Some X → ownerAllows s i = true → i = X.
Proof.
  unfold ownerAllows. intros ->. rewrite orb_true_iff, !bool_decide_eq_true.
  intros [?|?]; congruence.
Qed.

Lemma target_instances_allowed topLevelType targetFiber s i :
  i ∈ getTargetEventResponderInstances responder responderFields topLevelType targetFiber s →
  ownerAllows s i = true.
Proof.
  unfold getTargetEventResponderInstances. rewrite list_elem_of_In, in_flat_map.
  intros (node & _ & Hin). destruct (fiber_kind node) as [j| | |]; try by inversion Hin.
  destruct (ownerAllows s j) eqn:Hj; [|by inversion Hin].
  destruct (set_has _ _); [|by inversion Hin].
  destruct Hin as [<-|[]]. done.
Qed.

Lemma root_instances_allowed topLevelType s i :
  i ∈ getRootEventResponderInstances topLevelType s → ownerAllows s i = true.
Proof.
  unfold getRootEventResponderInstances.
  destruct (_ !! topLevelType) as [l|]; [|by intros ?%elem_of_nil].
  rewrite list_elem_of_In, filter_In. tauto.
Qed.

(** The flush calls listeners only. *)
Lemma processEventQueue_ensures (Pc : Callee → Prop) :
  (∀ e, Pc (Listener e)) →
  ensures (fun _ => True) (processEventQueue call) (onCallees Pc)
    (fun _ _ => True) (fun _ => True).
Proof.
  intros HPc. unfold processEventQueue.
  assert (Hev : ∀ (P : State F → Prop) evs,
    ensures P (processEvents call evs) (onCallees Pc) (fun _ _ => True) (fun _ => True)).
  { intros P evs.
    apply ensures_weaken with (P' := fun _ => True) (E' := onCallees Pc)
      (Q' := fun _ _ => True) (R' := fun _ => True); [|done..].
    unfold processEvents. apply ensures_for_each. intros ev _. unfold processEvent.
    apply ensures_get_bind. intros listener s _.
    unfold invokeGuardedCallbackAndCatchFirstError, invoke_defined, invoke.
    destruct listener as [f|]; simpl.
    - destruct (call f _ s); simpl; (split; [|done]);
        repeat (constructor; simpl; auto).
    - split; [by repeat constructor | done]. }
  apply ensures_get_bind. intros [q|]; [|by apply ensures_throw].
  case_bool_decide; [by apply ensures_ret|].
  destruct (discrete q); repeat (apply ensures_emit_bind; [done|]); apply Hev.
Qed.

Section Invariant.
(** [I] is a property of the module state that no stored function and
    no assignment to [currentInstance] or [currentEventQueue] breaks. *)
Variable I : State F → Prop.
Variable Pc : Callee → Prop.
Hypothesis I_call : ∀ f args s, I s → I (finalState (call f args s)).
Hypothesis I_instance : ∀ s (o : option Instance), I s → I (set_currentInstance o s).
Hypothesis I_queue : ∀ s q, I s → I (set_currentEventQueue q s).
Hypothesis Pc_listener : ∀ e, Pc (Listener e).

Lemma invoke_keeps c f args :
  Pc c → ensures I (invoke call c f args) (onCallees Pc) (fun _ => I) I.
Proof.
  intros Hc. apply ensures_invoke; [done|]. intros s Hs.
  specialize (I_call f args s Hs). by destruct (call f args s).
Qed.

Lemma targetPhase_ensures handler callee ev l p :
  (∀ i, i ∈ notSkipped responder responderFields l p →
        hasHandler responder responderFields handler i = true → Pc (callee i)) →
  ensures I (targetPhase responder responderFields call handler callee ev l p)
    (onCallees Pc) (fun _ => I) I.
Proof.
  revert p. induction l as [|i l IH]; intros p Hl; simpl.
  - by apply ensures_ret.
  - simpl in Hl. unfold stops in Hl.
    destruct (_ && _); [by apply IH|].
    apply ensures_bind with (Q' := fun _ => I).
    + destruct (handler _) as [f|] eqn:Hf; [|by apply ensures_ret].
      eapply ensures_modify_bind; [intros; by apply I_instance|].
      apply invoke_keeps, Hl; [by left|].
      unfold hasHandler. rewrite Hf. by apply bool_decide_eq_true.
    + intros []. apply IH. intros j Hj. apply Hl. by right.
Qed.

Lemma rootPhase_ensures ev l :
  (∀ i, i ∈ l → Pc (OnRootEvent i)) →
  ensures I (rootPhase responder responderFields call ev l)
    (onCallees Pc) (fun _ => I) I.
Proof.
  intros Hl. unfold rootPhase. apply ensures_for_each. intros i Hi.
  destruct (onRootEvent _) as [f|]; [|by apply ensures_ret].
  eapply ensures_modify_bind; [intros; by apply I_instance|].
  by apply invoke_keeps, Hl.
Qed.

Lemma traverse_ensures (P0 : State F → Prop) topLevelType targetFiber nativeEvent
    nativeEventTarget flags :
  coversTarget responder responderFields Pc P0 topLevelType targetFiber →
  (∀ s i, I s → ownerAllows s i = true → Pc (OnRootEvent i)) →
  ensures (fun s => I s ∧ P0 s)
    (traverseAndHandleEventResponderInstances responder responderFields call
       IS_PASSIVE PASSIVE_NOT_SUPPORTED topLevelType targetFiber nativeEvent
       nativeEventTarget flags)
    (onCallees Pc) (fun _ => I) I.
Proof.
  intros Htarget Hroot. unfold traverseAndHandleEventResponderInstances.
  eapply ensures_bind.
  { apply (ensures_get _ _ _ (fun l s => I s ∧
      (∀ i, i ∈ notSkipped responder responderFields (reverse l) [] →
            hasHandler responder responderFields onEventCapture i = true →
            Pc (OnEventCapture i)) ∧
      (∀ i, i ∈ notSkipped responder responderFields l [] →
            hasHandler responder responderFields onEvent i = true →
            Pc (OnEvent i)))).
    intros s [HI HP]. split; [done|]. by apply Htarget. }
  intros l. eapply ensures_bind.
  { instantiate (1 := fun _ => I). intros s (HI & Hcap & Hbub). revert s HI.
    change (ensures I
      (if bool_decide (0 < length l)%nat
       then targetPhase responder responderFields call onEventCapture OnEventCapture
              (createResponderEvent IS_PASSIVE PASSIVE_NOT_SUPPORTED topLevelType
                 nativeEvent nativeEventTarget flags) (reverse l) [] ≫=
            (fun _ => targetPhase responder responderFields call onEvent OnEvent
               (createResponderEvent IS_PASSIVE PASSIVE_NOT_SUPPORTED topLevelType
                  nativeEvent nativeEventTarget flags) l [] ≫= (fun _ => mret tt))
       else mret tt) (onCallees Pc) (fun _ => I) I).
    case_bool_decide; [|by apply ensures_ret].
    apply ensures_bind with (Q' := fun _ => I).
    { by apply targetPhase_ensures. }
    intros _. apply ensures_bind with (Q' := fun _ => I);
      [|intros _; by apply ensures_ret].
    by apply targetPhase_ensures. }
  intros []. eapply ensures_bind.
  { apply (ensures_get _ _ _ (fun l s => I s ∧ ∀ i, i ∈ l → Pc (OnRootEvent i))).
    intros s HI. split; [done|]. intros i Hi.
    eapply Hroot, root_instances_allowed; eauto. }
  intros l' s [HI Hl']. by apply rootPhase_ensures.
Qed.

Lemma dispatch_ensures (P0 : State F → Prop) topLevelType targetFiber nativeEvent
    nativeEventTarget flags :
  (∀ s q, P0 s → P0 (set_currentEventQueue q s)) →
  coversTarget responder responderFields Pc P0 topLevelType targetFiber →
  (∀ s i, I s → ownerAllows s i = true → Pc (OnRootEvent i)) →
  ensures (fun s => I s ∧ P0 s)
    (dispatchEventForResponderEventSystem responder responderFields call
       IS_PASSIVE PASSIVE_NOT_SUPPORTED enableEventAPI topLevelType targetFiber
       nativeEvent nativeEventTarget flags)
    (onCallees Pc) (fun _ _ => True) (fun _ => True).
Proof.
  intros HP0 Htarget Hroot. unfold dispatchEventForResponderEventSystem.
  destruct enableEventAPI; [|by apply ensures_ret].
  eapply ensures_bind.
  { apply (ensures_modify _ _ _ (fun _ s => I s ∧ P0 s)).
    intros s [HI HP]. split; [by apply I_queue | by apply HP0]. }
  intros []. eapply ensures_try_finally with (Q' := fun _ _ => True) (R' := fun _ => True);
    [|done|done].
  apply ensures_bind with (Q' := fun _ _ => True).
  { apply (ensures_weaken _ _ _ _ _ (fun _ _ => True) _ (fun _ => True) _
             (traverse_ensures P0 _ _ _ _ _ Htarget Hroot)); done. }
  intros _. by apply processEventQueue_ensures.
Qed.
End Invariant.
End OwnershipFilter.

(** ** The root phase and a slot released on the way *)

Section RootPhaseOwner.
Context {F : Type}.
Variable responder : Instance → Responder.
Variable responderFields : Responder → ReactEventResponder F.
Variable call : F → Args → State F → Completion F unit.
Variables IS_PASSIVE PASSIVE_NOT_SUPPORTED : Z.
Variable enableEventAPI : bool.
Implicit Types (s : State F) (i : Instance) (l : list Instance).

Local Abbreviation notRoot := (fun c : Callee => ∀ i, c ≠ OnRootEvent i).

(** The first call of a root phase is entered in the state the phase
    started in, with the instance made current. *)
Lemma rootPhase_head ev l s :
  effects (rootPhase responder responderFields call ev l s) = [] ∨
  ∃ i rest, effects (rootPhase responder responderFields call ev l s)
            = Invoke (OnRootEvent i) (set_currentInstance (Some i) s) :: rest.
Proof.
  unfold rootPhase. induction l as [|i l IH]; [by left|].
  simpl for_each. change (bind ?m ?k) with (m ≫= k). rewrite run_bind.
  destruct (onRootEvent (responderFields (responder i))) as [f|].
  - right. rewrite run_bind. cbn [modify effects completion app]. unfold invoke at 1 2 3.
    cbn [effects completion].
    destruct (call f _ (set_currentInstance (Some i) s)); cbn [effects app]; by eexists _, _.
  - cbn [mret M_ret ret effects completion app]. exact IH.
Qed.

Lemma rootPhase_members ev l s c entry :
  Invoke c entry ∈ effects (rootPhase responder responderFields call ev l s) →
  ∃ i, c = OnRootEvent i ∧ i ∈ l.
Proof.
  intros Hin.
  assert (H : Forall (onCallees (fun c => ∃ i, c = OnRootEvent i ∧ i ∈ l))
                (effects (rootPhase responder responderFields call ev l s))).
  { refine (proj1 (rootPhase_ensures responder responderFields call (fun _ => True)
                     (fun c => ∃ i, c = OnRootEvent i ∧ i ∈ l) _ _ ev l _ s I));
      [done | done | by eauto]. }
  rewrite Forall_forall in H. exact (H _ Hin).
Qed.

(** The effects of a traversal: those of the target phases, which call no
    root handler, followed by those of the root phase over the root
    instances of the state the target phases ended in. *)
Lemma traverse_split topLevelType targetFiber nativeEvent nativeEventTarget flags s :
  let es := effects
    (traverseAndHandleEventResponderInstances responder responderFields call
       IS_PASSIVE PASSIVE_NOT_SUPPORTED topLevelType targetFiber nativeEvent
       nativeEventTarget flags s) in
  ∃ es1, Forall (onCallees notRoot) es1 ∧
    (es = es1 ∨
     ∃ s1, es = es1 ++ effects
       (rootPhase responder responderFields call
          (createResponderEvent IS_PASSIVE PASSIVE_NOT_SUPPORTED topLevelType
             nativeEvent nativeEventTarget flags)
          (getRootEventResponderInstances topLevelType s1) s1)).
Proof.
  intros es. unfold es, traverseAndHandleEventResponderInstances.
  rewrite run_bind. cbn [get effects completion app].
  set (l := getTargetEventResponderInstances responder responderFields
              topLevelType targetFiber s).
  set (ev := createResponderEvent IS_PASSIVE PASSIVE_NOT_SUPPORTED topLevelType
               nativeEvent nativeEventTarget flags).
  rewrite run_bind.
  match goal with |- context [completion (?m s)] => set (r1 := m s) end.
  assert (H1 : Forall (onCallees notRoot) (effects r1)).
  { assert (Hphase : ∀ handler callee k p s0,
              (∀ i j, callee i ≠ OnRootEvent j) →
              Forall (onCallees notRoot)
                (effects (targetPhase responder responderFields call handler callee
                            ev k p s0))).
    { intros handler callee k p s0 Hcallee.
      refine (proj1 (targetPhase_ensures responder responderFields call (fun _ => True)
                       notRoot _ _ handler callee ev k p _ s0 I));
        try done; intros i _ _ j; apply Hcallee. }
    unfold r1. case_bool_decide; [|constructor].
    rewrite run_bind.
    pose proof (Hphase onEventCapture OnEventCapture (reverse l) [] s ltac:(done)) as Hcap.
    destruct (completion (targetPhase _ _ _ onEventCapture _ _ _ _ s)) as [p1 s1|];
      cbn [effects]; [|exact Hcap].
    rewrite run_bind.
    pose proof (Hphase onEvent OnEvent l [] s1 ltac:(done)) as Hbub.
    destruct (completion (targetPhase _ _ _ onEvent _ _ _ _ s1)) as [p2 s2|];
      cbn [effects mret M_ret ret]; rewrite ?app_nil_r;
      apply Forall_app; (split; [exact Hcap | exact Hbub]). }
  exists (effects r1). split; [exact H1|].
  destruct (completion r1) as [[] s1|e s1]; cbn [effects]; [|by left].
  right. exists s1. by rewrite run_bind.
Qed.

(** Every [onRootEvent] call of a dispatch is on an instance that the
    slot allowed in the state [s1] the root phase started in, and the
    first such call is entered in that state. *)
Lemma dispatch_root_calls topLevelType targetFiber nativeEvent nativeEventTarget flags
    s i entry :
  let es := effects
    (dispatchEventForResponderEventSystem responder responderFields call
       IS_PASSIVE PASSIVE_NOT_SUPPORTED enableEventAPI topLevelType targetFiber
       nativeEvent nativeEventTarget flags s) in
  Invoke (OnRootEvent i) entry ∈ es →
  ∃ s1 i0, Invoke (OnRootEvent i0) (set_currentInstance (Some i0) s1) ∈ es ∧
           ownerAllows s1 i = true.
Proof.
  intros es. unfold es, dispatchEventForResponderEventSystem.
  destruct enableEventAPI; [|by intros ?%elem_of_nil].
  rewrite run_bind. cbn [modify effects completion app].
  set (s0 := set_currentEventQueue (Some createEventQueue) s).
  unfold try_finally. cbn [effects]. rewrite run_bind.
  set (tr := traverseAndHandleEventResponderInstances responder responderFields call
               IS_PASSIVE PASSIVE_NOT_SUPPORTED topLevelType targetFiber nativeEvent
               nativeEventTarget flags s0).
  assert (Hflush : ∀ s', Forall (onCallees notRoot) (effects (processEventQueue call s'))).
  { intros s'. by apply (processEventQueue_ensures call notRoot). }
  assert (Htr : Invoke (OnRootEvent i) entry ∈ effects tr →
            ∃ s1 i0, Invoke (OnRootEvent i0) (set_currentInstance (Some i0) s1)
                       ∈ effects tr ∧ ownerAllows s1 i = true).
  { destruct (traverse_split topLevelType targetFiber nativeEvent nativeEventTarget
                flags s0) as (es1 & Hes1 & Hsplit).
    fold tr in Hsplit. rewrite Forall_forall in Hes1.
    destruct Hsplit as [->|[s1 ->]].
    - intros Hin. by destruct (Hes1 _ Hin i).
    - intros [Hin|Hin]%elem_of_app; [by destruct (Hes1 _ Hin i)|].
      destruct (rootPhase_members _ _ _ _ _ Hin) as (j & [= <-] & Hj).
      apply (root_instances_allowed responder responderFields) in Hj.
      destruct (rootPhase_head
                  (createResponderEvent IS_PASSIVE PASSIVE_NOT_SUPPORTED topLevelType
                     nativeEvent nativeEventTarget flags)
                  (getRootEventResponderInstances topLevelType s1) s1)
        as [Hnil|(i0 & rest & Hhead)].
      + rewrite Hnil in Hin. by apply elem_of_nil in Hin.
      + exists s1, i0. split; [|done]. rewrite Hhead.
        apply elem_of_app. right. by left. }
  destruct (completion tr) as [[] s1|e s1]; cbn [effects].
  - intros [Hin|Hin]%elem_of_app.
    + destruct (Htr Hin) as (s2 & i0 & H0 & Hallow).
      exists s2, i0. split; [|done]. apply elem_of_app. by left.
    + specialize (Hflush s1). rewrite Forall_forall in Hflush.
      by destruct (Hflush _ Hin i).
  - exact Htr.
Qed.
End RootPhaseOwner.

(** C1, as stated, fails: instance 6 holds the slot when the dispatch
    starts and releases it in its [onEvent]; the root-phase list is
    computed after that, with an empty slot, and instance 3, which is
    registered for root clicks, gets [onRootEvent]. *)
Lemma root_phase_after_a_release_calls_another_instance :
  let run :=
    dispatchEventForResponderEventSystem Example.responder Example.responderFields
      Example.call 1 2 true "click" (Some Example.leaf6) 0%nat 300%nat 0
      Example.owned_by_6 in
  currentOwner Example.owned_by_6 = Some 6%nat ∧
  callees (effects run) = [OnEvent 6%nat; OnRootEvent 3%nat] ∧
  ∃ entry, Invoke (OnRootEvent 3%nat) entry ∈ effects run ∧ currentOwner entry = None.
Proof.
  split; [reflexivity|]. split; [vm_compute; reflexivity|].
  eexists. split.
  - apply list_elem_of_In. vm_compute. right. left. reflexivity.
  - reflexivity.
Qed.

(** C1, amended.  A dispatch starts while the ownership slot holds an
    instance [X].  The target-phase list is computed when the dispatch
    starts, so no [onEventCapture] and no [onEvent] is invoked on another
    instance, whatever the callbacks do.  The root-phase list is computed
    after the target phases: no [onRootEvent] is invoked on another
    instance provided the slot holds [X] whenever an [onRootEvent] callback
    of the dispatch is entered. *)
Theorem dispatch_invokes_only_the_owner {F} (responder : Instance → Responder)
    (responderFields : Responder → ReactEventResponder F)
    (call : F → Args → State F → Completion F unit)
    (IS_PASSIVE PASSIVE_NOT_SUPPORTED : Z) (enableEventAPI : bool)
    (topLevelType : string) (targetFiber : option Fiber) (nativeEvent : nat)
    (nativeEventTarget : Node) (flags : Z) (s : State F) (X : Instance) :
  currentOwner s = Some X →
  let run :=
    dispatchEventForResponderEventSystem responder responderFields call IS_PASSIVE
      PASSIVE_NOT_SUPPORTED enableEventAPI topLevelType targetFiber nativeEvent
      nativeEventTarget flags s in
  (∀ c entry i, Invoke c entry ∈ effects run →
     c = OnEventCapture i ∨ c = OnEvent i → i = X) ∧
  ((∀ i entry, Invoke (OnRootEvent i) entry ∈ effects run →
      currentOwner entry = Some X) →
   ∀ c entry i, Invoke c entry ∈ effects run → phase_instance c = Some i → i = X).
Proof.
  intros Howner run.
  assert (Htarget : ∀ c entry i, Invoke c entry ∈ effects run →
            c = OnEventCapture i ∨ c = OnEvent i → i = X).
  { pose (Pc := fun c : Callee => ∀ i, c = OnEventCapture i ∨ c = OnEvent i → i = X).
    assert (H : Forall (onCallees Pc) (effects run)).
    { refine (proj1 (dispatch_ensures responder responderFields call IS_PASSIVE
        PASSIVE_NOT_SUPPORTED enableEventAPI (fun _ => True) Pc _ _ _ _
        (fun s => currentOwner s = Some X) topLevelType targetFiber nativeEvent
        nativeEventTarget flags _ _ _ s _)); try done.
      - intros e i [?|?]; discriminate.
      - intros s' Hs' l. split; intros i Hi%notSkipped_sub _.
        + apply elem_of_reverse, target_instances_allowed in Hi.
          rewrite (ownerAllows_owner s' X i Hs' Hi). intros j [?|?]; congruence.
        + apply target_instances_allowed in Hi.
          rewrite (ownerAllows_owner s' X i Hs' Hi). intros j [?|?]; congruence.
      - intros s' i _ _ j [?|?]; discriminate. }
    intros c entry i Hin Hc. rewrite Forall_forall in H. by apply (H _ Hin i). }
  split; [exact Htarget|].
  intros Hentry c entry i Hin Hc.
  destruct c as [j|j|j| | | |]; try discriminate Hc; injection Hc as ->.
  - apply (Htarget _ _ _ Hin). by left.
  - apply (Htarget _ _ _ Hin). by right.
  - destruct (dispatch_root_calls responder responderFields call IS_PASSIVE
                PASSIVE_NOT_SUPPORTED enableEventAPI topLevelType targetFiber
                nativeEvent nativeEventTarget flags s i entry Hin)
      as (s1 & i0 & Hfirst & Hallow).
    apply (ownerAllows_owner s1 X i); [|exact Hallow].
    exact (Hentry i0 _ Hfirst).
Qed.

Lemma dispatch_invokes_only_the_owner_witness :
  let run :=
    dispatchEventForResponderEventSystem Example.responder Example.responderFields
      Example.call 1 2 true "click" (Some Example.leaf) 0%nat 100%nat 0
      Example.owned in
  callees (effects run) = [OnEventCapture 1%nat; OnEvent 1%nat; OnRootEvent 1%nat] ∧
  (∀ c entry i, Invoke c entry ∈ effects run →
     c = OnEventCapture i ∨ c = OnEvent i → i = 1%nat) ∧
  (∀ c entry i, Invoke c entry ∈ effects run → phase_instance c = Some i → i = 1%nat).
Proof.
  intros run. split; [vm_compute; reflexivity|].
  destruct (dispatch_invokes_only_the_owner Example.responder Example.responderFields
              Example.call 1 2 true "click" (Some Example.leaf) 0%nat 100%nat 0
              Example.owned 1%nat eq_refl) as [Htarget Hroot].
  split; [exact Htarget|]. apply Hroot.
  intros i entry Hin. apply list_elem_of_In in Hin. vm_compute in Hin.
  destruct Hin as [Heq|[Heq|[Heq|[]]]]; inversion Heq; reflexivity.
Defined.

(** In the example instance 1 owns the slot: of the three instances that
    react to a click, only instance 1 is called. *)
Example dispatch_owned_callees :
  callees (effects
    (dispatchEventForResponderEventSystem Example.responder Example.responderFields
       Example.quiet 1 2 true "click" (Some Example.leaf) 0%nat 100%nat 0
       Example.owned))
  = [OnEventCapture 1%nat; OnEvent 1%nat; OnRootEvent 1%nat].
Proof. vm_compute. reflexivity. Qed.

(** Instance 6 holds the slot when the dispatch starts and releases it in
    its [onEvent]: the slot is empty when the root phase starts, and the
    root phase calls instance 3. *)
Example dispatch_released_callees :
  callees (effects
    (dispatchEventForResponderEventSystem Example.responder Example.responderFields
       Example.call 1 2 true "click" (Some Example.leaf6) 0%nat 300%nat 0
       Example.owned_by_6))
  = [OnEvent 6%nat; OnRootEvent 3%nat].
Proof. vm_compute. reflexivity. Qed.

Example dispatch_unowned_callees :
  callees (effects
    (dispatchEventForResponderEventSystem Example.responder Example.responderFields
       Example.quiet 1 2 true "click" (Some Example.leaf) 0%nat 100%nat 0
       (set_currentOwner None Example.owned)))
  = [OnEventCapture 2%nat; OnEvent 1%nat; OnEvent 3%nat;
     OnRootEvent 1%nat; OnRootEvent 2%nat; OnRootEvent 3%nat].
Proof. vm_compute. reflexivity. Qed.

(** ** The two target phases, when no handler throws *)

Section TargetPhases.
Context {F : Type}.
Variable responder : Instance → Responder.
Variable responderFields : Responder → ReactEventResponder F.
Variable call : F → Args → State F → Completion F unit.
Variables IS_PASSIVE PASSIVE_NOT_SUPPORTED : Z.
Hypothesis call_returns : neverThrows call.
Implicit Types (s : State F) (l : list Instance) (p : list Responder).

Lemma hasHandler_eq handler i :
  hasHandler responder responderFields handler i
  = bool_decide (is_Some (handler (responderFields (responder i)))).
Proof. reflexivity. Qed.

Local Abbreviation notSkipped := (notSkipped responder responderFields).
Local Abbreviation propagatedAfter := (propagatedAfter responder responderFields).
Local Abbreviation hasHandler := (hasHandler responder responderFields).

Lemma callees_app (es1 es2 : list (Effect F)) :
  callees (es1 ++ es2) = callees es1 ++ callees es2.
Proof. apply omap_app. Qed.

Lemma invoke_returns c f args s :
  ∃ s', invoke call c f args s = mkResult [Invoke c s] (Normal tt s').
Proof.
  unfold invoke. specialize (call_returns f args s).
  destruct (call f args s) as [[] s'|]; [by exists s' | done].
Qed.

Lemma targetPhase_returns handler callee ev l p s :
  ∃ s', completion (targetPhase responder responderFields call handler callee ev l p s)
        = Normal (propagatedAfter l p) s' ∧
    callees (effects (targetPhase responder responderFields call handler callee ev l p s))
    = map callee (List.filter (hasHandler handler) (notSkipped l p)).
Proof.
  revert p s. induction l as [|i l IH]; intros p s.
  - by exists s.
  - simpl. unfold stops.
    destruct (_ && _); [apply IH|].
    rewrite run_bind.
    match goal with |- context [completion (?m s)] =>
      assert (Hstep : ∃ s1, m s = mkResult
        (if hasHandler handler i
         then [Invoke (callee i) (set_currentInstance (Some i) s)] else [])
        (Normal tt s1))
    end.
    { rewrite hasHandler_eq.
      destruct (handler (responderFields (responder i))) as [f|].
      - rewrite run_bind. cbn [modify effects completion app].
        destruct (invoke_returns (callee i) f (ResponderEventArg ev)
                    (set_currentInstance (Some i) s)) as [s1 ->].
        exists s1. by rewrite bool_decide_true by eauto.
      - exists s. by rewrite bool_decide_false by (by intros [? ?]). }
    destruct Hstep as [s1 ->]. cbn [effects completion].
    match goal with |- context [targetPhase _ _ _ _ _ _ l ?p' s1] =>
      destruct (IH p' s1) as (s' & Hc & He)
    end.
    exists s'. split; [exact Hc|]. rewrite callees_app, He. cbn [List.filter].
    by destruct (hasHandler handler i).
Qed.

Lemma rootPhase_returns ev l s :
  ∃ s', completion (rootPhase responder responderFields call ev l s) = Normal tt s' ∧
    callees (effects (rootPhase responder responderFields call ev l s))
    = map OnRootEvent (List.filter (hasHandler onRootEvent) l).
Proof.
  unfold rootPhase. revert s. induction l as [|i l IH]; intros s.
  - by exists s.
  - simpl for_each. change (bind ?m ?k) with (m ≫= k). rewrite run_bind.
    match goal with |- context [completion (?m s)] =>
      assert (Hstep : ∃ s1, m s = mkResult
        (if hasHandler onRootEvent i
         then [Invoke (OnRootEvent i) (set_currentInstance (Some i) s)] else [])
        (Normal tt s1))
    end.
    { rewrite hasHandler_eq.
      destruct (onRootEvent (responderFields (responder i))) as [f|].
      - rewrite run_bind. cbn [modify effects completion app].
        destruct (invoke_returns (OnRootEvent i) f (ResponderEventArg ev)
                    (set_currentInstance (Some i) s)) as [s1 ->].
        exists s1. by rewrite bool_decide_true by eauto.
      - exists s. by rewrite bool_decide_false by (by intros [? ?]). }
    destruct Hstep as [s1 ->]. cbn [effects completion].
    destruct (IH s1) as (s' & Hc & He).
    exists s'. split; [exact Hc|]. rewrite callees_app, He. cbn [List.filter].
    by destruct (hasHandler onRootEvent i).
Qed.

Lemma capture_of_captures l : 
  omap (fun c => match c with OnEventCapture i => Some i | _ => None end)
    (map OnEventCapture l) = l.
Proof. induction l; simpl; [done | by f_equal]. Qed.

Lemma bubble_of_bubbles l : 
  omap (fun c => match c with OnEvent i => Some i | _ => None end)
    (map OnEvent l) = l.
Proof. induction l; simpl; [done | by f_equal]. Qed.

Lemma omap_none {A B C} (f : B → option C) (g : A → B) (l : list A) :
  (∀ x, f (g x) = None) → omap f (map g l) = [].
Proof. intros H. induction l; simpl; [done | by rewrite H]. Qed.

(** The callbacks of a traversal: the capture phase over the reversed
    target-phase list, the bubble phase over the list, the root phase. *)
Lemma traverse_callees topLevelType targetFiber nativeEvent nativeEventTarget flags s :
  let l := getTargetEventResponderInstances responder responderFields
             topLevelType targetFiber s in
  ∃ roots,
    callees (effects
      (traverseAndHandleEventResponderInstances responder responderFields call
         IS_PASSIVE PASSIVE_NOT_SUPPORTED topLevelType targetFiber nativeEvent
         nativeEventTarget flags s))
    = map OnEventCapture (List.filter (hasHandler onEventCapture) (notSkipped (reverse l) []))
      ++ map OnEvent (List.filter (hasHandler onEvent) (notSkipped l []))
      ++ map OnRootEvent roots.
Proof.
  intros l. unfold traverseAndHandleEventResponderInstances.
  rewrite run_bind. cbn [get effects completion app]. fold l.
  rewrite run_bind.
  match goal with |- context [completion (?m s)] =>
    assert (Hphases : ∃ s1, completion (m s) = Normal tt s1 ∧
      callees (effects (m s)) =
        map OnEventCapture (List.filter (hasHandler onEventCapture) (notSkipped (reverse l) []))
        ++ map OnEvent (List.filter (hasHandler onEvent) (notSkipped l [])))
  end.
  { case_bool_decide as Hlen.
    - rewrite run_bind.
      edestruct (targetPhase_returns onEventCapture OnEventCapture) as (s1 & Hc1 & He1).
      rewrite Hc1. cbn [effects completion]. rewrite run_bind.
      edestruct (targetPhase_returns onEvent OnEvent) as (s2 & Hc2 & He2).
      rewrite Hc2. cbn [effects completion]. exists s2. split; [done|].
      rewrite !callees_app, He1, He2. simpl. by rewrite app_nil_r.
    - destruct l; [|simpl in Hlen; lia]. by exists s. }
  destruct Hphases as (s1 & Hc & He). rewrite Hc. cbn [effects completion].
  rewrite run_bind. cbn [get effects completion app].
  edestruct rootPhase_returns as (s2 & Hc2 & He2).
  eexists. rewrite callees_app, He, He2. by rewrite <- app_assoc.
Qed.

End TargetPhases.




(** In the example the capture phase calls instance 2 of [press] and skips
    instance 1, the bubble phase calls instance 1 and skips instance 2. *)
Example traverse_press_callees :
  callees (effects
    (traverseAndHandleEventResponderInstances Example.responder Example.responderFields
       Example.quiet 1 2 "keydown" (Some Example.leaf) 0%nat 100%nat 0
       (@initialState Example.Fn)))
  = [OnEventCapture 2%nat; OnEvent 1%nat].
Proof. vm_compute. reflexivity. Qed.

(** C3, as stated, fails: with two instances of a responder that stops
    local propagation the capture phase calls the farther one only and the
    bubble phase the nearer one only. *)
Lemma capture_is_not_the_reverse_of_bubble :
  let es := effects
    (traverseAndHandleEventResponderInstances Example.responder Example.responderFields
       Example.quiet 1 2 "keydown" (Some Example.leaf) 0%nat 100%nat 0
       (@initialState Example.Fn)) in
  capture_invocations es = [2%nat] ∧ bubble_invocations es = [1%nat] ∧
  capture_invocations es ≠ reverse (bubble_invocations es).
Proof. vm_compute. repeat split. discriminate. Qed.

(** ** The two target phases of a traversal that returns *)

Section ReturningTraversal.
Context {F : Type}.
Variable responder : Instance → Responder.
Variable responderFields : Responder → ReactEventResponder F.
Variable call : F → Args → State F → Completion F unit.
Variables IS_PASSIVE PASSIVE_NOT_SUPPORTED : Z.
Implicit Types (s : State F) (l : list Instance) (p : list Responder).

(** A target phase that returns has called every instance it did not skip
    and that has the handler, in the order of its list. *)
Lemma targetPhase_normal handler callee ev l p s :
  isThrow (completion (targetPhase responder responderFields call handler callee ev l p s))
    = false →
  callees (effects (targetPhase responder responderFields call handler callee ev l p s))
  = map callee (List.filter (hasHandler responder responderFields handler)
                  (notSkipped responder responderFields l p)).
Proof.
  revert p s. induction l as [|i l IH]; intros p s; [done|].
  cbn [targetPhase notSkipped]. unfold stops.
  destruct (_ && _); [apply IH|].
  cbn [List.filter map].
  rewrite run_bind. rewrite (hasHandler_eq responder responderFields handler i).
  destruct (handler (responderFields (responder i))) as [f|].
  - rewrite bool_decide_true by eauto.
    rewrite run_bind. cbn [modify effects completion app]. unfold invoke at 1 2 3 4 5.
    cbn [effects completion].
    destruct (call f _ (set_currentInstance (Some i) s)) as [[] s1|e s1];
      cbn [effects completion isThrow]; [|done].
    intros Hret. rewrite callees_app, (IH _ s1 Hret). reflexivity.
  - rewrite bool_decide_false by (by intros [? ?]).
    cbn [mret M_ret ret effects completion app]. apply IH.
Qed.

Lemma root_calls_only ev l s :
  capture_invocations (effects (rootPhase responder responderFields call ev l s)) = [] ∧
  bubble_invocations (effects (rootPhase responder responderFields call ev l s)) = [].
Proof.
  assert (H : Forall (onCallees (fun c => ∃ i, c = OnRootEvent i))
                (effects (rootPhase responder responderFields call ev l s))).
  { refine (proj1 (rootPhase_ensures responder responderFields call (fun _ => True)
                     (fun c => ∃ i, c = OnRootEvent i) _ _ ev l _ s I));
      [done | done | by eauto]. }
  unfold capture_invocations, bubble_invocations.
  induction H as [|e es He _ [IH1 IH2]]; [done|].
  change (e :: es) with ([e] ++ es). rewrite callees_app, !omap_app, IH1, IH2, !app_nil_r.
  destruct e as [c entry| | | | | |]; try done.
  destruct He as [i ->]. done.
Qed.

(** The capture and the bubble calls of a traversal that returns. *)
Lemma returning_traversal_invocations topLevelType targetFiber nativeEvent
    nativeEventTarget flags s :
  let l := getTargetEventResponderInstances responder responderFields
             topLevelType targetFiber s in
  let r := traverseAndHandleEventResponderInstances responder responderFields call
             IS_PASSIVE PASSIVE_NOT_SUPPORTED topLevelType targetFiber nativeEvent
             nativeEventTarget flags s in
  isThrow (completion r) = false →
  capture_invocations (effects r)
    = List.filter (hasHandler responder responderFields onEventCapture)
        (notSkipped responder responderFields (reverse l) []) ∧
  bubble_invocations (effects r)
    = List.filter (hasHandler responder responderFields onEvent)
        (notSkipped responder responderFields l []).
Proof.
  intros l r. unfold r, traverseAndHandleEventResponderInstances.
  rewrite run_bind. cbn [get effects completion app]. fold l.
  set (ev := createResponderEvent IS_PASSIVE PASSIVE_NOT_SUPPORTED topLevelType
               nativeEvent nativeEventTarget flags).
  rewrite run_bind.
  match goal with |- context [completion (?m s)] => set (r1 := m s) end.
  assert (H1 : isThrow (completion r1) = false →
    callees (effects r1)
    = map OnEventCapture (List.filter (hasHandler responder responderFields onEventCapture)
                            (notSkipped responder responderFields (reverse l) []))
      ++ map OnEvent (List.filter (hasHandler responder responderFields onEvent)
                        (notSkipped responder responderFields l []))).
  { unfold r1. case_bool_decide as Hlen.
    - rewrite run_bind.
      pose proof (targetPhase_normal onEventCapture OnEventCapture ev (reverse l) [] s)
        as Hcap.
      destruct (completion (targetPhase _ _ _ onEventCapture _ _ _ _ s)) as [p1 s1|];
        cbn [effects completion isThrow]; [|done].
      rewrite run_bind.
      pose proof (targetPhase_normal onEvent OnEvent ev l [] s1) as Hbub.
      destruct (completion (targetPhase _ _ _ onEvent _ _ _ _ s1)) as [p2 s2|];
        cbn [effects completion isThrow mret M_ret ret]; [|done].
      intros _. rewrite app_nil_r, callees_app, Hcap, Hbub by done. reflexivity.
    - destruct l; [done | simpl in Hlen; lia]. }
  destruct (completion r1) as [[] s1|e s1]; cbn [effects completion isThrow]; [|done].
  rewrite run_bind. cbn [get effects completion app]. intros _.
  destruct (root_calls_only ev (getRootEventResponderInstances topLevelType s1) s1)
    as [Hr1 Hr2].
  unfold capture_invocations, bubble_invocations in *.
  rewrite !callees_app, !omap_app, Hr1, Hr2, !app_nil_r, H1 by done.
  rewrite !omap_app, capture_of_captures, bubble_of_bubbles.
  rewrite !omap_none by done. by rewrite !app_nil_r.
Qed.
End ReturningTraversal.

(** C3, amended.  A traversal returns, that is no handler it called threw;
    no responder that stops local propagation has two instances in the
    target-phase list [l], and every responder in [l] has [onEventCapture]
    exactly when it has [onEvent].  Then the bubble phase calls the
    instances of [l] that have the handlers in the order of [l], nearest to
    the target first, and the capture phase calls the same instances in the
    opposite order, farthest first: the capture calls are the reverse of
    the bubble calls. *)
Theorem capture_reverses_bubble {F} (responder : Instance → Responder)
    (responderFields : Responder → ReactEventResponder F)
    (call : F → Args → State F → Completion F unit)
    (IS_PASSIVE PASSIVE_NOT_SUPPORTED : Z)
    (topLevelType : string) (targetFiber : option Fiber) (nativeEvent : nat)
    (nativeEventTarget : Node) (flags : Z) (s : State F) :
  let l := getTargetEventResponderInstances responder responderFields
             topLevelType targetFiber s in
  let r := traverseAndHandleEventResponderInstances responder responderFields call
             IS_PASSIVE PASSIVE_NOT_SUPPORTED topLevelType targetFiber nativeEvent
             nativeEventTarget flags s in
  isThrow (completion r) = false →
  NoDup (map responder (List.filter (stops responder responderFields) l)) →
  (∀ i, i ∈ l → is_Some (onEventCapture (responderFields (responder i)))
                ↔ is_Some (onEvent (responderFields (responder i)))) →
  bubble_invocations (effects r)
    = List.filter (hasHandler responder responderFields onEvent) l ∧
  capture_invocations (effects r)
    = reverse (List.filter (hasHandler responder responderFields onEvent) l) ∧
  capture_invocations (effects r) = reverse (bubble_invocations (effects r)).
Proof.
  intros l r Hret Hnd Hboth.
  destruct (returning_traversal_invocations responder responderFields call IS_PASSIVE
              PASSIVE_NOT_SUPPORTED topLevelType targetFiber nativeEvent
              nativeEventTarget flags s Hret) as [Hcap Hbub].
  fold l r in Hcap, Hbub.
  rewrite (notSkipped_all responder responderFields l []) in Hbub
    by (done || by intros ? _ _ ?%elem_of_nil).
  rewrite (notSkipped_all responder responderFields (reverse l) []) in Hcap
    by (by apply NoDup_map_reverse || by intros ? _ _ ?%elem_of_nil).
  assert (Hsame : List.filter (hasHandler responder responderFields onEventCapture) l
                  = List.filter (hasHandler responder responderFields onEvent) l).
  { apply filter_ext_in. intros i Hi%list_elem_of_In.
    unfold hasHandler. apply bool_decide_ext, Hboth, Hi. }
  rewrite filter_reverse_bool, Hsame in Hcap.
  split; [exact Hbub|]. split; [exact Hcap|]. by rewrite Hcap, Hbub.
Qed.

Lemma capture_reverses_bubble_witness :
  let es := effects
    (traverseAndHandleEventResponderInstances Example.responder Example.responderFields
       Example.quiet 1 2 "click" (Some Example.leaf') 0%nat 200%nat 0
       (@initialState Example.Fn)) in
  bubble_invocations es = [4%nat; 5%nat] ∧
  capture_invocations es = [5%nat; 4%nat] ∧
  capture_invocations es = reverse (bubble_invocations es).
Proof.
  intros es.
  destruct (capture_reverses_bubble Example.responder Example.responderFields
              Example.quiet 1 2 "click" (Some Example.leaf') 0%nat 200%nat 0 initialState)
    as (Hbub & Hcap & Hrev).
  - reflexivity.
  - vm_compute. constructor.
  - intros i Hi. vm_compute in Hi. apply list_elem_of_In in Hi.
    destruct Hi as [<-|[<-|[]]]; vm_compute; split; intros _; eexists; reflexivity.
  - split; [exact Hbub|]. split; [exact Hcap | exact Hrev].
Defined.

Example traverse_plain_callees :
  callees (effects
    (traverseAndHandleEventResponderInstances Example.responder Example.responderFields
       Example.quiet 1 2 "click" (Some Example.leaf') 0%nat 200%nat 0
       (@initialState Example.Fn)))
  = [OnEventCapture 5%nat; OnEventCapture 4%nat; OnEvent 4%nat; OnEvent 5%nat].
Proof. vm_compute. reflexivity. Qed.

(** ** The context outside a cycle *)

Section OutsideCycle.
Context {F : Type}.
Variable responder : Instance → Responder.
Variable responderFields : Responder → ReactEventResponder F.
Variable call : F → Args → State F → Completion F unit.
Variable getClosestInstanceFromNode : Node → option Fiber.
Variable Coord : Type.
Variable coord_gt : Coord → Coord → bool.
Variable elementFromPoint : Node → option (Coord → Coord → option Node).
Variable parentNode : Node → Node.
Variable getBoundingClientRect : Node → Coord * Coord * Coord * Coord.
Implicit Types (s : State F).

Lemma validate_outside s :
  outsideCycle s →
  validateResponderContext s = mkResult [] (Throw (Invariant outsideCycleMessage) s).
Proof.
  intros H. unfold validateResponderContext, mbind, M_bind, bind, get, invariant.
  cbn [effects completion app].
  destruct H as [-> | ->]; [done|]. by destruct (currentEventQueue s).
Qed.

Lemma validate_inside s :
  inCycle s → validateResponderContext s = mkResult [] (Normal tt s).
Proof.
  intros [[q Hq] [i Hi]].
  unfold validateResponderContext, mbind, M_bind, bind, get, invariant.
  cbn [effects completion app]. rewrite Hq, Hi. reflexivity.
Qed.

Lemma validated_faults {A} (rest : M F A) s :
  outsideCycle s →
  (validateResponderContext;; rest) s
  = mkResult [] (Throw (Invariant outsideCycleMessage) s).
Proof. intros H. change (?m;; ?k) with (m ≫= fun _ => k). by rewrite run_bind, validate_outside. Qed.

(** X1.  Outside a cycle every operation of the context that starts with
    [validateResponderContext] throws the invariant violation and leaves
    the state as it was. *)
Lemma validated_operations_fault s :
  outsideCycle s →
  let fault {A} (m : M F A) :=
    m s = mkResult [] (Throw (Invariant outsideCycleMessage) s) in
  (∀ e listener d, fault (dispatchEvent e listener d)) ∧
  (∀ doc x y, fault (isPositionWithinTouchHitTarget getClosestInstanceFromNode
                       Coord coord_gt elementFromPoint parentNode
                       getBoundingClientRect doc x y)) ∧
  (∀ target, fault (isTargetWithinEventComponent getClosestInstanceFromNode target)) ∧
  (∀ doc types, fault (addRootEventTypes doc types)) ∧
  (∀ types, fault (removeRootEventTypes types)) ∧
  fault hasOwnership ∧
  fault (requestOwnership responder responderFields call) ∧
  fault (releaseOwnership responder responderFields call) ∧
  (∀ func delay, fault (setTimeout func delay)) ∧
  (∀ timerId, fault (clearTimeout timerId)) ∧
  (∀ target queryType queryKey,
     fault (getEventTargetsFromTarget getClosestInstanceFromNode target queryType queryKey)).
Proof.
  intros H fault. unfold fault. repeat split; intros; by apply validated_faults.
Qed.

(** [isTargetWithinElement] has no such check: it returns in any state. *)
Lemma isTargetWithinElement_returns childTarget parentTarget s :
  ∃ b, isTargetWithinElement getClosestInstanceFromNode childTarget parentTarget s
       = mkResult [] (Normal b s).
Proof. eexists. reflexivity. Qed.
End OutsideCycle.

(** C4.  The module has just been loaded, so no cycle is current: the
    context's [hasOwnership] throws the invariant violation, but
    [isTargetWithinElement], asked whether host node 100 is within the
    element of instance 3, returns [true]. *)
Theorem isTargetWithinElement_outside_a_cycle :
  currentEventQueue (@initialState Example.Fn) = None ∧
  currentInstance (@initialState Example.Fn) = None ∧
  hasOwnership (@initialState Example.Fn)
    = mkResult [] (Throw (Invariant outsideCycleMessage) initialState) ∧
  isTargetWithinElement Example.getClosestInstanceFromNode 100%nat 3%nat
    (@initialState Example.Fn)
    = mkResult [] (Normal true initialState).
Proof. repeat split. Qed.

(** ** Timers *)

Section TimersFire.
Context {F : Type}.
Variable call : F → Args → State F → Completion F unit.
Implicit Types (s : State F) (timer : ResponderTimer F).

(** A timer callback finds the registry as it was before it was called,
    and its entry is gone once it has returned or thrown. *)
Lemma fireTimer_entry timer s :
  let r := fireTimer call timer s in
  effects r = [Invoke (TimerFunc (timer_id timer))
                 (set_currentInstance (timer_instance timer) s)] ∧
  activeTimeouts (finalState (completion r)) !! timer_id timer = None ∧
  ∀ id, id ≠ timer_id timer →
    activeTimeouts (finalState (completion r)) !! id
    = activeTimeouts (finalState (call (timer_func timer) NoArgs
                                    (set_currentInstance (timer_instance timer) s))) !! id.
Proof.
  unfold fireTimer, try_finally, invoke, mbind, M_bind, bind, modify.
  cbn [effects completion app]. split; [done|].
  destruct (call _ _ _) as [[] s'|e s']; cbn [finalState activeTimeouts set_activeTimeouts];
    (split; [apply lookup_delete_eq | intros id Hid; by apply lookup_delete_ne]).
Qed.

Lemma fire_all_entries_present (timers : list (ResponderTimer F)) s :
  keepsTokens call →
  NoDup (map timer_id timers) →
  (∀ timer, timer ∈ timers → is_Some (activeTimeouts s !! timer_id timer)) →
  Forall entryPresent (effects (for_each timers (fireTimer call) s)).
Proof.
  intros Hkeep. revert s. induction timers as [|timer timers IH]; intros s Hnd Hreg.
  - constructor.
  - simpl in Hnd. apply NoDup_cons in Hnd as [Hfresh Hnd].
    simpl for_each. change (bind ?m ?k) with (m ≫= k). rewrite run_bind.
    destruct (fireTimer_entry timer s) as (He & _ & Hother).
    destruct (completion (fireTimer call timer s)) as [[] s1|e s1] eqn:Hc;
      cbn [effects]; rewrite He.
    + constructor; [apply Hreg; by left|].
      apply IH; [done|]. intros t Ht.
      assert (Hne : timer_id t ≠ timer_id timer).
      { intros Heq. apply Hfresh. rewrite <- Heq.
        apply list_elem_of_In, in_map, list_elem_of_In, Ht. }
      change s1 with (finalState (Normal (F:=F) tt s1)). rewrite (Hother _ Hne).
      apply Hkeep. apply Hreg. by right.
    + constructor; [apply Hreg; by left | constructor].
Qed.
End TimersFire.

(** C5, as stated, fails: the timer of the example cancels its own token
    when it fires; it is entered with the token still in [activeTimeouts],
    so the cancellation finds the timeout, empties its [timers] and clears
    the host timer. *)
Lemma fired_timer_is_still_registered :
  ∃ entry,
    effects (processTimers Example.call 0%nat Example.scheduled)
      = [Invoke (TimerFunc 0%nat) entry] ∧
    activeTimeouts entry !! 0%nat = Some 0%nat ∧
    effects (clearTimeout 0%nat entry) = [HostClearTimeout 0%nat] ∧
    activeTimeouts
      (finalState (completion (processTimers Example.call 0%nat Example.scheduled)))
      !! 0%nat = None.
Proof. eexists. repeat split; vm_compute; reflexivity. Qed.

(** C5, amended.  A fired timer's entry is removed from [activeTimeouts]
    once its callback has returned or thrown, not before: each callback of a
    firing group is entered with its own token still registered. *)
Theorem timer_entry_is_removed_after_its_callback {F}
    (call : F → Args → State F → Completion F unit) (timers : TimeoutID) (s : State F) :
  (∀ timer s0,
     activeTimeouts (finalState (completion (fireTimer call timer s0))) !! timer_id timer
     = None) ∧
  (keepsTokens call →
   NoDup (map timer_id (omap_values (timers_of timers s))) →
   (∀ timer, timer ∈ omap_values (timers_of timers s) →
             is_Some (activeTimeouts s !! timer_id timer)) →
   ∀ id entry, Invoke (TimerFunc id) entry ∈ effects (processTimers call timers s) →
               is_Some (activeTimeouts entry !! id)).
Proof.
  split.
  - intros timer s0. by destruct (fireTimer_entry call timer s0) as (_ & H & _).
  - intros Hkeep Hnd Hreg id entry Hin.
    assert (H : Forall entryPresent (effects (processTimers call timers s))).
    { unfold processTimers. rewrite run_bind. cbn [get effects completion app].
      rewrite run_bind. cbn [modify effects completion app].
      unfold try_finally. cbn [effects]. rewrite run_bind.
      assert (Hfire := fire_all_entries_present call (omap_values (timers_of timers s))
                         (set_currentEventQueue (Some createEventQueue) s) Hkeep Hnd Hreg).
      destruct (completion (for_each _ _ _)) as [[] s1|e s1]; cbn [effects]; [|done].
      apply Forall_app. split; [done|].
      eapply Forall_impl;
        [apply (processEventQueue_ensures call
                  (fun c => match c with TimerFunc _ => False | _ => True end));
         done|].
      by intros [[]| | | | | |]. }
    rewrite Forall_forall in H. apply (H _ Hin).
Qed.

Lemma timer_entry_is_removed_after_its_callback_witness :
  (∀ timer s0,
     activeTimeouts (finalState (completion (fireTimer Example.quiet timer s0)))
       !! timer_id timer = None) ∧
  (∀ id entry,
     Invoke (TimerFunc id) entry ∈ effects (processTimers Example.quiet 0%nat Example.scheduled) →
     is_Some (activeTimeouts entry !! id)).
Proof.
  destruct (timer_entry_is_removed_after_its_callback Example.quiet 0%nat
              Example.scheduled) as [Hafter Hentry].
  split; [exact Hafter|]. apply Hentry.
  - intros f args s id H. exact H.
  - vm_compute. repeat constructor. intros H. inversion H.
  - intros timer Ht. vm_compute in Ht. apply list_elem_of_In in Ht.
    destruct Ht as [<-|[]]. vm_compute. eexists. reflexivity.
Defined.

(** ** Timers sharing a delay *)

Ltac state_simpl :=
  cbn [activeTimeouts rootEventTypesToEventComponentInstances ownershipChangeListeners
       eventListeners currentTimers currentOwner currentInstance currentEventQueue
       timeoutTimers instanceRootEventTypes nextSymbol nextTimeoutID
       set_activeTimeouts set_rootEventTypesToEventComponentInstances
       set_ownershipChangeListeners set_eventListeners set_currentTimers
       set_currentOwner set_currentInstance set_currentEventQueue set_timeoutTimers
       set_instanceRootEventTypes set_nextSymbol set_nextTimeoutID
       effects completion finalState app default from_option id mret M_ret ret
       timers_of] in *.

Section TimersShare.
Context {F : Type}.
Implicit Types (s : State F) (f g : F) (d : Z).

Lemma setTimeout_new f d s :
  inCycle s →
  default ∅ (currentTimers s) !! d = None →
  ∃ s', setTimeout f d s
        = mkResult [HostSetTimeout (nextTimeoutID s) d] (Normal (nextSymbol s) s') ∧
    inCycle s' ∧
    currentInstance s' = currentInstance s ∧
    default ∅ (currentTimers s') !! d = Some (nextTimeoutID s) ∧
    timers_of (nextTimeoutID s) s'
      = [(nextSymbol s, mkTimer (currentInstance s) f (nextSymbol s))] ∧
    activeTimeouts s' !! nextSymbol s = Some (nextTimeoutID s) ∧
    nextSymbol s' = S (nextSymbol s).
Proof.
  intros Hin Hnone.
  unfold setTimeout, freshSymbol, host_setTimeout, mbind, M_bind, bind, modify, get, emit.
  rewrite (validate_inside s Hin). destruct Hin as [Hq Hi].
  destruct (currentTimers s) as [m|] eqn:Hct; state_simpl; rewrite ?Hct; state_simpl;
    rewrite Hnone; state_simpl; rewrite ?Hct; state_simpl;
    (eexists; split; [reflexivity|]); unfold timers_of; state_simpl;
    rewrite !lookup_insert_eq; state_simpl; rewrite ?lookup_insert_eq;
    repeat split; done.
Qed.

Lemma setTimeout_join f d (t : TimeoutID) s :
  inCycle s →
  default ∅ (currentTimers s) !! d = Some t →
  ∃ s', setTimeout f d s = mkResult [] (Normal (nextSymbol s) s') ∧
    inCycle s' ∧
    currentInstance s' = currentInstance s ∧
    currentTimers s' = currentTimers s ∧
    timers_of t s'
      = omap_set (nextSymbol s) (mkTimer (currentInstance s) f (nextSymbol s))
          (timers_of t s) ∧
    activeTimeouts s' = <[nextSymbol s := t]> (activeTimeouts s) ∧
    nextSymbol s' = S (nextSymbol s).
Proof.
  intros Hin Hsome.
  unfold setTimeout, freshSymbol, host_setTimeout, mbind, M_bind, bind, modify, get, emit.
  rewrite (validate_inside s Hin). destruct Hin as [Hq Hi].
  destruct (currentTimers s) as [m|] eqn:Hct; state_simpl; [|by rewrite lookup_empty in Hsome].
  rewrite ?Hct; state_simpl. rewrite Hsome; state_simpl.
  eexists; split; [reflexivity|]. unfold timers_of; state_simpl.
  rewrite !lookup_insert_eq. repeat split; done.
Qed.

Lemma clearTimeout_run (id : Symbol) (t : TimeoutID) s :
  inCycle s →
  activeTimeouts s !! id = Some t →
  ∃ s', clearTimeout id s
        = mkResult (if bool_decide (length (omap_delete id (timers_of t s)) = 0%nat)
                    then [HostClearTimeout t] else [])
            (Normal tt s') ∧
    inCycle s' ∧
    currentTimers s' = currentTimers s ∧
    activeTimeouts s' = activeTimeouts s ∧
    nextSymbol s' = nextSymbol s ∧
    timers_of t s' = omap_delete id (timers_of t s).
Proof.
  intros Hin Hsome.
  unfold clearTimeout, host_clearTimeout, mbind, M_bind, bind, modify, get, emit.
  rewrite (validate_inside s Hin). destruct Hin as [Hq Hi]. state_simpl.
  rewrite Hsome. unfold timers_of; state_simpl. rewrite !lookup_insert_eq. state_simpl.
  case_bool_decide; state_simpl; (eexists; split; [reflexivity|]); state_simpl;
    rewrite ?lookup_insert_eq; repeat split; done.
Qed.

Lemma omap_delete_head {V} (k : Symbol) (v : V) (m : list (Symbol * V)) :
  omap_delete k ((k, v) :: m) = omap_delete k m.
Proof. unfold omap_delete. simpl. by rewrite bool_decide_true. Qed.

Lemma omap_delete_other {V} (k k' : Symbol) (v : V) (m : list (Symbol * V)) :
  k' ≠ k → omap_delete k ((k', v) :: m) = (k', v) :: omap_delete k m.
Proof. intros H. unfold omap_delete. simpl. by rewrite bool_decide_false. Qed.

(** Inside a cycle that has no timeout for the delay yet: a timer creates
    the host timer, a second timer with the same delay joins the timeout
    and creates none, and cancelling the first leaves the second in the
    timeout and the host timer running. *)
Lemma same_delay_one_host_timer f g d s :
  inCycle s →
  default ∅ (currentTimers s) !! d = None →
  let r := (t1 ← setTimeout f d;
            t2 ← setTimeout g d;
            clearTimeout t1;;
            mret (t1, t2)) s in
  effects r = [HostSetTimeout (nextTimeoutID s) d] ∧
  ∃ s', completion r = Normal (nextSymbol s, S (nextSymbol s)) s' ∧
        timers_of (nextTimeoutID s) s'
        = [(S (nextSymbol s), mkTimer (currentInstance s) g (S (nextSymbol s)))] ∧
        default ∅ (currentTimers s') !! d = Some (nextTimeoutID s).
Proof.
  intros Hin Hnone r. unfold r. clear r.
  destruct (setTimeout_new f d s Hin Hnone)
    as (s1 & E1 & Hin1 & Hi1 & Hd1 & Ht1 & Ha1 & Hn1).
  destruct (setTimeout_join g d _ s1 Hin1 Hd1)
    as (s2 & E2 & Hin2 & Hi2 & Hc2 & Ht2 & Ha2 & Hn2).
  assert (Hreg : activeTimeouts s2 !! nextSymbol s = Some (nextTimeoutID s)).
  { rewrite Ha2, Hn1, lookup_insert_ne by lia. exact Ha1. }
  destruct (clearTimeout_run _ _ s2 Hin2 Hreg) as (s3 & E3 & Hin3 & Hc3 & Ha3 & Hn3 & Ht3).
  rewrite Ht2, Ht1, Hn1, Hi1 in Ht3, E3. simpl omap_set in Ht3, E3.
  destruct (decide (nextSymbol s = S (nextSymbol s))) as [Habs|_]; [lia|].
  rewrite omap_delete_head, omap_delete_other in Ht3, E3 by lia.
  rewrite !run_bind, E1. state_simpl. rewrite Hn1 in E2.
  rewrite !run_bind, E2. state_simpl. rewrite !run_bind, E3. state_simpl.
  split; [done|]. exists s3. repeat split; [done|]. by rewrite Hc3, Hc2.
Qed.

(** Cancelling the only timer of a timeout clears the host timer but
    leaves the timeout under its delay in [currentTimers]: the next timer
    with that delay joins it and no host timer is created. *)
Lemma cancelled_timeout_is_joined f g d s :
  inCycle s →
  default ∅ (currentTimers s) !! d = None →
  let r := (t1 ← setTimeout f d; clearTimeout t1) s in
  effects r = [HostSetTimeout (nextTimeoutID s) d; HostClearTimeout (nextTimeoutID s)] ∧
  ∃ s', completion r = Normal tt s' ∧
        default ∅ (currentTimers s') !! d = Some (nextTimeoutID s) ∧
        effects (setTimeout g d s') = [].
Proof.
  intros Hin Hnone r. unfold r. clear r.
  destruct (setTimeout_new f d s Hin Hnone)
    as (s1 & E1 & Hin1 & Hi1 & Hd1 & Ht1 & Ha1 & Hn1).
  destruct (clearTimeout_run _ _ s1 Hin1 Ha1) as (s2 & E2 & Hin2 & Hc2 & Ha2 & Hn2 & Ht2).
  rewrite Ht1, omap_delete_head in Ht2, E2. simpl in E2.
  rewrite run_bind, E1. state_simpl. rewrite E2. state_simpl.
  split; [done|]. exists s2. split; [done|].
  assert (Hd2 : default ∅ (currentTimers s2) !! d = Some (nextTimeoutID s))
    by (by rewrite Hc2).
  split; [done|].
  by destruct (setTimeout_join g d _ s2 Hin2 Hd2) as (s3 & -> & _).
Qed.
End TimersShare.

(** In one cycle, two timers with the same delay share one host timer, and
    cancelling the first leaves the second in the timeout: when the host
    timer fires, only the second callback is called. *)
Example two_timers_share_a_host_timer :
  let r := (t1 ← setTimeout Example.Noop 10;
            t2 ← setTimeout Example.Fail 10;
            clearTimeout t1;;
            mret (t1, t2)) Example.fresh_inCycle in
  let s1 := endCycle (finalState (completion r)) in
  effects r = [HostSetTimeout 0%nat 10] ∧
  (∃ s', completion r = Normal (0%nat, 1%nat) s') ∧
  map fst (timers_of 0%nat s1) = [1%nat] ∧
  callees (effects (processTimers Example.quiet 0%nat s1)) = [TimerFunc 1%nat].
Proof. repeat split; try (eexists; vm_compute; reflexivity); vm_compute; reflexivity. Qed.

(** C6.  In one cycle a timer is scheduled with delay 10 and cancelled.
    The host timer of its timeout is cleared, but the timeout stays in
    [currentTimers] under the delay and in [activeTimeouts] under the
    token; a timer scheduled next with the same delay joins that timeout
    and no host timer is created for it. *)
Theorem cancelled_timeout_stays_in_currentTimers :
  let r := (t1 ← setTimeout Example.Noop 10; clearTimeout t1) Example.fresh_inCycle in
  let s1 := finalState (completion r) in
  let r2 := setTimeout Example.Noop 10 s1 in
  effects r = [HostSetTimeout 0%nat 10; HostClearTimeout 0%nat] ∧
  timers_of 0%nat s1 = [] ∧
  default ∅ (currentTimers s1) !! 10 = Some 0%nat ∧
  activeTimeouts s1 !! 0%nat = Some 0%nat ∧
  effects r2 = [] ∧
  map fst (timers_of 0%nat (finalState (completion r2))) = [1%nat].
Proof. repeat split; vm_compute; reflexivity. Qed.

(** ** Ownership changes and their listeners *)

(** On a release through the context the listener of the example is
    notified inside the cycle, and its [hasOwnership] returns. *)
Example release_notifies_inside_the_cycle :
  ∃ entry s',
    releaseOwnership Example.responder Example.responderFields Example.call
      Example.owned_inCycle
    = mkResult [Invoke (OnOwnershipChange 3%nat) entry] (Normal false s') ∧
    currentInstance entry = Some 3%nat ∧
    currentOwner entry = None ∧
    (∃ s'', hasOwnership entry = mkResult [] (Normal false s'')).
Proof. do 2 eexists. repeat split; try eexists; vm_compute; reflexivity. Qed.

(** C8.  Instance 1 holds the slot and is unmounted outside a cycle.  The
    slot is cleared and the listener, instance 3, is notified with itself as
    the current instance, but with no current event queue: its call of
    [hasOwnership] throws the invariant violation, which ends
    [unmountEventResponder].  The same happens for instance 4, whose
    [onUnmount] ran in a cycle that is over when the listeners are
    notified. *)
Theorem unmount_notifies_outside_a_cycle :
  (∃ entry s',
     unmountEventResponder Example.responder Example.responderFields Example.call
       1%nat Example.owned
     = mkResult [Invoke (OnOwnershipChange 3%nat) entry]
         (Throw (Invariant outsideCycleMessage) s') ∧
     currentInstance entry = Some 3%nat ∧
     currentOwner entry = None ∧
     currentEventQueue entry = None ∧
     hasOwnership entry = mkResult [] (Throw (Invariant outsideCycleMessage) entry)) ∧
  (∃ entry0 entry s',
     unmountEventResponder Example.responder Example.responderFields Example.call
       4%nat Example.owned_by_4
     = mkResult [Invoke (OnUnmount 4%nat) entry0; Invoke (OnOwnershipChange 3%nat) entry]
         (Throw (Invariant outsideCycleMessage) s') ∧
     is_Some (currentEventQueue entry0) ∧
     currentEventQueue entry = None).
Proof.
  split.
  - do 2 eexists. repeat split; vm_compute; reflexivity.
  - do 3 eexists. repeat split; try (vm_compute; reflexivity).
    vm_compute. eexists. reflexivity.
Qed.

Section Release.
Context {F : Type}.
Variable responder : Instance → Responder.
Variable responderFields : Responder → ReactEventResponder F.
Variable call : F → Args → State F → Completion F unit.
Implicit Types (s : State F).

Local Abbreviation trigger := (triggerOwnershipListeners responder responderFields call).
Local Abbreviation release := (releaseOwnership responder responderFields call).

(** What [releaseOwnership] is once the context has been validated. *)
Lemma release_inCycle s :
  inCycle s →
  release s =
  if bool_decide (currentOwner s ≠ currentInstance s)
  then mkResult [] (Normal false s)
  else
    let t := trigger (set_currentOwner None s) in
    mkResult (effects t)
      match completion t with
      | Normal _ s' => Normal false s'
      | Throw e s' => Throw e s'
      end.
Proof.
  intros Hin. unfold releaseOwnership.
  rewrite run_bind, (validate_inside s Hin). cbn [effects completion app].
  rewrite run_bind. cbn [get effects completion app].
  rewrite run_bind. cbn [get effects completion app].
  case_bool_decide; [done|].
  rewrite run_bind. cbn [modify effects completion app].
  rewrite run_bind.
  destruct (completion (trigger (set_currentOwner None s))) as [[] s'|e s'];
    cbn [effects completion mret M_ret ret]; by rewrite ?app_nil_r.
Qed.

Lemma notify_all (l : list Instance) s :
  neverThrows call →
  (∀ i, i ∈ l → is_Some (onOwnershipChange (responderFields (responder i)))) →
  let m := for_each l (fun instance =>
    modify (set_currentInstance (Some instance));;
    invoke_defined call (OnOwnershipChange instance)
      (onOwnershipChange (responderFields (responder instance))) NoArgs) in
  ∃ s', completion (m s) = Normal tt s' ∧
        callees (effects (m s)) = map OnOwnershipChange l.
Proof.
  intros Hcall. revert s. induction l as [|i l IH]; intros s Hl m.
  - by exists s.
  - unfold m. set (body := fun instance : Instance => _).
    assert (Hstep : ∃ s1, body i s =
      mkResult [Invoke (OnOwnershipChange i) (set_currentInstance (Some i) s)]
        (Normal tt s1)).
    { destruct (Hl i) as [f Hf]; [by left|].
      unfold body. rewrite run_bind. cbn [modify effects completion app].
      rewrite Hf. unfold invoke_defined, invoke.
      specialize (Hcall f NoArgs (set_currentInstance (Some i) s)).
      destruct (call f NoArgs _) as [[] s1|]; [by exists s1 | done]. }
    destruct Hstep as [s1 Hs1].
    simpl for_each. change (bind ?a ?k) with (a ≫= k). rewrite run_bind, Hs1.
    cbn [effects completion]. subst body.
    destruct (IH s1) as (s' & Hc & He); [intros; apply Hl; by right|].
    exists s'. split; [exact Hc|]. rewrite callees_app, He. reflexivity.
Qed.

(** The notification pass, when no listener throws: every registered
    instance is notified, in registration order, and [currentInstance] is
    restored. *)
Lemma trigger_returns s :
  neverThrows call →
  (∀ i, i ∈ ownershipChangeListeners s →
        is_Some (onOwnershipChange (responderFields (responder i)))) →
  ∃ s', completion (trigger s) = Normal tt s' ∧
        currentInstance s' = currentInstance s ∧
        callees (effects (trigger s)) = map OnOwnershipChange (ownershipChangeListeners s).
Proof.
  intros Hcall Hl. unfold triggerOwnershipListeners.
  rewrite run_bind. cbn [get effects completion app].
  rewrite run_bind. cbn [get effects completion app].
  unfold try_finally. cbn [effects completion].
  destruct (notify_all (ownershipChangeListeners s) s Hcall Hl) as (s' & Hc & He).
  rewrite Hc. eexists. split; [reflexivity|]. split; [reflexivity | exact He].
Qed.

(** On a path that is inside a cycle ([requestOwnership],
    [releaseOwnership]) every listener is notified as the current instance
    and inside that cycle. *)
Lemma trigger_inCycle :
  keepsQueue call →
  ensures (fun s => is_Some (currentEventQueue s)) trigger notifiedInCycle
    (fun _ s => is_Some (currentEventQueue s)) (fun s => is_Some (currentEventQueue s)).
Proof.
  intros Hkeep. unfold triggerOwnershipListeners.
  apply ensures_get_bind. intros l. apply ensures_get_bind. intros previous.
  apply ensures_try_finally with (Q' := fun _ s => is_Some (currentEventQueue s))
    (R' := fun s => is_Some (currentEventQueue s)); [|by intros ? ? ?|by intros ? ?].
  apply ensures_weaken with (P' := fun s => is_Some (currentEventQueue s))
    (E' := notifiedInCycle) (Q' := fun _ s => is_Some (currentEventQueue s))
    (R' := fun s => is_Some (currentEventQueue s)); [|by intros ? [[? _] _]|done..].
  apply ensures_for_each. intros i _.
  apply ensures_modify_bind with
    (P' := fun s => is_Some (currentEventQueue s) ∧ currentInstance s = Some i); [done|].
  unfold invoke_defined. destruct (onOwnershipChange _) as [f|];
    [|apply ensures_throw; by intros ? [? ?]].
  apply ensures_invoke.
  - intros s [Hq Hi]. split; [done|]. split; [done|]. by rewrite Hi.
  - intros s [Hq Hi]. specialize (Hkeep f NoArgs s Hq). by destruct (call f NoArgs s).
Qed.

Lemma hasOwnership_inCycle s :
  inCycle s →
  hasOwnership s
  = mkResult [] (Normal (bool_decide (currentOwner s = currentInstance s)) s).
Proof.
  intros Hin. unfold hasOwnership. by rewrite run_bind, (validate_inside s Hin).
Qed.
End Release.

(** C7.  Inside a cycle [releaseOwnership] leaves everything as it is and
    notifies nobody when the current instance does not hold the slot; when
    it does, the slot is cleared and the notification pass runs from there;
    the value returned is [false] in both cases. *)
Theorem releaseOwnership_returns_false {F} (responder : Instance → Responder)
    (responderFields : Responder → ReactEventResponder F)
    (call : F → Args → State F → Completion F unit) (s : State F) :
  inCycle s →
  let r := releaseOwnership responder responderFields call s in
  (currentOwner s ≠ currentInstance s → r = mkResult [] (Normal false s)) ∧
  (currentOwner s = currentInstance s →
     let t := triggerOwnershipListeners responder responderFields call
                (set_currentOwner None s) in
     effects r = effects t ∧
     completion r = match completion t with
                    | Normal _ s' => Normal false s'
                    | Throw e s' => Throw e s'
                    end) ∧
  (∀ b s', completion r = Normal b s' → b = false) ∧
  (neverThrows call →
   (∀ i, i ∈ ownershipChangeListeners s →
         is_Some (onOwnershipChange (responderFields (responder i)))) →
   currentOwner s = currentInstance s →
   ∃ s', completion r = Normal false s' ∧
         callees (effects r) = map OnOwnershipChange (ownershipChangeListeners s)).
Proof.
  intros Hin r. unfold r. rewrite (release_inCycle responder responderFields call s Hin).
  repeat split.
  - intros Hne. by rewrite bool_decide_true.
  - rewrite bool_decide_false by (by intros []). done.
  - rewrite bool_decide_false by (by intros []). done.
  - intros b s'. case_bool_decide; cbn [completion].
    + by intros [= <- _].
    + destruct (completion _); [by intros [= <- _] | done].
  - intros Hcall Hl Heq. rewrite bool_decide_false by (by intros []).
    destruct (trigger_returns responder responderFields call (set_currentOwner None s)
                Hcall Hl) as (s' & Hc & _ & He).
    cbn [effects completion]. rewrite Hc. by exists s'.
Qed.

Lemma releaseOwnership_returns_false_witness :
  ∃ s', completion (releaseOwnership Example.responder Example.responderFields
                      Example.quiet Example.owned_inCycle) = Normal false s' ∧
        callees (effects (releaseOwnership Example.responder Example.responderFields
                            Example.quiet Example.owned_inCycle))
        = [OnOwnershipChange 3%nat].
Proof.
  destruct (releaseOwnership_returns_false Example.responder Example.responderFields
              Example.quiet Example.owned_inCycle) as (_ & _ & _ & H).
  - split; eexists; reflexivity.
  - apply H.
    + intros f args s. reflexivity.
    + intros i Hi. vm_compute in Hi. apply list_elem_of_In in Hi.
      destruct Hi as [<-|[]]. eexists. reflexivity.
    + reflexivity.
Defined.

(** ** Root event types *)

Section RootEventTypes.
Context {F : Type}.
Implicit Types (s : State F) (i j : Instance) (n t : string).

Lemma has_registry_ensure i n t s :
  rootEventTypes_has i n (registry_ensure t s) = rootEventTypes_has i n s.
Proof. unfold registry_ensure. by destruct (_ !! t). Qed.

Lemma has_registry_add i n t j s :
  rootEventTypes_has i n (registry_add t j s) = rootEventTypes_has i n s.
Proof. reflexivity. Qed.

Lemma has_rootEventTypes_ensure i n j s :
  rootEventTypes_has i n (rootEventTypes_ensure j s) = rootEventTypes_has i n s.
Proof.
  unfold rootEventTypes_ensure. destruct (instanceRootEventTypes s !! j) eqn:Hj; [done|].
  unfold rootEventTypes_has. cbn [instanceRootEventTypes set_instanceRootEventTypes].
  destruct (decide (i = j)) as [->|Hne].
  - by rewrite lookup_insert_eq, Hj.
  - by rewrite lookup_insert_ne.
Qed.

Lemma has_rootEventTypes_add i n j t s :
  rootEventTypes_has i n s = true →
  rootEventTypes_has i n (rootEventTypes_add j t s) = true.
Proof.
  unfold rootEventTypes_has, rootEventTypes_add.
  cbn [instanceRootEventTypes set_instanceRootEventTypes].
  rewrite !set_has_true. intros H.
  destruct (decide (i = j)) as [->|Hne].
  - rewrite lookup_insert_eq. simpl. apply elem_of_set_add. by right.
  - by rewrite lookup_insert_ne.
Qed.

Lemma has_after_add i t s : rootEventTypes_has i t (rootEventTypes_add i t s) = true.
Proof.
  unfold rootEventTypes_has, rootEventTypes_add.
  cbn [instanceRootEventTypes set_instanceRootEventTypes].
  rewrite lookup_insert_eq. simpl. apply set_has_true, elem_of_set_add. by left.
Qed.

Lemma currentInstance_registry_ensure t s :
  currentInstance (registry_ensure t s) = currentInstance s.
Proof. unfold registry_ensure. by destruct (_ !! t). Qed.

Lemma currentInstance_rootEventTypes_ensure j s :
  currentInstance (rootEventTypes_ensure j s) = currentInstance s.
Proof. unfold rootEventTypes_ensure. by destruct (_ !! j). Qed.

Lemma addRootEventType_run x i s :
  currentInstance s = Some i →
  let n := topLevelEventTypeOf x in
  let s0 := rootEventTypes_ensure i (registry_ensure n s) in
  addRootEventType x s =
  if rootEventTypes_has i n s
  then mkResult [] (Throw (Invariant duplicateRootEventMessage) s0)
  else mkResult [] (Normal tt (registry_add n i (rootEventTypes_add i n s0))).
Proof.
  intros Hi n s0.
  unfold addRootEventType, theCurrentInstance, mbind, M_bind, bind, modify, get.
  cbn [effects completion app]. rewrite currentInstance_registry_ensure, Hi.
  cbn [mret M_ret ret effects completion app]. fold n.
  rewrite has_rootEventTypes_ensure, has_registry_ensure.
  destruct (rootEventTypes_has i n s); reflexivity.
Qed.

Lemma addRootEventTypes_loop_faults (types : list ReactEventResponderEventType) x i s :
  currentInstance s = Some i →
  x ∈ types →
  rootEventTypes_has i (topLevelEventTypeOf x) s = true →
  ∃ s', for_each types addRootEventType s
        = mkResult [] (Throw (Invariant duplicateRootEventMessage) s').
Proof.
  revert s. induction types as [|y types IH]; intros s Hi Hx Hhas.
  - by apply elem_of_nil in Hx.
  - simpl for_each. change (bind ?a ?k) with (a ≫= k).
    rewrite run_bind, (addRootEventType_run y i s Hi).
    destruct (rootEventTypes_has i (topLevelEventTypeOf y) s) eqn:Hy.
    + eexists. reflexivity.
    + cbn [effects completion app].
      apply elem_of_cons in Hx as [->|Hx]; [congruence|].
      edestruct IH as [s' Hs']; [| exact Hx | | rewrite Hs'; by eexists].
      * cbn [currentInstance registry_add set_rootEventTypesToEventComponentInstances
             rootEventTypes_add set_instanceRootEventTypes].
        by rewrite currentInstance_rootEventTypes_ensure, currentInstance_registry_ensure.
      * rewrite has_registry_add. apply has_rootEventTypes_add.
        by rewrite has_rootEventTypes_ensure, has_registry_ensure.
Qed.
End RootEventTypes.

(** C9.  Inside a cycle, [addRootEventTypes] with a type that the current
    instance's [rootEventTypes] already holds throws the invariant
    violation. *)
Theorem addRootEventTypes_duplicate_faults {F} (doc : Node)
    (types : list ReactEventResponderEventType) (s : State F) (i : Instance)
    (x : ReactEventResponderEventType) :
  is_Some (currentEventQueue s) →
  currentInstance s = Some i →
  x ∈ types →
  rootEventTypes_has i (topLevelEventTypeOf x) s = true →
  ∃ s', completion (addRootEventTypes doc types s)
        = Throw (Invariant duplicateRootEventMessage) s'.
Proof.
  intros Hq Hi Hx Hhas. unfold addRootEventTypes.
  rewrite run_bind, validate_inside by (split; [done | by rewrite Hi]).
  cbn [effects completion app]. rewrite run_bind. cbn [emit effects completion app].
  destruct (addRootEventTypes_loop_faults types x i s Hi Hx Hhas) as [s' ->].
  by exists s'.
Qed.

Lemma addRootEventTypes_duplicate_faults_witness :
  ∃ s', completion (addRootEventTypes 0%nat [EventTypeString "keydown"; EventTypeObject "click" None None]
                      Example.registered_inCycle)
        = Throw (Invariant duplicateRootEventMessage) s'.
Proof.
  apply (addRootEventTypes_duplicate_faults 0%nat _ Example.registered_inCycle 1%nat
           (EventTypeObject "click" None None)).
  - eexists. reflexivity.
  - reflexivity.
  - right. left.
  - vm_compute. reflexivity.
Defined.

(** X26.  A type that occurs twice in the array is a duplicate as well:
    the second occurrence finds the first. *)
Lemma addRootEventTypes_repeated_faults {F} (doc : Node)
    (types : list ReactEventResponderEventType) (s : State F) (i : Instance) :
  is_Some (currentEventQueue s) →
  currentInstance s = Some i →
  ¬ NoDup (map topLevelEventTypeOf types) →
  ∃ s', completion (addRootEventTypes doc types s)
        = Throw (Invariant duplicateRootEventMessage) s'.
Proof.
  intros Hq Hi Hdup. unfold addRootEventTypes.
  rewrite run_bind, validate_inside by (split; [done | by rewrite Hi]).
  cbn [effects completion app]. rewrite run_bind. cbn [emit effects completion app].
  clear Hq. revert s Hi. induction types as [|y types IH]; intros s Hi.
  - destruct Hdup. constructor.
  - simpl for_each. change (bind ?a ?k) with (a ≫= k).
    rewrite run_bind, (addRootEventType_run y i s Hi).
    destruct (rootEventTypes_has i (topLevelEventTypeOf y) s); [by eexists|].
    cbn [effects completion app].
    set (s1 := registry_add _ _ _).
    assert (Hi1 : currentInstance s1 = Some i).
    { unfold s1. cbn [currentInstance registry_add
        set_rootEventTypesToEventComponentInstances rootEventTypes_add
        set_instanceRootEventTypes].
      by rewrite currentInstance_rootEventTypes_ensure, currentInstance_registry_ensure. }
    destruct (decide (topLevelEventTypeOf y ∈ map topLevelEventTypeOf types)) as [Hin|Hnin].
    + apply list_elem_of_In, in_map_iff in Hin as (x & Hname & Hx%list_elem_of_In).
      destruct (addRootEventTypes_loop_faults types x i s1 Hi1 Hx) as [s' ->];
        [|by eexists].
      rewrite Hname. unfold s1. rewrite has_registry_add. apply has_after_add.
    + apply IH; [|done]. intros Hnd. apply Hdup. simpl. by apply NoDup_cons.
Qed.

Section StaticRegistration.
Context {F : Type}.
Implicit Types (s : State F) (i : Instance) (n : string)
  (x : ReactEventResponderEventType).

(** The static registration never throws: it is the four assignments,
    type after type. *)
Lemma static_run i (types : list ReactEventResponderEventType) s :
  addRootEventTypesForComponentInstance i types s
  = mkResult [] (Normal tt (fold_left (registerStatic i) types s)).
Proof.
  unfold addRootEventTypesForComponentInstance.
  revert s. induction types as [|x types IH]; intros s; [done|].
  simpl for_each. change (bind ?a ?k) with (a ≫= k). rewrite run_bind.
  unfold mbind at 1 2 3, M_bind, bind, modify. cbn [effects completion app].
  by rewrite IH.
Qed.

Lemma state_eta s :
  mkState (activeTimeouts s) (rootEventTypesToEventComponentInstances s)
    (ownershipChangeListeners s) (eventListeners s) (currentTimers s)
    (currentOwner s) (currentInstance s) (currentEventQueue s)
    (timeoutTimers s) (instanceRootEventTypes s) (nextSymbol s)
    (nextTimeoutID s) = s.
Proof. by destruct s. Qed.

Lemma registerStatic_registered i s x :
  registered i (topLevelEventTypeOf x) s → registerStatic i s x = s.
Proof.
  intros [Hhas Hin]. unfold registerStatic.
  set (n := topLevelEventTypeOf x) in *.
  destruct (rootEventTypesToEventComponentInstances s !! n) as [l|] eqn:Hl;
    [|by apply elem_of_nil in Hin].
  simpl in Hin. unfold rootEventTypes_has in Hhas.
  destruct (instanceRootEventTypes s !! i) as [ts|] eqn:Hts;
    [|by apply set_has_true, elem_of_nil in Hhas].
  simpl in Hhas. apply set_has_true in Hhas.
  unfold registry_ensure. rewrite Hl.
  unfold rootEventTypes_ensure. rewrite Hts.
  unfold registry_add, rootEventTypes_add.
  cbn [instanceRootEventTypes set_instanceRootEventTypes
       rootEventTypesToEventComponentInstances
       set_rootEventTypesToEventComponentInstances].
  rewrite Hl, Hts. simpl. rewrite (set_add_present _ _ Hhas), (set_add_present _ _ Hin).
  rewrite (insert_id _ _ _ Hl), (insert_id _ _ _ Hts).
  unfold set_rootEventTypesToEventComponentInstances, set_instanceRootEventTypes.
  simpl. apply state_eta.
Qed.

Lemma registerStatic_establishes i s x :
  registered i (topLevelEventTypeOf x) (registerStatic i s x).
Proof.
  unfold registerStatic. split.
  - rewrite has_registry_add. apply has_after_add.
  - unfold registry_add.
    cbn [rootEventTypesToEventComponentInstances
         set_rootEventTypesToEventComponentInstances].
    rewrite lookup_insert_eq. simpl. apply elem_of_set_add. by left.
Qed.

Lemma registry_ensure_lookup n n' s :
  default [] (rootEventTypesToEventComponentInstances (registry_ensure n s) !! n')
  = default [] (rootEventTypesToEventComponentInstances s !! n').
Proof.
  unfold registry_ensure.
  destruct (rootEventTypesToEventComponentInstances s !! n) eqn:Hn; [done|].
  cbn [rootEventTypesToEventComponentInstances
       set_rootEventTypesToEventComponentInstances].
  destruct (decide (n = n')) as [<-|Hne].
  - by rewrite lookup_insert_eq, Hn.
  - by rewrite lookup_insert_ne.
Qed.

Lemma rootEventTypes_ensure_registry i s :
  rootEventTypesToEventComponentInstances (rootEventTypes_ensure i s)
  = rootEventTypesToEventComponentInstances s.
Proof. unfold rootEventTypes_ensure. by destruct (_ !! i). Qed.

Lemma registerStatic_preserves i n s x :
  registered i n s → registered i n (registerStatic i s x).
Proof.
  intros [Hhas Hin]. unfold registerStatic. split.
  - rewrite has_registry_add. apply has_rootEventTypes_add.
    by rewrite has_rootEventTypes_ensure, has_registry_ensure.
  - unfold registry_add.
    cbn [rootEventTypesToEventComponentInstances
         set_rootEventTypesToEventComponentInstances
         rootEventTypes_add set_instanceRootEventTypes].
    rewrite rootEventTypes_ensure_registry.
    destruct (decide (topLevelEventTypeOf x = n)) as [<-|Hne].
    + rewrite lookup_insert_eq. simpl. apply elem_of_set_add. right.
      by rewrite registry_ensure_lookup.
    + rewrite lookup_insert_ne by done. by rewrite registry_ensure_lookup.
Qed.

Lemma fold_preserves i n (types : list ReactEventResponderEventType) s :
  registered i n s → registered i n (fold_left (registerStatic i) types s).
Proof.
  revert s. induction types as [|x types IH]; intros s H; [done|].
  simpl. by apply IH, registerStatic_preserves.
Qed.

Lemma fold_establishes i (types : list ReactEventResponderEventType) s x :
  x ∈ types →
  registered i (topLevelEventTypeOf x) (fold_left (registerStatic i) types s).
Proof.
  revert s. induction types as [|y types IH]; intros s Hx.
  - by apply elem_of_nil in Hx.
  - simpl. apply elem_of_cons in Hx as [->|Hx]; [|by apply IH].
    apply fold_preserves, registerStatic_establishes.
Qed.

Lemma fold_registered i (types : list ReactEventResponderEventType) s :
  (∀ x, x ∈ types → registered i (topLevelEventTypeOf x) s) →
  fold_left (registerStatic i) types s = s.
Proof.
  revert s. induction types as [|y types IH]; intros s H; [done|].
  simpl. rewrite registerStatic_registered by (apply H; by left).
  apply IH. intros x Hx. apply H. by right.
Qed.

(** Registering a type that the instance's set already holds leaves the
    set as it is, whatever the registry holds. *)
Lemma registerStatic_keeps_the_set i s x :
  rootEventTypes_has i (topLevelEventTypeOf x) s = true →
  instanceRootEventTypes (registerStatic i s x) = instanceRootEventTypes s.
Proof.
  intros Hhas. unfold registerStatic, rootEventTypes_has in *.
  set (n := topLevelEventTypeOf x) in *.
  cbn [instanceRootEventTypes registry_add set_rootEventTypesToEventComponentInstances].
  assert (He : rootEventTypes_ensure i (registry_ensure n s) = registry_ensure n s).
  { unfold rootEventTypes_ensure.
    replace (instanceRootEventTypes (registry_ensure n s))
      with (instanceRootEventTypes s) by (unfold registry_ensure; by destruct (_ !! n)).
    destruct (instanceRootEventTypes s !! i); [done|].
    by apply set_has_true, elem_of_nil in Hhas. }
  rewrite He. unfold rootEventTypes_add.
  cbn [instanceRootEventTypes set_instanceRootEventTypes].
  replace (instanceRootEventTypes (registry_ensure n s))
    with (instanceRootEventTypes s) by (unfold registry_ensure; by destruct (_ !! n)).
  destruct (instanceRootEventTypes s !! i) as [ts|] eqn:Hts;
    [|by apply set_has_true, elem_of_nil in Hhas].
  simpl in *. apply set_has_true in Hhas.
  rewrite (set_add_present _ _ Hhas). by apply insert_id.
Qed.
End StaticRegistration.

Lemma fold_keeps_the_set {F} (i : Instance) (types : list ReactEventResponderEventType)
    (s : State F) :
  (∀ x, x ∈ types → rootEventTypes_has i (topLevelEventTypeOf x) s = true) →
  instanceRootEventTypes (fold_left (registerStatic i) types s) = instanceRootEventTypes s.
Proof.
  revert s. induction types as [|y types IH]; intros s H; [done|].
  simpl. rewrite IH.
  - apply registerStatic_keeps_the_set, H. by left.
  - intros x Hx. unfold registerStatic. rewrite has_registry_add.
    apply has_rootEventTypes_add.
    rewrite has_rootEventTypes_ensure, has_registry_ensure. apply H. by right.
Qed.

(** Where the agreement ends: [unmountEventResponder] takes the instance
    it destroys out of the registry and leaves the instance's own
    [rootEventTypes] as it is.  Were instance 1 registered again after its
    unmount, the registration would put it back into the registry. *)
Example registration_after_unmount :
  rootEventTypes_has 1%nat "click" Example.unmounted = true ∧
  rootEventTypesToEventComponentInstances Example.unmounted !! "click" = Some [] ∧
  ¬ rootTypesAgree 1%nat Example.unmounted ∧
  ∃ s', addRootEventTypesForComponentInstance 1%nat [EventTypeString "click"]
          Example.unmounted = mkResult [] (Normal tt s') ∧
        rootEventTypesToEventComponentInstances s' !! "click" = Some [1%nat].
Proof.
  split; [vm_compute; reflexivity|]. split; [vm_compute; reflexivity|]. split.
  - intros H. specialize (H "click" eq_refl). vm_compute in H.
    by apply elem_of_nil in H.
  - eexists. split; [rewrite static_run; reflexivity|]. vm_compute. reflexivity.
Qed.

(** C10.  The static registration has no duplicate check and never
    throws, and registering the same types twice gives the state that
    registering them once gives.  Registering types that the instance's
    [rootEventTypes] already holds leaves that set as it is, and, the set
    and the registry agreeing, leaves the registry and the whole module
    state as they are; the context's [addRootEventTypes] throws the
    invariant violation on the same types. *)
Theorem static_registration_is_idempotent {F} (i : Instance)
    (types : list ReactEventResponderEventType) (s : State F) :
  let reg := addRootEventTypesForComponentInstance i types in
  let held := ∀ x, x ∈ types → rootEventTypes_has i (topLevelEventTypeOf x) s = true in
  (∃ s', reg s = mkResult [] (Normal tt s') ∧ reg s' = mkResult [] (Normal tt s')) ∧
  (held →
   instanceRootEventTypes (finalState (completion (reg s))) = instanceRootEventTypes s) ∧
  (held → rootTypesAgree i s → reg s = mkResult [] (Normal tt s)) ∧
  (held → is_Some (currentEventQueue s) → currentInstance s = Some i → types ≠ [] →
   ∀ doc, ∃ s', completion (addRootEventTypes doc types s)
                = Throw (Invariant duplicateRootEventMessage) s').
Proof.
  intros reg held. unfold reg, held. split; [|split; [|split]].
  - exists (fold_left (registerStatic i) types s). rewrite !static_run. split; [done|].
    f_equal. f_equal. apply fold_registered. intros x Hx. by apply fold_establishes.
  - intros H. rewrite static_run. cbn [completion finalState]. by apply fold_keeps_the_set.
  - intros H Hagree. rewrite static_run. rewrite fold_registered; [done|].
    intros x Hx. split; [by apply H | by apply Hagree, H].
  - intros H Hq Hi Hne doc. destruct types as [|x types]; [done|].
    unfold addRootEventTypes.
    rewrite run_bind, validate_inside by (split; [done | by rewrite Hi]).
    cbn [effects completion app]. rewrite run_bind. cbn [emit effects completion app].
    destruct (addRootEventTypes_loop_faults (x :: types) x i s Hi) as [s' ->];
      [by left | apply H; by left |].
    by exists s'.
Qed.

Lemma static_registration_is_idempotent_witness :
  addRootEventTypesForComponentInstance 1%nat [EventTypeObject "click" None None]
    Example.registered_inCycle
  = mkResult [] (Normal tt Example.registered_inCycle) ∧
  ∃ s', completion (addRootEventTypes 0%nat [EventTypeObject "click" None None]
                      Example.registered_inCycle)
        = Throw (Invariant duplicateRootEventMessage) s'.
Proof.
  destruct (static_registration_is_idempotent 1%nat [EventTypeObject "click" None None]
              Example.registered_inCycle) as (_ & _ & Hsame & Hcontext).
  assert (Hheld : ∀ x, x ∈ [EventTypeObject "click" None None] →
            rootEventTypes_has 1%nat (topLevelEventTypeOf x) Example.registered_inCycle
            = true).
  { intros x Hx. apply list_elem_of_In in Hx. destruct Hx as [<-|[]].
    vm_compute. reflexivity. }
  split.
  - apply Hsame; [exact Hheld|].
    intros n Hn. apply set_has_true, list_elem_of_In in Hn. vm_compute in Hn.
    destruct Hn as [<-|[]]. apply list_elem_of_In. vm_compute. left. reflexivity.
  - apply Hcontext; [exact Hheld | by eexists | reflexivity | discriminate].
Defined.

(** * Further properties of the module *)

(** X1.  Outside a cycle every operation of the context that validates it
    throws the invariant violation, records nothing and leaves the module
    state as it was.  At module load: *)
Lemma validated_operations_fault_witness :
  hasOwnership (@initialState Example.Fn)
    = mkResult [] (Throw (Invariant outsideCycleMessage) initialState) ∧
  setTimeout Example.Noop 5 (@initialState Example.Fn)
    = mkResult [] (Throw (Invariant outsideCycleMessage) initialState) ∧
  requestOwnership Example.responder Example.responderFields Example.call
    (@initialState Example.Fn)
    = mkResult [] (Throw (Invariant outsideCycleMessage) initialState).
Proof.
  destruct (validated_operations_fault Example.responder Example.responderFields
              Example.call Example.getClosestInstanceFromNode Z Z.gtb
              (fun _ => None) (fun n => n) (fun _ => (0, 0, 0, 0))
              (@initialState Example.Fn) (or_introl eq_refl))
    as (_ & _ & _ & _ & _ & Hhas & Hreq & _ & Hset & _).
  split; [exact Hhas|]. split; [apply Hset | exact Hreq].
Defined.

(** ** Emitting events and flushing the queue *)

Section EventQueueFacts.
Context {F : Type}.
Variable call : F → Args → State F → Completion F unit.
Implicit Types (s : State F) (e : EventObject) (q : EventQueue).

Lemma processEvent_run e s :
  is_Some (eventListeners s !! event_id e) →
  ∃ f, eventListeners s !! event_id e = Some f ∧
    processEvent call e s =
    mkResult (Invoke (Listener e) s ::
              match call f (EmittedEventArg e) s with
              | Normal _ _ => []
              | Throw ex _ => [CaughtError ex]
              end)
      (Normal tt (finalState (call f (EmittedEventArg e) s))).
Proof.
  intros [f Hf]. exists f. split; [done|].
  unfold processEvent. rewrite run_bind. cbn [get effects completion app]. rewrite Hf.
  unfold invokeGuardedCallbackAndCatchFirstError, invoke_defined, invoke.
  cbn [effects completion]. by destruct (call f _ s) as [[] ?|? ?].
Qed.

Lemma processEvent_returns e s : isThrow (completion (processEvent call e s)) = false.
Proof.
  unfold processEvent. rewrite run_bind. cbn [get effects completion app].
  unfold invokeGuardedCallbackAndCatchFirstError, invoke_defined, invoke.
  destruct (eventListeners s !! event_id e) as [f|]; cbn [effects completion throw].
  - by destruct (call f _ s).
  - done.
Qed.

Lemma processEvents_returns (evs : list EventObject) s :
  isThrow (completion (processEvents call evs s)) = false.
Proof.
  unfold processEvents. revert s. induction evs as [|e evs IH]; intros s; [done|].
  simpl for_each. change (bind ?a ?k) with (a ≫= k). rewrite run_bind.
  pose proof (processEvent_returns e s) as He.
  destruct (completion (processEvent call e s)) as [[] s1|]; [|done].
  cbn [completion]. apply IH.
Qed.

Lemma processEvents_callees (evs : list EventObject) s :
  keepsListeners call →
  (∀ e, e ∈ evs → is_Some (eventListeners s !! event_id e)) →
  callees (effects (processEvents call evs s)) = map Listener evs.
Proof.
  intros Hkeep. unfold processEvents. revert s.
  induction evs as [|e evs IH]; intros s Hreg; [done|].
  simpl for_each. change (bind ?a ?k) with (a ≫= k). rewrite run_bind.
  destruct (processEvent_run e s) as (f & Hf & ->); [apply Hreg; by left|].
  cbn [effects completion]. rewrite callees_app, IH.
  - by destruct (call f _ s).
  - intros e' He'. apply Hkeep, Hreg. by right.
Qed.
End EventQueueFacts.

(** X2.  Inside a cycle, [context.dispatchEvent] of an object without
    [target] or without [type] throws and enqueues nothing; otherwise the
    object goes to the end of the queue, its listener is recorded and the
    queue is discrete from then on if the call asks for it. *)
Theorem dispatchEvent_checks_then_enqueues {F} (e : EventObject) (listener : F)
    (d : bool) (s : State F) (q : EventQueue) :
  is_Some (currentInstance s) →
  currentEventQueue s = Some q →
  (event_target e = None ∨ event_type e = None →
   dispatchEvent e listener d s
   = mkResult []
       (Throw (Error "context.dispatchEvent: 'target' and 'type' fields on event object are required.") s)) ∧
  (is_Some (event_target e) → is_Some (event_type e) →
   dispatchEvent e listener d s
   = mkResult []
       (Normal tt
          (set_currentEventQueue
             (Some (mkEventQueue (events q ++ [e]) (discrete q || d)))
             (set_eventListeners (<[event_id e := listener]> (eventListeners s)) s)))).
Proof.
  intros Hi Hq.
  assert (Hin : inCycle s) by (split; [by rewrite Hq | done]).
  unfold dispatchEvent. rewrite run_bind, (validate_inside s Hin).
  cbn [effects completion app]. rewrite run_bind. split.
  - intros Hmiss.
    assert (Hc : bool_decide (event_target e = None) || bool_decide (event_type e = None)
                 = true).
    { apply orb_true_iff. destruct Hmiss; [left | right]; by apply bool_decide_eq_true. }
    by rewrite Hc.
  - intros [t Ht] [ty Hty]. rewrite Ht, Hty. cbn [effects completion app orb].
    rewrite !bool_decide_false by done.
    cbn [orb mret M_ret ret effects completion app].
    rewrite run_bind. cbn [get effects completion app]. rewrite Hq.
    destruct d, q as [evs []]; reflexivity.
Qed.

Lemma dispatchEvent_checks_then_enqueues_witness :
  dispatchEvent (mkEventObject 7 None (Some "press")) Example.Noop true
    Example.fresh_inCycle
  = mkResult []
      (Throw (Error "context.dispatchEvent: 'target' and 'type' fields on event object are required.")
         Example.fresh_inCycle) ∧
  events <$> currentEventQueue
    (finalState (completion
       (dispatchEvent (mkEventObject 7 (Some 100%nat) (Some "press")) Example.Noop true
          Example.fresh_inCycle)))
  = Some [mkEventObject 7 (Some 100%nat) (Some "press")].
Proof.
  split.
  - apply (dispatchEvent_checks_then_enqueues _ _ _ Example.fresh_inCycle createEventQueue);
      [by eexists | reflexivity | by left].
  - rewrite (proj2 (dispatchEvent_checks_then_enqueues
               (mkEventObject 7 (Some 100%nat) (Some "press")) Example.Noop true
               Example.fresh_inCycle createEventQueue
               (ex_intro _ 1%nat eq_refl) eq_refl))
      by (by eexists).
    reflexivity.
Defined.

(** X3.  An event emitted into an empty queue reaches its listener at the
    flush: the batching helper is entered (the interactive one first when
    the event is discrete), the listener is called once with the event, and
    what the listener throws is caught, so the flush returns. *)
Theorem emitted_event_reaches_its_listener {F}
    (call : F → Args → State F → Completion F unit) (e : EventObject) (listener : F)
    (d : bool) (s : State F) :
  is_Some (currentInstance s) →
  currentEventQueue s = Some createEventQueue →
  is_Some (event_target e) → is_Some (event_type e) →
  let r := (dispatchEvent e listener d;; processEventQueue call) s in
  ∃ entry,
    effects r
    = (if d then [InteractiveUpdates] else [])
      ++ [BatchedUpdates; Invoke (Listener e) entry]
      ++ match call listener (EmittedEventArg e) entry with
         | Normal _ _ => []
         | Throw ex _ => [CaughtError ex]
         end ∧
    completion r = Normal tt (finalState (call listener (EmittedEventArg e) entry)).
Proof.
  intros Hi Hq Ht Hty r. unfold r. clear r.
  change (?m;; ?k) with (m ≫= fun _ => k). rewrite run_bind.
  rewrite (proj2 (dispatchEvent_checks_then_enqueues e listener d s createEventQueue Hi Hq))
    by done.
  cbn [effects completion app].
  remember (set_currentEventQueue _ _) as s1 eqn:Hs1.
  assert (Hq1 : currentEventQueue s1 = Some (mkEventQueue [e] d))
    by (rewrite Hs1; by destruct d).
  assert (Hf : eventListeners s1 !! event_id e = Some listener).
  { rewrite Hs1. cbn [eventListeners set_currentEventQueue set_eventListeners].
    by rewrite lookup_insert_eq. }
  destruct (processEvent_run call e s1) as (f & Hf' & Hrun); [by rewrite Hf|].
  assert (f = listener) as -> by congruence.
  exists s1. unfold processEventQueue. rewrite run_bind.
  cbn [get effects completion app]. rewrite Hq1.
  cbn [events discrete length]. rewrite bool_decide_false by done.
  unfold processEvents.
  destruct d; repeat (rewrite run_bind; cbn [emit effects completion app]);
    simpl for_each; change (bind ?a ?k) with (a ≫= k);
    rewrite run_bind, Hrun; cbn [effects completion app ret];
    rewrite app_nil_r; done.
Qed.

Lemma emitted_event_reaches_its_listener_witness :
  callees (effects
    ((dispatchEvent (mkEventObject 7 (Some 100%nat) (Some "press")) Example.Fail true;;
      processEventQueue Example.call) Example.fresh_inCycle))
  = [Listener (mkEventObject 7 (Some 100%nat) (Some "press"))] ∧
  isThrow (completion
    ((dispatchEvent (mkEventObject 7 (Some 100%nat) (Some "press")) Example.Fail true;;
      processEventQueue Example.call) Example.fresh_inCycle)) = false.
Proof.
  destruct (emitted_event_reaches_its_listener Example.call
              (mkEventObject 7 (Some 100%nat) (Some "press")) Example.Fail true
              Example.fresh_inCycle) as (entry & -> & ->);
    [by eexists | reflexivity | by eexists | by eexists |].
  split; reflexivity.
Defined.

(** X4.  The flush never throws, whatever the listeners do; and when every
    queued event has its listener recorded, each listener is called, in the
    order in which the events were queued, also after a listener that
    threw. *)
Theorem flush_isolates_listeners {F} (call : F → Args → State F → Completion F unit)
    (s : State F) (q : EventQueue) :
  currentEventQueue s = Some q →
  let r := processEventQueue call s in
  isThrow (completion r) = false ∧
  (keepsListeners call →
   (∀ e, e ∈ events q → is_Some (eventListeners s !! event_id e)) →
   callees (effects r) = map Listener (events q)).
Proof.
  intros Hq r. unfold r, processEventQueue. rewrite run_bind.
  cbn [get effects completion app]. rewrite Hq.
  case_bool_decide as Hlen.
  - split; [done|]. intros _ _. by destruct (events q).
  - destruct (discrete q); rewrite !run_bind; cbn [emit effects completion app].
    + split; [apply processEvents_returns|]. intros Hkeep Hreg.
      by apply (processEvents_callees call (events q) s Hkeep).
    + split; [apply processEvents_returns|]. intros Hkeep Hreg.
      by apply (processEvents_callees call (events q) s Hkeep).
Qed.

Lemma flush_isolates_listeners_witness :
  let s := finalState (completion
    ((dispatchEvent (mkEventObject 7 (Some 100%nat) (Some "a")) Example.Fail false;;
      dispatchEvent (mkEventObject 8 (Some 100%nat) (Some "b")) Example.Noop false)
       Example.fresh_inCycle)) in
  isThrow (completion (processEventQueue Example.quiet s)) = false ∧
  callees (effects (processEventQueue Example.quiet s))
  = [Listener (mkEventObject 7 (Some 100%nat) (Some "a"));
     Listener (mkEventObject 8 (Some 100%nat) (Some "b"))].
Proof.
  intros s.
  destruct (flush_isolates_listeners Example.quiet s
              (mkEventQueue [mkEventObject 7 (Some 100%nat) (Some "a");
                             mkEventObject 8 (Some 100%nat) (Some "b")] false) eq_refl)
    as [Hret Hcalls].
  split; [exact Hret|]. apply Hcalls.
  - intros f args s' id H. exact H.
  - intros e He. apply list_elem_of_In in He.
    destruct He as [<-|[<-|[]]]; vm_compute; by eexists.
Defined.

(** X5.  A cycle is always torn down: after
    [dispatchEventForResponderEventSystem] and after [processTimers],
    whether they return or throw, there is no current event queue, no
    current instance and no current timers.  With [enableEventAPI] off the
    dispatch does nothing at all. *)
Theorem cycles_are_torn_down {F} (responder : Instance → Responder)
    (responderFields : Responder → ReactEventResponder F)
    (call : F → Args → State F → Completion F unit)
    (IS_PASSIVE PASSIVE_NOT_SUPPORTED : Z)
    (topLevelType : string) (targetFiber : option Fiber) (nativeEvent : nat)
    (nativeEventTarget : Node) (flags : Z) (timers : TimeoutID) (s : State F) :
  let torn (s' : State F) :=
    currentEventQueue s' = None ∧ currentInstance s' = None ∧ currentTimers s' = None in
  torn (finalState (completion
    (dispatchEventForResponderEventSystem responder responderFields call IS_PASSIVE
       PASSIVE_NOT_SUPPORTED true topLevelType targetFiber nativeEvent
       nativeEventTarget flags s))) ∧
  torn (finalState (completion (processTimers call timers s))) ∧
  dispatchEventForResponderEventSystem responder responderFields call IS_PASSIVE
    PASSIVE_NOT_SUPPORTED false topLevelType targetFiber nativeEvent
    nativeEventTarget flags s
  = mkResult [] (Normal tt s).
Proof.
  intros torn. unfold torn. split; [|split; [|reflexivity]].
  - unfold dispatchEventForResponderEventSystem. rewrite run_bind.
    cbn [modify effects completion app]. unfold try_finally. cbn [effects completion].
    by destruct (completion _).
  - unfold processTimers. rewrite run_bind. cbn [get effects completion app].
    rewrite run_bind. cbn [modify effects completion app].
    unfold try_finally. cbn [effects completion]. by destruct (completion _).
Qed.

(** X6.  An event that no responder on the path reacts to and that no
    instance is registered for at the root calls nothing: no callback, no
    batching; the dispatch only ends the cycle it opened. *)
Theorem unhandled_event_calls_nothing {F} (responder : Instance → Responder)
    (responderFields : Responder → ReactEventResponder F)
    (call : F → Args → State F → Completion F unit)
    (IS_PASSIVE PASSIVE_NOT_SUPPORTED : Z)
    (topLevelType : string) (targetFiber : option Fiber) (nativeEvent : nat)
    (nativeEventTarget : Node) (flags : Z) (s : State F) :
  getTargetEventResponderInstances responder responderFields topLevelType targetFiber s
    = [] →
  getRootEventResponderInstances topLevelType s = [] →
  dispatchEventForResponderEventSystem responder responderFields call IS_PASSIVE
    PASSIVE_NOT_SUPPORTED true topLevelType targetFiber nativeEvent
    nativeEventTarget flags s
  = mkResult [] (Normal tt (endCycle s)).
Proof.
  intros Htarget Hroot. unfold dispatchEventForResponderEventSystem.
  rewrite run_bind. cbn [modify effects completion app]. unfold try_finally.
  set (s1 := set_currentEventQueue (Some createEventQueue) s).
  assert (Hrun : (traverseAndHandleEventResponderInstances responder responderFields
                    call IS_PASSIVE PASSIVE_NOT_SUPPORTED topLevelType targetFiber
                    nativeEvent nativeEventTarget flags;; processEventQueue call) s1
                 = mkResult [] (Normal tt s1)).
  { change (?m;; ?k) with (m ≫= fun _ => k). rewrite run_bind.
    unfold traverseAndHandleEventResponderInstances. rewrite run_bind.
    cbn [get effects completion app].
    change (getTargetEventResponderInstances responder responderFields topLevelType
              targetFiber s1)
      with (getTargetEventResponderInstances responder responderFields topLevelType
              targetFiber s).
    rewrite Htarget. cbn [length]. rewrite bool_decide_false by lia.
    rewrite run_bind. cbn [mret M_ret ret effects completion app].
    rewrite run_bind. cbn [get effects completion app].
    change (getRootEventResponderInstances topLevelType s1)
      with (getRootEventResponderInstances topLevelType s).
    rewrite Hroot. reflexivity. }
  rewrite Hrun. reflexivity.
Qed.

Lemma unhandled_event_calls_nothing_witness :
  dispatchEventForResponderEventSystem Example.responder Example.responderFields
    Example.call 1 2 true "scroll" (Some Example.leaf) 0%nat 100%nat 0 Example.owned
  = mkResult [] (Normal tt (endCycle Example.owned)).
Proof.
  apply unhandled_event_calls_nothing; vm_compute; reflexivity.
Defined.

(** ** The traversal and the current instance *)

Section EnteredAsCurrent.
Context {F : Type}.
Variable responder : Instance → Responder.
Variable responderFields : Responder → ReactEventResponder F.
Variable call : F → Args → State F → Completion F unit.
Variables IS_PASSIVE PASSIVE_NOT_SUPPORTED : Z.
Hypothesis call_keeps_queue : keepsQueue call.
Implicit Types (s : State F).

Local Abbreviation queued := (fun s : State F => is_Some (currentEventQueue s)).

Lemma invoke_entered c i f args :
  phase_instance c = Some i →
  ensures (fun s => queued s ∧ currentInstance s = Some i) (invoke call c f args)
    enteredAsCurrent (fun _ => queued) queued.
Proof.
  intros Hc. apply ensures_invoke.
  - intros s [Hq Hi] j Hj. split; [congruence|]. split; [done | by rewrite Hi].
  - intros s [Hq Hi]. specialize (call_keeps_queue f args s Hq).
    by destruct (call f args s).
Qed.

Lemma targetPhase_entered handler callee ev (l : list Instance) (p : list Responder) :
  (∀ i, phase_instance (callee i) = Some i) →
  ensures queued (targetPhase responder responderFields call handler callee ev l p)
    enteredAsCurrent (fun _ => queued) queued.
Proof.
  intros Hcallee. revert p. induction l as [|i l IH]; intros p; simpl.
  - by apply ensures_ret.
  - destruct (_ && _); [by apply IH|].
    apply ensures_bind with (Q' := fun _ => queued); [|intros []; by apply IH].
    destruct (handler _) as [f|]; [|by apply ensures_ret].
    apply ensures_modify_bind with
      (P' := fun s => queued s ∧ currentInstance s = Some i); [done|].
    by apply invoke_entered.
Qed.

Lemma rootPhase_entered ev (l : list Instance) :
  ensures queued (rootPhase responder responderFields call ev l)
    enteredAsCurrent (fun _ => queued) queued.
Proof.
  unfold rootPhase. apply ensures_for_each. intros i _.
  destruct (onRootEvent _) as [f|]; [|by apply ensures_ret].
  apply ensures_modify_bind with
    (P' := fun s => queued s ∧ currentInstance s = Some i); [done|].
  by apply invoke_entered.
Qed.

Lemma traverse_entered topLevelType targetFiber nativeEvent nativeEventTarget flags :
  ensures queued
    (traverseAndHandleEventResponderInstances responder responderFields call
       IS_PASSIVE PASSIVE_NOT_SUPPORTED topLevelType targetFiber nativeEvent
       nativeEventTarget flags)
    enteredAsCurrent (fun _ => queued) queued.
Proof.
  unfold traverseAndHandleEventResponderInstances.
  apply ensures_bind with (Q' := fun _ => queued); [by apply ensures_get|].
  intros l. apply ensures_bind with (Q' := fun _ => queued).
  { change (ensures queued
      (if bool_decide (0 < length l)%nat
       then targetPhase responder responderFields call onEventCapture OnEventCapture
              (createResponderEvent IS_PASSIVE PASSIVE_NOT_SUPPORTED topLevelType
                 nativeEvent nativeEventTarget flags) (reverse l) [] ≫=
            (fun _ => targetPhase responder responderFields call onEvent OnEvent
               (createResponderEvent IS_PASSIVE PASSIVE_NOT_SUPPORTED topLevelType
                  nativeEvent nativeEventTarget flags) l [] ≫= (fun _ => mret tt))
       else mret tt) enteredAsCurrent (fun _ => queued) queued).
    case_bool_decide; [|by apply ensures_ret].
    apply ensures_bind with (Q' := fun _ => queued); [by apply targetPhase_entered|].
    intros _. apply ensures_bind with (Q' := fun _ => queued);
      [by apply targetPhase_entered | intros _; by apply ensures_ret]. }
  intros []. apply ensures_bind with (Q' := fun _ => queued); [by apply ensures_get|].
  intros l'. apply rootPhase_entered.
Qed.
End EnteredAsCurrent.

(** X7.  Every phase callback of a dispatch is entered with its own
    instance as the current instance and with a current event queue, so the
    context it is handed passes its validation, as long as the stored
    functions leave the current event queue in place. *)
Theorem phase_callbacks_are_entered_as_current {F} (responder : Instance → Responder)
    (responderFields : Responder → ReactEventResponder F)
    (call : F → Args → State F → Completion F unit)
    (IS_PASSIVE PASSIVE_NOT_SUPPORTED : Z) (enableEventAPI : bool)
    (topLevelType : string) (targetFiber : option Fiber) (nativeEvent : nat)
    (nativeEventTarget : Node) (flags : Z) (s : State F) :
  keepsQueue call →
  ∀ c entry i,
    Invoke c entry ∈ effects
      (dispatchEventForResponderEventSystem responder responderFields call IS_PASSIVE
         PASSIVE_NOT_SUPPORTED enableEventAPI topLevelType targetFiber nativeEvent
         nativeEventTarget flags s) →
    phase_instance c = Some i →
    currentInstance entry = Some i ∧
    validateResponderContext entry = mkResult [] (Normal tt entry).
Proof.
  intros Hkeep c entry i Hin Hc.
  assert (H : Forall enteredAsCurrent (effects
    (dispatchEventForResponderEventSystem responder responderFields call IS_PASSIVE
       PASSIVE_NOT_SUPPORTED enableEventAPI topLevelType targetFiber nativeEvent
       nativeEventTarget flags s))).
  { unfold dispatchEventForResponderEventSystem.
    destruct enableEventAPI; [|constructor].
    refine (proj1 ((_ : ensures (fun _ => True) _ enteredAsCurrent
                          (fun _ _ => True) (fun _ => True)) s I)).
    apply ensures_modify_bind with (P' := fun s => is_Some (currentEventQueue s));
      [by eexists|].
    apply ensures_try_finally with (Q' := fun _ _ => True) (R' := fun _ => True);
      [|done..].
    apply ensures_bind with (Q' := fun _ _ => True).
    - eapply ensures_weaken; [by apply traverse_entered|done..].
    - intros _. eapply ensures_weaken;
        [apply (processEventQueue_ensures call (fun c => phase_instance c = None));
         done|done| |done..].
      intros [c' entry'| | | | | |]; try done. simpl. intros Hnone j Hj. congruence. }
  rewrite Forall_forall in H. destruct (H _ Hin i Hc) as [Hi Hcycle].
  split; [done | by apply validate_inside].
Qed.

Lemma phase_callbacks_are_entered_as_current_witness :
  ∃ entry,
    head (effects
      (dispatchEventForResponderEventSystem Example.responder Example.responderFields
         Example.quiet 1 2 true "click" (Some Example.leaf) 0%nat 100%nat 0
         (@initialState Example.Fn)))
    = Some (Invoke (OnEventCapture 2%nat) entry) ∧
    currentInstance entry = Some 2%nat ∧
    validateResponderContext entry = mkResult [] (Normal tt entry).
Proof.
  eexists. split; [vm_compute; reflexivity|].
  apply (phase_callbacks_are_entered_as_current Example.responder Example.responderFields
           Example.quiet 1 2 true "click" (Some Example.leaf) 0%nat 100%nat 0
           (@initialState Example.Fn) (fun f args s H => H) (OnEventCapture 2%nat));
    [|reflexivity].
  apply list_elem_of_In. vm_compute. left. reflexivity.
Defined.

Lemma root_of_roots (l : list Instance) :
  omap (fun c => match c with OnRootEvent i => Some i | _ => None end)
    (map OnRootEvent l) = l.
Proof. induction l; simpl; [done | by f_equal]. Qed.

(** X8.  When no handler throws, a traversal calls the capture handlers
    first, then the bubble handlers, then the root handlers: the calls made
    are the capture calls followed by the bubble calls followed by the root
    calls. *)
Theorem phases_run_in_order {F} (responder : Instance → Responder)
    (responderFields : Responder → ReactEventResponder F)
    (call : F → Args → State F → Completion F unit)
    (IS_PASSIVE PASSIVE_NOT_SUPPORTED : Z)
    (topLevelType : string) (targetFiber : option Fiber) (nativeEvent : nat)
    (nativeEventTarget : Node) (flags : Z) (s : State F) :
  neverThrows call →
  let es := effects
    (traverseAndHandleEventResponderInstances responder responderFields call
       IS_PASSIVE PASSIVE_NOT_SUPPORTED topLevelType targetFiber nativeEvent
       nativeEventTarget flags s) in
  callees es
  = map OnEventCapture (capture_invocations es)
    ++ map OnEvent (bubble_invocations es)
    ++ map OnRootEvent (root_invocations es).
Proof.
  intros Hcall es. unfold capture_invocations, bubble_invocations, root_invocations, es.
  destruct (traverse_callees responder responderFields call IS_PASSIVE
              PASSIVE_NOT_SUPPORTED Hcall topLevelType targetFiber nativeEvent
              nativeEventTarget flags s) as [roots ->].
  rewrite !omap_app, capture_of_captures, bubble_of_bubbles, root_of_roots.
  rewrite !omap_none by done. by rewrite !app_nil_r.
Qed.

Lemma phases_run_in_order_witness :
  let es := effects
    (traverseAndHandleEventResponderInstances Example.responder Example.responderFields
       Example.quiet 1 2 "click" (Some Example.leaf) 0%nat 100%nat 0
       (set_currentOwner None Example.owned)) in
  callees es
  = map OnEventCapture (capture_invocations es)
    ++ map OnEvent (bubble_invocations es)
    ++ map OnRootEvent (root_invocations es).
Proof.
  apply phases_run_in_order. intros f args s. reflexivity.
Defined.

(** ** Requesting and releasing ownership *)

Section OwnershipFacts.
Context {F : Type}.
Variable responder : Instance → Responder.
Variable responderFields : Responder → ReactEventResponder F.
Variable call : F → Args → State F → Completion F unit.
Implicit Types (s : State F).

Local Abbreviation trigger := (triggerOwnershipListeners responder responderFields call).
Local Abbreviation request := (requestOwnership responder responderFields call).
Local Abbreviation release := (releaseOwnership responder responderFields call).

(** What [requestOwnership] is once the context has been validated. *)
Lemma request_inCycle s :
  inCycle s →
  request s =
  if bool_decide (currentOwner s ≠ None)
  then mkResult [] (Normal false s)
  else
    let t := trigger (set_currentOwner (currentInstance s) s) in
    mkResult (effects t)
      match completion t with
      | Normal _ s' => Normal true s'
      | Throw e s' => Throw e s'
      end.
Proof.
  intros Hin. unfold requestOwnership.
  rewrite run_bind, (validate_inside s Hin). cbn [effects completion app].
  rewrite run_bind. cbn [get effects completion app].
  case_bool_decide; [done|].
  rewrite run_bind. cbn [get effects completion app].
  rewrite run_bind. cbn [modify effects completion app].
  rewrite run_bind.
  destruct (completion (trigger (set_currentOwner (currentInstance s) s))) as [[] s'|e s'];
    cbn [effects completion mret M_ret ret]; by rewrite ?app_nil_r.
Qed.

Lemma trigger_restores s :
  currentInstance (finalState (completion (trigger s))) = currentInstance s.
Proof.
  unfold triggerOwnershipListeners. rewrite run_bind. cbn [get effects completion app].
  rewrite run_bind. cbn [get effects completion app].
  unfold try_finally. cbn [completion]. by destruct (completion _).
Qed.

Lemma trigger_keeps_owner s :
  keepsOwner call →
  currentOwner (finalState (completion (trigger s))) = currentOwner s.
Proof.
  intros Hkeep.
  assert (H : ensures (fun s' => currentOwner s' = currentOwner s) trigger
                (fun _ => True) (fun _ s' => currentOwner s' = currentOwner s)
                (fun s' => currentOwner s' = currentOwner s)).
  { unfold triggerOwnershipListeners.
    apply ensures_bind with (Q' := fun _ s' => currentOwner s' = currentOwner s);
      [by apply ensures_get|].
    intros l.
    apply ensures_bind with (Q' := fun _ s' => currentOwner s' = currentOwner s);
      [by apply ensures_get|].
    intros previous.
    apply ensures_try_finally with (Q' := fun _ s' => currentOwner s' = currentOwner s)
      (R' := fun s' => currentOwner s' = currentOwner s); [|done..].
    apply ensures_for_each. intros i _.
    apply ensures_modify_bind with (P' := fun s' => currentOwner s' = currentOwner s);
      [done|].
    unfold invoke_defined. destruct (onOwnershipChange _) as [f|];
      [|by apply ensures_throw].
    apply ensures_invoke; [done|]. intros s' Hs'.
    specialize (Hkeep f NoArgs s'). destruct (call f NoArgs s'); simpl in *; congruence. }
  destruct (H s eq_refl) as [_ Hc]. by destruct (completion (trigger s)).
Qed.
End OwnershipFacts.

(** X9.  Ownership is exclusive.  Inside a cycle, [requestOwnership] while
    the slot is held (by whoever, the caller included) returns [false],
    notifies nobody and changes nothing.  While the slot is empty it returns
    [true] with the caller in the slot, after every listener has been
    notified in registration order (the listeners returning and leaving the
    slot alone). *)
Theorem requestOwnership_is_exclusive {F} (responder : Instance → Responder)
    (responderFields : Responder → ReactEventResponder F)
    (call : F → Args → State F → Completion F unit) (s : State F) :
  inCycle s →
  let r := requestOwnership responder responderFields call s in
  (is_Some (currentOwner s) → r = mkResult [] (Normal false s)) ∧
  (currentOwner s = None →
   neverThrows call → keepsOwner call →
   (∀ i, i ∈ ownershipChangeListeners s →
         is_Some (onOwnershipChange (responderFields (responder i)))) →
   ∃ s', completion r = Normal true s' ∧
         currentOwner s' = currentInstance s ∧
         callees (effects r) = map OnOwnershipChange (ownershipChangeListeners s)).
Proof.
  intros Hin r. unfold r. rewrite (request_inCycle responder responderFields call s Hin).
  split.
  - intros [o Ho]. rewrite bool_decide_true by congruence. done.
  - intros Hfree Hcall Hkeep Hl. rewrite bool_decide_false by (by intros []).
    set (s0 := set_currentOwner (currentInstance s) s).
    destruct (trigger_returns responder responderFields call s0 Hcall Hl)
      as (s' & Hc & _ & He).
    pose proof (trigger_keeps_owner responder responderFields call s0 Hkeep) as Ho.
    cbn [effects completion]. rewrite Hc in Ho |- *. exists s'. done.
Qed.

Lemma requestOwnership_is_exclusive_witness :
  requestOwnership Example.responder Example.responderFields Example.quiet
    Example.owned_inCycle
  = mkResult [] (Normal false Example.owned_inCycle) ∧
  ∃ s', completion (requestOwnership Example.responder Example.responderFields
                      Example.quiet (set_currentOwner None Example.owned_inCycle))
        = Normal true s' ∧
        currentOwner s' = Some 1%nat.
Proof.
  split.
  - apply (requestOwnership_is_exclusive Example.responder Example.responderFields
             Example.quiet Example.owned_inCycle); [split; by eexists | by eexists].
  - destruct (requestOwnership_is_exclusive Example.responder Example.responderFields
                Example.quiet (set_currentOwner None Example.owned_inCycle))
      as [_ H]; [split; by eexists|].
    destruct H as (s' & Hc & Ho & _).
    + reflexivity.
    + intros f args s. reflexivity.
    + intros f args s. reflexivity.
    + intros i Hi. vm_compute in Hi. apply list_elem_of_In in Hi.
      destruct Hi as [<-|[]]. by eexists.
    + exists s'. split; [exact Hc | exact Ho].
Defined.

(** X10.  Asking for ownership or giving it up does not change who is
    acting: after [requestOwnership] and after [releaseOwnership] the
    current instance is the one it was, whatever the notified listeners did
    and also when one of them threw. *)
Theorem ownership_calls_keep_the_current_instance {F} (responder : Instance → Responder)
    (responderFields : Responder → ReactEventResponder F)
    (call : F → Args → State F → Completion F unit) (s : State F) :
  inCycle s →
  currentInstance (finalState (completion
    (requestOwnership responder responderFields call s))) = currentInstance s ∧
  currentInstance (finalState (completion
    (releaseOwnership responder responderFields call s))) = currentInstance s.
Proof.
  intros Hin.
  rewrite (request_inCycle responder responderFields call s Hin),
          (release_inCycle responder responderFields call s Hin).
  split; case_bool_decide; try done; cbn [completion].
  - pose proof (trigger_restores responder responderFields call
                  (set_currentOwner (currentInstance s) s)) as Hr.
    by destruct (completion _).
  - pose proof (trigger_restores responder responderFields call
                  (set_currentOwner None s)) as Hr.
    by destruct (completion _).
Qed.

Lemma ownership_calls_keep_the_current_instance_witness :
  currentInstance (finalState (completion
    (requestOwnership Example.responder Example.responderFields Example.call
       (set_currentOwner None Example.owned_inCycle)))) = Some 1%nat ∧
  currentInstance (finalState (completion
    (releaseOwnership Example.responder Example.responderFields Example.call
       Example.owned_inCycle))) = Some 1%nat.
Proof.
  split.
  - apply (ownership_calls_keep_the_current_instance Example.responder
             Example.responderFields Example.call
             (set_currentOwner None Example.owned_inCycle)).
    split; by eexists.
  - apply (ownership_calls_keep_the_current_instance Example.responder
             Example.responderFields Example.call Example.owned_inCycle).
    split; by eexists.
Defined.

(** X11.  When ownership changes through the context, every listener is
    notified as the current instance and inside the caller's cycle: its
    [hasOwnership] returns, and says whether the listener holds the slot. *)
Theorem listeners_are_notified_inside_the_cycle {F} (responder : Instance → Responder)
    (responderFields : Responder → ReactEventResponder F)
    (call : F → Args → State F → Completion F unit) (s : State F) :
  inCycle s →
  keepsQueue call →
  ∀ i entry,
    Invoke (OnOwnershipChange i) entry
      ∈ effects (requestOwnership responder responderFields call s)
        ++ effects (releaseOwnership responder responderFields call s) →
    currentInstance entry = Some i ∧
    hasOwnership entry
    = mkResult [] (Normal (bool_decide (currentOwner entry = Some i)) entry).
Proof.
  intros Hin Hkeep i entry Hmem.
  assert (Hnot : ∀ s0, is_Some (currentEventQueue s0) →
            Forall notifiedInCycle
              (effects (triggerOwnershipListeners responder responderFields call s0))).
  { intros s0 H0. exact (proj1 (trigger_inCycle responder responderFields call Hkeep s0 H0)). }
  assert (H : Forall notifiedInCycle
                (effects (requestOwnership responder responderFields call s)
                 ++ effects (releaseOwnership responder responderFields call s))).
  { rewrite (request_inCycle responder responderFields call s Hin),
            (release_inCycle responder responderFields call s Hin).
    destruct Hin as [Hq _].
    apply Forall_app. split; case_bool_decide; try constructor; by apply Hnot. }
  rewrite Forall_forall in H. destruct (H _ Hmem) as [Hi Hcycle].
  split; [done|]. rewrite (hasOwnership_inCycle entry Hcycle). by rewrite Hi.
Qed.

Lemma listeners_are_notified_inside_the_cycle_witness :
  ∃ entry,
    effects (releaseOwnership Example.responder Example.responderFields
               Example.quiet Example.owned_inCycle)
    = [Invoke (OnOwnershipChange 3%nat) entry] ∧
    currentInstance entry = Some 3%nat ∧
    hasOwnership entry = mkResult [] (Normal false entry).
Proof.
  eexists. split; [vm_compute; reflexivity|].
  apply (listeners_are_notified_inside_the_cycle Example.responder
           Example.responderFields Example.quiet Example.owned_inCycle
           (conj (ex_intro _ _ eq_refl) (ex_intro _ _ eq_refl))
           (fun f args s H => H) 3%nat).
  apply list_elem_of_In. vm_compute. left. reflexivity.
Defined.

(** ** Timer groups firing *)

Section TimerGroups.
Context {F : Type}.
Variable call : F → Args → State F → Completion F unit.
Implicit Types (s : State F) (timer : ResponderTimer F) (f g : F) (d : Z).

Lemma timer_invocations_app (es1 es2 : list (Effect F)) :
  timer_invocations (es1 ++ es2) = timer_invocations es1 ++ timer_invocations es2.
Proof. unfold timer_invocations. by rewrite callees_app, omap_app. Qed.


(** The flush at the end of a cycle calls no timer. *)
Lemma flush_calls_no_timer s :
  timer_invocations (effects (processEventQueue call s)) = [].
Proof.
  destruct (processEventQueue_ensures call
              (fun c => match c with TimerFunc _ => False | _ => True end)
              (fun _ => I) s I) as [H _].
  induction H as [|e es He _ IH]; [done|].
  change (e :: es) with ([e] ++ es). rewrite timer_invocations_app, IH, app_nil_r.
  by destruct e as [[]| | | | | |].
Qed.


Lemma processTimers_run (timers : TimeoutID) s :
  let fired := for_each (omap_values (timers_of timers s)) (fireTimer call)
                 (set_currentEventQueue (Some createEventQueue) s) in
  effects (processTimers call timers s)
  = effects fired ++
    match completion fired with
    | Normal _ s1 => effects (processEventQueue call s1)
    | Throw _ _ => []
    end.
Proof.
  unfold processTimers. rewrite run_bind. cbn [get effects completion app].
  rewrite run_bind. cbn [modify effects completion app].
  unfold try_finally. cbn [effects]. rewrite run_bind.
  destruct (completion (for_each _ _ _)) as [[] s1|e s1]; cbn [effects];
    by rewrite ?app_nil_r.
Qed.

End TimerGroups.



(** X13.  Inside a cycle that has no timeout for the delay yet, two timers
    are scheduled with the same delay and the first is cancelled: one host
    timer is created and none is cleared.  When that host timer fires after
    the cycle, the cancelled timer is not called; the second one is, once,
    as the instance that scheduled it and inside a cycle, and no other
    timer is. *)
Theorem cancelled_timer_does_not_fire {F}
    (call : F → Args → State F → Completion F unit) (f g : F) (d : Z) (s : State F) :
  inCycle s →
  default ∅ (currentTimers s) !! d = None →
  let r := (t1 ← setTimeout f d;
            t2 ← setTimeout g d;
            clearTimeout t1;;
            mret (t1, t2)) s in
  let fired :=
    effects (processTimers call (nextTimeoutID s) (endCycle (finalState (completion r)))) in
  effects r = [HostSetTimeout (nextTimeoutID s) d] ∧
  timer_invocations fired = [S (nextSymbol s)] ∧
  ∃ entry rest,
    fired = Invoke (TimerFunc (S (nextSymbol s))) entry :: rest ∧
    currentInstance entry = currentInstance s ∧
    inCycle entry.
Proof.
  intros Hin Hnone r fired.
  destruct (same_delay_one_host_timer f g d s Hin Hnone) as (He & s' & Hc & Ht & _).
  fold r in He, Hc. split; [exact He|].
  unfold fired. rewrite Hc. cbn [finalState]. rewrite processTimers_run.
  assert (Hgroup : omap_values (timers_of (nextTimeoutID s) (endCycle s'))
                   = [mkTimer (currentInstance s) g (S (nextSymbol s))]).
  { change (timers_of (nextTimeoutID s) (endCycle s')) with (timers_of (nextTimeoutID s) s').
    by rewrite Ht. }
  rewrite Hgroup. simpl for_each. change (bind ?m ?k) with (m ≫= k). rewrite run_bind.
  set (s0 := set_currentEventQueue (Some createEventQueue) (endCycle s')).
  destruct (fireTimer_entry call (mkTimer (currentInstance s) g (S (nextSymbol s))) s0)
    as (Hf & _ & _).
  cbn [timer_id timer_instance] in Hf.
  set (rest := match completion _ with Normal _ s1 => _ | Throw _ _ => [] end).
  assert (Hrest : timer_invocations rest = []).
  { unfold rest. destruct (completion (fireTimer call _ s0)) as [[] s1|e s1];
      cbn [completion effects ret]; [|done].
    destruct (completion (ret tt s1)) eqn:Hr; [apply flush_calls_no_timer | done]. }
  assert (Heff : effects
            match completion (fireTimer call
                                (mkTimer (currentInstance s) g (S (nextSymbol s))) s0) with
            | Normal a s1 =>
                mkResult (effects (fireTimer call
                             (mkTimer (currentInstance s) g (S (nextSymbol s))) s0)
                          ++ effects (ret tt s1)) (completion (ret (F:=F) tt s1))
            | Throw e s1 =>
                mkResult (effects (fireTimer call
                             (mkTimer (currentInstance s) g (S (nextSymbol s))) s0))
                  (Throw e s1)
            end
          = [Invoke (TimerFunc (S (nextSymbol s)))
               (set_currentInstance (currentInstance s) s0)]).
  { destruct (completion (fireTimer call _ s0)); cbn [effects ret]; rewrite Hf; done. }
  change (for_each [] (fireTimer call)) with (ret (F:=F) tt) in *.
  rewrite Heff.
  split.
  - change ([?e] ++ ?es) with (e :: es).
    change (?e :: ?es) with ([e] ++ es). by rewrite timer_invocations_app, Hrest.
  - eexists _, _. split; [reflexivity|]. split; [done|].
    split; [by eexists | apply Hin].
Qed.

Lemma cancelled_timer_does_not_fire_witness :
  timer_invocations
    (effects (processTimers Example.call 0%nat
       (endCycle (finalState (completion
          ((t1 ← setTimeout Example.Noop 10;
            t2 ← setTimeout Example.Fail 10;
            clearTimeout t1;;
            mret (t1, t2)) Example.fresh_inCycle))))))
  = [1%nat].
Proof.
  apply (cancelled_timer_does_not_fire Example.call Example.Noop Example.Fail 10
           Example.fresh_inCycle).
  - split; by eexists.
  - reflexivity.
Defined.

(** ** Registering and removing root event types through the context *)

Section RootRegistration.
Context {F : Type}.
Implicit Types (s : State F) (i : Instance) (n : string)
  (types : list ReactEventResponderEventType).

Lemma elem_of_set_delete {A} `{EqDecision A} (x y : A) (l : list A) :
  y ∈ set_delete x l ↔ y ∈ l ∧ y ≠ x.
Proof.
  unfold set_delete. rewrite list_elem_of_In, filter_In, <- list_elem_of_In.
  rewrite negb_true_iff, bool_decide_eq_false. tauto.
Qed.

Lemma has_add_ne i n t s :
  n ≠ t → rootEventTypes_has i n (rootEventTypes_add i t s) = rootEventTypes_has i n s.
Proof.
  intros Hne. unfold rootEventTypes_has, rootEventTypes_add.
  cbn [instanceRootEventTypes set_instanceRootEventTypes].
  rewrite lookup_insert_eq. cbn [default from_option id].
  set (l := from_option id [] (instanceRootEventTypes s !! i)).
  destruct (set_has n l) eqn:Hl.
  - apply set_has_true, elem_of_set_add. right. by apply set_has_true.
  - apply set_has_false. rewrite elem_of_set_add. apply set_has_false in Hl.
    intros [?|?]; done.
Qed.

Lemma has_registerStatic_ne i n s x :
  n ≠ topLevelEventTypeOf x →
  rootEventTypes_has i n (registerStatic i s x) = rootEventTypes_has i n s.
Proof.
  intros Hne. unfold registerStatic.
  by rewrite has_registry_add, has_add_ne, has_rootEventTypes_ensure, has_registry_ensure.
Qed.

Lemma currentInstance_registerStatic i s x :
  currentInstance (registerStatic i s x) = currentInstance s.
Proof.
  unfold registerStatic.
  cbn [currentInstance registry_add set_rootEventTypesToEventComponentInstances
       rootEventTypes_add set_instanceRootEventTypes].
  by rewrite currentInstance_rootEventTypes_ensure, currentInstance_registry_ensure.
Qed.

(** On types the instance does not hold, and which are pairwise different,
    the loop of [addRootEventTypes] does what the static registration
    does. *)
Lemma add_loop_fresh types i s :
  currentInstance s = Some i →
  NoDup (map topLevelEventTypeOf types) →
  (∀ x, x ∈ types → rootEventTypes_has i (topLevelEventTypeOf x) s = false) →
  for_each types addRootEventType s
  = mkResult [] (Normal tt (fold_left (registerStatic i) types s)).
Proof.
  revert s. induction types as [|y types IH]; intros s Hi Hnd Hfresh; [done|].
  simpl in Hnd. apply NoDup_cons in Hnd as [Hy Hnd].
  simpl for_each. change (bind ?a ?k) with (a ≫= k).
  rewrite run_bind, (addRootEventType_run y i s Hi), (Hfresh y) by (by left).
  cbn [effects completion app fold_left].
  change (registry_add _ i (rootEventTypes_add i _ _)) with (registerStatic i s y).
  rewrite IH; [reflexivity | by rewrite currentInstance_registerStatic | done |].
  intros x Hx. rewrite has_registerStatic_ne; [apply Hfresh; by right|].
  intros Heq. apply Hy. rewrite <- Heq.
  apply list_elem_of_In, in_map, list_elem_of_In, Hx.
Qed.

Lemma unregister_has i n s x :
  rootEventTypes_has i n (unregister i s x) = true →
  rootEventTypes_has i n s = true ∧ n ≠ topLevelEventTypeOf x.
Proof.
  unfold unregister, rootEventTypes_has.
  replace (instanceRootEventTypes (registry_delete _ i _))
    with (instanceRootEventTypes (rootEventTypes_delete i (topLevelEventTypeOf x) s))
    by (unfold registry_delete; by destruct (_ !! _)).
  unfold rootEventTypes_delete.
  destruct (instanceRootEventTypes s !! i) as [ts|] eqn:Hts.
  - cbn [instanceRootEventTypes set_instanceRootEventTypes].
    rewrite lookup_insert_eq. cbn [default from_option id].
    rewrite !set_has_true, elem_of_set_delete. tauto.
  - rewrite ?Hts. cbn [default from_option id]. rewrite set_has_true.
    by intros ?%elem_of_nil.
Qed.

Lemma unregister_registry i n s x :
  i ∈ default [] (rootEventTypesToEventComponentInstances (unregister i s x) !! n) →
  i ∈ default [] (rootEventTypesToEventComponentInstances s !! n) ∧
  n ≠ topLevelEventTypeOf x.
Proof.
  unfold unregister.
  set (s0 := rootEventTypes_delete i (topLevelEventTypeOf x) s).
  assert (H0 : rootEventTypesToEventComponentInstances s0
               = rootEventTypesToEventComponentInstances s).
  { unfold s0, rootEventTypes_delete. by destruct (_ !! i). }
  unfold registry_delete. rewrite H0.
  destruct (rootEventTypesToEventComponentInstances s !! topLevelEventTypeOf x)
    as [l|] eqn:Hl.
  - cbn [rootEventTypesToEventComponentInstances
         set_rootEventTypesToEventComponentInstances].
    destruct (decide (topLevelEventTypeOf x = n)) as [<-|Hne].
    + rewrite lookup_insert_eq. cbn [default from_option id].
      rewrite elem_of_set_delete. by intros [_ ?].
    + rewrite lookup_insert_ne by done. intros H. split; [done | congruence].
  - rewrite H0. intros H. split; [done|]. intros ->. rewrite Hl in H.
    by apply elem_of_nil in H.
Qed.

Lemma unregister_context i s x :
  currentInstance (unregister i s x) = currentInstance s ∧
  currentEventQueue (unregister i s x) = currentEventQueue s.
Proof.
  unfold unregister, registry_delete, rootEventTypes_delete.
  destruct (instanceRootEventTypes s !! i);
    cbn [rootEventTypesToEventComponentInstances set_instanceRootEventTypes];
    by destruct (_ !! _).
Qed.

Lemma remove_loop types i s :
  currentInstance s = Some i →
  for_each types (fun rootEventType =>
    componentInstance ← theCurrentInstance;
    modify (rootEventTypes_delete componentInstance (topLevelEventTypeOf rootEventType));;
    modify (registry_delete (topLevelEventTypeOf rootEventType) componentInstance)) s
  = mkResult [] (Normal tt (fold_left (unregister i) types s)).
Proof.
  set (body := fun rootEventType : ReactEventResponderEventType => _).
  revert s. induction types as [|y types IH]; intros s Hi; [done|].
  assert (Hstep : body y s = mkResult [] (Normal tt (unregister i s y))).
  { unfold body, theCurrentInstance, mbind, M_bind, bind, get, modify.
    cbn [effects completion app]. rewrite Hi. reflexivity. }
  simpl for_each. change (bind ?a ?k) with (a ≫= k). rewrite run_bind, Hstep.
  cbn [effects completion app].
  rewrite IH by (by rewrite (proj1 (unregister_context i s y))). reflexivity.
Qed.

(** Inside a cycle [removeRootEventTypes] returns, without a call. *)
Lemma remove_run types i s :
  is_Some (currentEventQueue s) →
  currentInstance s = Some i →
  removeRootEventTypes types s
  = mkResult [] (Normal tt (fold_left (unregister i) types s)).
Proof.
  intros Hq Hi. unfold removeRootEventTypes.
  rewrite run_bind, validate_inside by (split; [done | by rewrite Hi]).
  cbn [effects completion app]. by rewrite (remove_loop types i s Hi).
Qed.

Lemma fold_unregister types i s :
  let s' := fold_left (unregister i) types s in
  currentInstance s' = currentInstance s ∧
  currentEventQueue s' = currentEventQueue s ∧
  (∀ n, rootEventTypes_has i n s' = true →
        rootEventTypes_has i n s = true ∧ n ∉ map topLevelEventTypeOf types) ∧
  (∀ n, i ∈ default [] (rootEventTypesToEventComponentInstances s' !! n) →
        i ∈ default [] (rootEventTypesToEventComponentInstances s !! n) ∧
        n ∉ map topLevelEventTypeOf types).
Proof.
  revert s. induction types as [|y types IH]; intros s s'.
  - unfold s'. simpl. repeat split; try done; by intros ?%elem_of_nil.
  - unfold s'. simpl fold_left.
    destruct (IH (unregister i s y)) as (Hi & Hq & Hhas & Hreg).
    destruct (unregister_context i s y) as [Hi0 Hq0].
    split; [congruence|]. split; [congruence|]. split.
    + intros n Hn. destruct (Hhas n Hn) as [H1 H2].
      destruct (unregister_has i n s y H1) as [H3 H4].
      split; [done|]. simpl. rewrite not_elem_of_cons. done.
    + intros n Hn. destruct (Hreg n Hn) as [H1 H2].
      destruct (unregister_registry i n s y H1) as [H3 H4].
      split; [done|]. simpl. rewrite not_elem_of_cons. done.
Qed.
(** [addRootEventTypes] on fresh, pairwise different types. *)
Lemma addRootEventTypes_fresh_run (doc : Node) types i s :
  is_Some (currentEventQueue s) →
  currentInstance s = Some i →
  NoDup (map topLevelEventTypeOf types) →
  (∀ x, x ∈ types → rootEventTypes_has i (topLevelEventTypeOf x) s = false) →
  addRootEventTypes doc types s
  = mkResult [ListenToResponderEventTypes types doc]
      (Normal tt (fold_left (registerStatic i) types s)).
Proof.
  intros Hq Hi Hnd Hfresh. unfold addRootEventTypes.
  rewrite run_bind, validate_inside by (split; [done | by rewrite Hi]).
  cbn [effects completion app]. rewrite run_bind. cbn [emit effects completion app].
  by rewrite (add_loop_fresh types i s Hi Hnd Hfresh).
Qed.
End RootRegistration.

(** X14.  Inside a cycle, [addRootEventTypes] with pairwise different types
    of which the current instance holds none returns, having asked the host
    once to listen to the types; it leaves the state that the static
    registration of the same types for the instance leaves.  Afterwards the
    instance is registered for each of the types and, ownership allowing, is
    among the root instances of an event of that type. *)
Theorem addRootEventTypes_registers {F} (doc : Node)
    (types : list ReactEventResponderEventType) (s : State F) (i : Instance) :
  is_Some (currentEventQueue s) →
  currentInstance s = Some i →
  NoDup (map topLevelEventTypeOf types) →
  (∀ x, x ∈ types → rootEventTypes_has i (topLevelEventTypeOf x) s = false) →
  let s' := finalState (completion (addRootEventTypesForComponentInstance i types s)) in
  addRootEventTypes doc types s
  = mkResult [ListenToResponderEventTypes types doc] (Normal tt s') ∧
  ∀ x, x ∈ types →
    registered i (topLevelEventTypeOf x) s' ∧
    (ownerAllows s' i = true →
     i ∈ getRootEventResponderInstances (topLevelEventTypeOf x) s').
Proof.
  intros Hq Hi Hnd Hfresh s'. unfold s'. rewrite static_run. cbn [completion finalState].
  split.
  - by apply addRootEventTypes_fresh_run.
  - intros x Hx.
    pose proof (fold_establishes i types s x Hx) as Hreg.
    split; [exact Hreg|]. intros Hallow.
    destruct Hreg as [_ Hin]. unfold getRootEventResponderInstances.
    destruct (rootEventTypesToEventComponentInstances _ !! topLevelEventTypeOf x)
      as [l|]; [|by apply elem_of_nil in Hin].
    apply list_elem_of_In, filter_In. split; [by apply list_elem_of_In | done].
Qed.

Lemma addRootEventTypes_registers_witness :
  addRootEventTypes 0%nat [EventTypeString "click"; EventTypeObject "keyup" None None]
    Example.fresh_inCycle
  = mkResult
      [ListenToResponderEventTypes
         [EventTypeString "click"; EventTypeObject "keyup" None None] 0%nat]
      (Normal tt
         (finalState (completion
            (addRootEventTypesForComponentInstance 1%nat
               [EventTypeString "click"; EventTypeObject "keyup" None None]
               Example.fresh_inCycle)))).
Proof.
  apply (addRootEventTypes_registers 0%nat
           [EventTypeString "click"; EventTypeObject "keyup" None None]
           Example.fresh_inCycle 1%nat).
  - by eexists.
  - reflexivity.
  - vm_compute. repeat constructor; intros H; apply list_elem_of_In in H; simpl in H;
      intuition discriminate.
  - intros x Hx. apply list_elem_of_In in Hx.
    destruct Hx as [<-|[<-|[]]]; vm_compute; reflexivity.
Defined.

(** X15.  Inside a cycle [removeRootEventTypes] returns for any types, held
    or not, and calls nothing; afterwards the current instance holds none of
    them and is not among the root instances of an event of any of them.
    Adding the same types (pairwise different) right after the removal
    therefore never meets a duplicate: it returns and registers them. *)
Theorem removeRootEventTypes_then_add {F} (doc : Node)
    (types : list ReactEventResponderEventType) (s : State F) (i : Instance) :
  is_Some (currentEventQueue s) →
  currentInstance s = Some i →
  ∃ s1,
    removeRootEventTypes types s = mkResult [] (Normal tt s1) ∧
    (∀ x, x ∈ types →
       rootEventTypes_has i (topLevelEventTypeOf x) s1 = false ∧
       i ∉ getRootEventResponderInstances (topLevelEventTypeOf x) s1) ∧
    (NoDup (map topLevelEventTypeOf types) →
     ∃ s2, addRootEventTypes doc types s1
           = mkResult [ListenToResponderEventTypes types doc] (Normal tt s2) ∧
           ∀ x, x ∈ types → registered i (topLevelEventTypeOf x) s2).
Proof.
  intros Hq Hi. exists (fold_left (unregister i) types s).
  destruct (fold_unregister types i s) as (Hi1 & Hq1 & Hhas & Hreg).
  split; [by apply remove_run|].
  assert (Hfresh : ∀ x, x ∈ types →
            rootEventTypes_has i (topLevelEventTypeOf x)
              (fold_left (unregister i) types s) = false).
  { intros x Hx. apply not_true_is_false. intros Htrue.
    destruct (Hhas _ Htrue) as [_ Hnot]. apply Hnot.
    apply list_elem_of_In, in_map, list_elem_of_In, Hx. }
  split.
  - intros x Hx. split; [by apply Hfresh|].
    unfold getRootEventResponderInstances. intros Hin.
    destruct (rootEventTypesToEventComponentInstances _ !! topLevelEventTypeOf x)
      as [l|] eqn:Hl; [|by apply elem_of_nil in Hin].
    apply list_elem_of_In, filter_In in Hin as [Hin%list_elem_of_In _].
    destruct (Hreg (topLevelEventTypeOf x)) as [_ Hnot]; [by rewrite Hl|].
    apply Hnot. apply list_elem_of_In, in_map, list_elem_of_In, Hx.
  - intros Hnd.
    eexists. split.
    + apply addRootEventTypes_fresh_run with (i := i);
        [by rewrite Hq1 | by rewrite Hi1 | done | done].
    + intros x Hx. by apply fold_establishes.
Qed.

Lemma removeRootEventTypes_then_add_witness :
  ∃ s1, removeRootEventTypes [EventTypeString "click"] Example.registered_inCycle
        = mkResult [] (Normal tt s1) ∧
        rootEventTypes_has 1%nat "click" s1 = false.
Proof.
  destruct (removeRootEventTypes_then_add 0%nat [EventTypeString "click"]
              Example.registered_inCycle 1%nat) as (s1 & Hrun & Hall & _);
    [by eexists | reflexivity |].
  exists s1. split; [exact Hrun|].
  apply (Hall (EventTypeString "click")). by left.
Defined.

(** ** Mounting and unmounting *)

Section Unmount.
Context {F : Type}.
Variable responder : Instance → Responder.
Variable responderFields : Responder → ReactEventResponder F.
Variable call : F → Args → State F → Completion F unit.
Implicit Types (s : State F) (i : Instance) (n : string).

Local Abbreviation trigger := (triggerOwnershipListeners responder responderFields call).
Local Abbreviation unmount := (unmountEventResponder responder responderFields call).

(** The part of [unmountEventResponder] that runs the [onUnmount] handler
    in a cycle of its own. *)
Local Abbreviation unmountHandler i :=
  (match onUnmount (responderFields (responder i)) with
   | Some onUnmount_ =>
       modify (set_currentEventQueue (Some createEventQueue));;
       modify (set_currentInstance (Some i));;
       try_finally (invoke call (OnUnmount i) onUnmount_ NoArgs) endCycle
   | None => mret tt
   end).

(** The part that gives up ownership. *)
Local Abbreviation unmountOwner i owner :=
  (if bool_decide (owner = Some i) then modify (set_currentOwner None);; trigger
   else mret tt).

(** The state the last two steps leave: the instance is taken out of the
    ownership listeners and out of the registry. *)
Local Abbreviation unmountCleanup i s :=
  (fold_left (fun s0 n => registry_delete n i s0)
     (default [] (instanceRootEventTypes s !! i))
     (if bool_decide (is_Some (onOwnershipChange (responderFields (responder i))))
      then set_ownershipChangeListeners (set_delete i (ownershipChangeListeners s)) s
      else s)).

Lemma registry_delete_elem i n t s :
  i ∈ default [] (rootEventTypesToEventComponentInstances (registry_delete t i s) !! n) →
  i ∈ default [] (rootEventTypesToEventComponentInstances s !! n) ∧ n ≠ t.
Proof.
  unfold registry_delete.
  destruct (rootEventTypesToEventComponentInstances s !! t) as [l|] eqn:Hl.
  - cbn [rootEventTypesToEventComponentInstances
         set_rootEventTypesToEventComponentInstances].
    destruct (decide (t = n)) as [<-|Hne].
    + rewrite lookup_insert_eq. cbn [default from_option id].
      rewrite elem_of_set_delete. by intros [_ ?].
    + rewrite lookup_insert_ne by done. intros H. split; [done | congruence].
  - intros H. split; [done|]. intros ->. rewrite Hl in H. by apply elem_of_nil in H.
Qed.

Lemma registry_delete_frame t i s :
  ownershipChangeListeners (registry_delete t i s) = ownershipChangeListeners s ∧
  instanceRootEventTypes (registry_delete t i s) = instanceRootEventTypes s.
Proof. unfold registry_delete. by destruct (_ !! t). Qed.

Lemma fold_registry_delete (ns : list string) i s :
  let s' := fold_left (fun s0 n => registry_delete n i s0) ns s in
  ownershipChangeListeners s' = ownershipChangeListeners s ∧
  instanceRootEventTypes s' = instanceRootEventTypes s ∧
  ∀ n, i ∈ default [] (rootEventTypesToEventComponentInstances s' !! n) →
       i ∈ default [] (rootEventTypesToEventComponentInstances s !! n) ∧ n ∉ ns.
Proof.
  revert s. induction ns as [|t ns IH]; intros s s'.
  - unfold s'. simpl. repeat split; try done. by intros ?%elem_of_nil.
  - unfold s'. simpl fold_left.
    destruct (IH (registry_delete t i s)) as (Hl & Hr & Hreg).
    destruct (registry_delete_frame t i s) as [Hl0 Hr0].
    split; [congruence|]. split; [congruence|].
    intros n Hn. destruct (Hreg n Hn) as [H1 H2].
    destruct (registry_delete_elem i n t s H1) as [H3 H4].
    split; [done|]. rewrite not_elem_of_cons. done.
Qed.

Lemma unmount_run i s :
  unmount i s =
  let r1 := unmountHandler i s in
  match completion r1 with
  | Throw e s1 => mkResult (effects r1) (Throw e s1)
  | Normal _ s1 =>
      let r2 := unmountOwner i (currentOwner s1) s1 in
      match completion r2 with
      | Throw e s2 => mkResult (effects r1 ++ effects r2) (Throw e s2)
      | Normal _ s2 =>
          mkResult (effects r1 ++ effects r2) (Normal tt (unmountCleanup i s2))
      end
  end.
Proof.
  assert (Htail : ∀ s0,
    ((if bool_decide (is_Some (onOwnershipChange (responderFields (responder i)))) then
        modify (fun s => set_ownershipChangeListeners
                  (set_delete i (ownershipChangeListeners s)) s)
      else mret tt);;
     rootEventTypesSet ← get (fun s => instanceRootEventTypes s !! i);
     match rootEventTypesSet with
     | Some rootEventTypes =>
         for_each rootEventTypes (fun topLevelEventType =>
           modify (registry_delete topLevelEventType i))
     | None => mret tt
     end) s0 = mkResult [] (Normal tt (unmountCleanup i s0))).
  { intros s0.
    assert (Hloop : ∀ ns s3,
      for_each ns (fun topLevelEventType => modify (registry_delete topLevelEventType i)) s3
      = mkResult [] (Normal tt (fold_left (fun s4 n => registry_delete n i s4) ns s3))).
    { induction ns as [|t ns IH]; intros s3; [done|].
      simpl for_each. change (bind ?a ?k) with (a ≫= k). rewrite run_bind.
      cbn [modify effects completion app]. by rewrite IH. }
    rewrite run_bind. case_bool_decide; cbn [modify mret M_ret ret effects completion app];
      rewrite run_bind; cbn [get effects completion app
                             instanceRootEventTypes set_ownershipChangeListeners];
      (destruct (instanceRootEventTypes s0 !! i) as [ns|];
       [by rewrite Hloop | done]). }
  unfold unmountEventResponder. rewrite run_bind. cbn zeta.
  destruct (completion (unmountHandler i s)) as [[] s1|e s1]; [|done].
  rewrite run_bind. cbn [get effects completion app].
  rewrite run_bind.
  destruct (completion (unmountOwner i (currentOwner s1) s1)) as [[] s2|e s2];
    cbn [effects completion]; [|done].
  rewrite Htail. cbn [effects completion]. by rewrite !app_nil_r.
Qed.

Lemma trigger_callees s :
  Forall (onCallees (fun c => ∃ j, c = OnOwnershipChange j)) (effects (trigger s)).
Proof.
  refine (proj1 ((_ : ensures (fun _ => True) trigger _ (fun _ _ => True)
                        (fun _ => True)) s I)).
  unfold triggerOwnershipListeners.
  apply ensures_get_bind. intros l. apply ensures_get_bind. intros previous.
  apply ensures_try_finally with (Q' := fun _ _ => True) (R' := fun _ => True); [|done..].
  apply ensures_weaken with (P' := fun _ => True)
    (E' := onCallees (fun c => ∃ j, c = OnOwnershipChange j))
    (Q' := fun _ _ => True) (R' := fun _ => True); [|done..].
  apply ensures_for_each. intros j _.
  apply ensures_modify_bind with (P' := fun _ => True); [done|].
  unfold invoke_defined. destruct (onOwnershipChange _) as [f|];
    [|by apply ensures_throw].
  apply ensures_invoke; [by eexists|]. intros s' _. by destruct (call f NoArgs s').
Qed.
Lemma unmountHandler_effects i s :
  effects (unmountHandler i s)
  = match onUnmount (responderFields (responder i)) with
    | Some _ => [Invoke (OnUnmount i)
                   (set_currentInstance (Some i)
                      (set_currentEventQueue (Some createEventQueue) s))]
    | None => []
    end.
Proof. by destruct (onUnmount _). Qed.

Lemma unmount_effects i s :
  ∃ rest, effects (unmount i s) = effects (unmountHandler i s) ++ rest ∧
          Forall (onCallees (fun c => ∃ j, c = OnOwnershipChange j)) rest.
Proof.
  rewrite unmount_run. cbn zeta.
  destruct (completion (unmountHandler i s)) as [[] s1|e s1].
  - exists (effects (unmountOwner i (currentOwner s1) s1)). split.
    + by destruct (completion (unmountOwner i (currentOwner s1) s1)).
    + case_bool_decide; [|constructor].
      rewrite run_bind. cbn [modify effects completion app]. apply trigger_callees.
  - exists []. split; [by rewrite app_nil_r | constructor].
Qed.
End Unmount.

(** X16.  When [unmountEventResponder] returns, the instance has been
    cleaned up, whatever the handlers called on the way did: an instance
    whose responder listens to ownership changes is no longer among the
    ownership listeners, and the instance is not among the root instances
    of an event of any type it holds in its [rootEventTypes]. *)
Theorem unmount_cleans_up {F} (responder : Instance → Responder)
    (responderFields : Responder → ReactEventResponder F)
    (call : F → Args → State F → Completion F unit)
    (i : Instance) (s s' : State F) :
  completion (unmountEventResponder responder responderFields call i s) = Normal tt s' →
  (is_Some (onOwnershipChange (responderFields (responder i))) →
   i ∉ ownershipChangeListeners s') ∧
  (∀ n, rootEventTypes_has i n s' = true → i ∉ getRootEventResponderInstances n s').
Proof.
  rewrite unmount_run. cbn zeta.
  match goal with
  | |- context [match completion ?r with _ => _ end] =>
      destruct (completion r) as [[] s1|e s1]; [|done]
  end.
  match goal with
  | |- context [match completion ?r with _ => _ end] =>
      destruct (completion r) as [[] s2|e s2]; [|done]
  end.
  cbn [completion]. intros [= <-].
  set (s3 := if bool_decide _ then _ else s2).
  destruct (fold_registry_delete (default [] (instanceRootEventTypes s2 !! i)) i s3)
    as (Hl & Hr & Hreg).
  assert (Hr3 : instanceRootEventTypes s3 = instanceRootEventTypes s2).
  { unfold s3. by case_bool_decide. }
  split.
  - intros Hdecl. rewrite Hl. unfold s3. rewrite bool_decide_true by done.
    cbn [ownershipChangeListeners set_ownershipChangeListeners].
    rewrite elem_of_set_delete. by intros [_ ?].
  - intros n Hn Hin. unfold rootEventTypes_has in Hn. rewrite Hr, Hr3 in Hn.
    apply set_has_true in Hn.
    unfold getRootEventResponderInstances in Hin.
    destruct (rootEventTypesToEventComponentInstances _ !! n) as [l|] eqn:Hbucket;
      [|by apply elem_of_nil in Hin].
    apply list_elem_of_In, filter_In in Hin as [Hin%list_elem_of_In _].
    destruct (Hreg n) as [_ Hnot]; [by rewrite Hbucket | done].
Qed.

Lemma unmount_cleans_up_witness :
  ∃ s', completion (unmountEventResponder Example.responder Example.responderFields
                      Example.quiet 3%nat Example.owned) = Normal tt s' ∧
        3%nat ∉ ownershipChangeListeners s'.
Proof.
  eexists. split; [vm_compute; reflexivity|].
  refine (proj1 (unmount_cleans_up Example.responder Example.responderFields
                   Example.quiet 3%nat Example.owned _ _) _).
  - vm_compute. reflexivity.
  - vm_compute. by eexists.
Defined.

(** X17.  [unmountEventResponder] runs [onUnmount], when the responder has
    one, first, as the current instance and in a cycle of its own; that
    cycle's queue is never flushed: the only functions an unmount calls are
    the [onUnmount] handler of the instance and ownership listeners, so an
    event that [onUnmount] emits reaches no listener. *)
Theorem unmount_delivers_no_event {F} (responder : Instance → Responder)
    (responderFields : Responder → ReactEventResponder F)
    (call : F → Args → State F → Completion F unit)
    (i : Instance) (s : State F) :
  let es := effects (unmountEventResponder responder responderFields call i s) in
  (is_Some (onUnmount (responderFields (responder i))) →
   ∃ rest, es = Invoke (OnUnmount i)
                  (set_currentInstance (Some i)
                     (set_currentEventQueue (Some createEventQueue) s)) :: rest) ∧
  (∀ c entry, Invoke c entry ∈ es → c = OnUnmount i ∨ ∃ j, c = OnOwnershipChange j).
Proof.
  intros es. unfold es.
  destruct (unmount_effects responder responderFields call i s) as (rest & -> & Hrest).
  rewrite unmountHandler_effects. split.
  - intros [f Hf]. rewrite Hf. by eexists.
  - intros c entry [Hin|Hin]%elem_of_app.
    + destruct (onUnmount _); [|by apply elem_of_nil in Hin].
      apply list_elem_of_singleton in Hin as [= -> _]. by left.
    + right. rewrite Forall_forall in Hrest. exact (Hrest _ Hin).
Qed.

Lemma unmount_delivers_no_event_witness :
  ∃ rest,
    effects (unmountEventResponder Example.responder Example.responderFields
               Example.call 4%nat Example.owned_by_4)
    = Invoke (OnUnmount 4%nat)
        (set_currentInstance (Some 4%nat)
           (set_currentEventQueue (Some createEventQueue) Example.owned_by_4)) :: rest.
Proof.
  apply (unmount_delivers_no_event Example.responder Example.responderFields
           Example.call 4%nat Example.owned_by_4).
  vm_compute. by eexists.
Defined.

(** X18.  Mounting an instance whose responder has no [onOwnershipChange]
    changes nothing.  Mounting one that has it makes the instance an
    ownership listener, once: a second mount changes nothing, and the next
    ownership change notifies the listeners there were, then the instance
    unless it was one of them. *)
Theorem mounted_responder_is_notified {F} (responder : Instance → Responder)
    (responderFields : Responder → ReactEventResponder F)
    (call : F → Args → State F → Completion F unit) (i : Instance) (s : State F) :
  let mount := mountEventResponder responder responderFields i in
  (onOwnershipChange (responderFields (responder i)) = None →
   mount s = mkResult [] (Normal tt s)) ∧
  (is_Some (onOwnershipChange (responderFields (responder i))) →
   ∃ s1, mount s = mkResult [] (Normal tt s1) ∧
         mount s1 = mkResult [] (Normal tt s1) ∧
         ownershipChangeListeners s1 = set_add i (ownershipChangeListeners s) ∧
         (inCycle s → currentOwner s = None → neverThrows call →
          (∀ j, j ∈ ownershipChangeListeners s →
                is_Some (onOwnershipChange (responderFields (responder j)))) →
          callees (effects (requestOwnership responder responderFields call s1))
          = map OnOwnershipChange (set_add i (ownershipChangeListeners s)))).
Proof.
  intros mount. unfold mount, mountEventResponder. split.
  - intros Hnone. rewrite Hnone. rewrite bool_decide_false; [done|]. by intros [? ?].
  - intros Hdecl. rewrite bool_decide_true by done.
    eexists. split; [reflexivity|]. split; [|split; [reflexivity|]].
    + unfold modify. cbn [ownershipChangeListeners set_ownershipChangeListeners].
      rewrite set_add_idemp. by destruct s.
    + intros Hin Hfree Hcall Hl.
      set (s1 := set_ownershipChangeListeners _ s).
      rewrite (request_inCycle responder responderFields call s1 Hin).
      rewrite bool_decide_false by (intros Hne; by apply Hne).
      cbn [effects].
      destruct (trigger_returns responder responderFields call
                  (set_currentOwner (currentInstance s1) s1) Hcall)
        as (s' & _ & _ & He); [|exact He].
      intros j. cbn [ownershipChangeListeners set_currentOwner s1
                     set_ownershipChangeListeners].
      rewrite elem_of_set_add. intros [->|Hj]; [done | by apply Hl].
Qed.

Lemma mounted_responder_is_notified_witness :
  callees (effects
    (requestOwnership Example.responder Example.responderFields Example.quiet
       (finalState (completion
          (mountEventResponder Example.responder Example.responderFields 3%nat
             Example.fresh_inCycle)))))
  = [OnOwnershipChange 3%nat].
Proof.
  destruct (proj2 (mounted_responder_is_notified Example.responder Example.responderFields
                     Example.quiet 3%nat Example.fresh_inCycle))
    as (s1 & Hrun & _ & _ & Hcalls).
  - vm_compute. by eexists.
  - rewrite Hrun. cbn [completion finalState]. rewrite Hcalls.
    + reflexivity.
    + split; by eexists.
    + reflexivity.
    + intros f args s. reflexivity.
    + intros j Hj. vm_compute in Hj. by apply elem_of_nil in Hj.
Defined.

(** ** Queries on the fiber tree *)

Section TreeQueries.
Context {F : Type}.
Variable responder : Instance → Responder.
Variable responderFields : Responder → ReactEventResponder F.
Variable getClosestInstanceFromNode : Node → option Fiber.
Implicit Types (s : State F) (i : Instance) (n : string).

Lemma getTargetEventTypes_acc (types : list ReactEventResponderEventType)
    (acc : list string) n :
  n ∈ fold_left (fun cachedSet eventType =>
                   set_add (topLevelEventTypeOf eventType) cachedSet) types acc
  ↔ n ∈ acc ∨ n ∈ map topLevelEventTypeOf types.
Proof.
  revert acc. induction types as [|x types IH]; intros acc; simpl.
  - rewrite elem_of_nil. tauto.
  - rewrite IH, elem_of_set_add, elem_of_cons. tauto.
Qed.

Lemma getTargetEventTypes_elem (types : list ReactEventResponderEventType) n :
  n ∈ getTargetEventTypes types ↔ n ∈ map topLevelEventTypeOf types.
Proof.
  unfold getTargetEventTypes. rewrite getTargetEventTypes_acc, elem_of_nil. tauto.
Qed.

Lemma stateNode_is_true (node : Fiber) i :
  stateNode_is node (Some i) = true ↔ fiber_kind node = EventComponentFiber i.
Proof.
  unfold stateNode_is. destruct (fiber_kind node); try (split; [done | discriminate]).
  rewrite bool_decide_eq_true. split; [by intros -> | by intros [= ->]].
Qed.

Lemma target_instances_elem n (targetFiber : option Fiber) s i :
  i ∈ getTargetEventResponderInstances responder responderFields n targetFiber s
  ↔ (∃ node, node ∈ pathFrom targetFiber ∧ fiber_kind node = EventComponentFiber i) ∧
    ownerAllows s i = true ∧
    n ∈ map topLevelEventTypeOf (targetEventTypes (responderFields (responder i))).
Proof.
  unfold getTargetEventResponderInstances.
  rewrite list_elem_of_In, in_flat_map. split.
  - intros (node & Hnode%list_elem_of_In & Hi).
    destruct (fiber_kind node) as [j| | |] eqn:Hk; try done.
    destruct (ownerAllows s j) eqn:Ha; [|done].
    destruct (set_has n _) eqn:Hn; [|done].
    destruct Hi as [<-|[]].
    split; [by exists node|]. split; [done|].
    by apply getTargetEventTypes_elem, set_has_true.
  - intros ((node & Hnode & Hk) & Ha & Hn).
    exists node. split; [by apply list_elem_of_In|].
    rewrite Hk, Ha.
    rewrite (proj2 (set_has_true _ _) (proj2 (getTargetEventTypes_elem _ _) Hn)).
    by left.
Qed.
End TreeQueries.

(** X19.  Who takes part in an event.  An instance is among the target
    instances of an event exactly when its event component is on the return
    path of the target fiber, its responder lists the event's type among
    its target event types, and the ownership slot is empty or held by it;
    it is among the root instances exactly when it is registered in the
    registry for the type and the slot is empty or held by it. *)
Theorem who_takes_part_in_an_event {F} (responder : Instance → Responder)
    (responderFields : Responder → ReactEventResponder F)
    (n : string) (targetFiber : option Fiber) (s : State F) (i : Instance) :
  (i ∈ getTargetEventResponderInstances responder responderFields n targetFiber s
   ↔ (∃ node, node ∈ pathFrom targetFiber ∧ fiber_kind node = EventComponentFiber i) ∧
     ownerAllows s i = true ∧
     n ∈ map topLevelEventTypeOf (targetEventTypes (responderFields (responder i)))) ∧
  (i ∈ getRootEventResponderInstances n s
   ↔ i ∈ default [] (rootEventTypesToEventComponentInstances s !! n) ∧
     ownerAllows s i = true).
Proof.
  split; [apply target_instances_elem|].
  unfold getRootEventResponderInstances.
  destruct (rootEventTypesToEventComponentInstances s !! n) as [l|];
    cbn [default from_option id].
  - by rewrite list_elem_of_In, filter_In, <- list_elem_of_In.
  - rewrite elem_of_nil. tauto.
Qed.

(** X20.  A responder that takes part in the target phases of an event
    finds the event's target within its event component: for an instance
    among the target instances of the fiber of a node, in a cycle in which
    that instance is current, [isTargetWithinEventComponent] of the node
    returns [true], and changes nothing. *)
Theorem responder_finds_its_target {F} (responder : Instance → Responder)
    (responderFields : Responder → ReactEventResponder F)
    (getClosestInstanceFromNode : Node → option Fiber)
    (n : string) (target : Node) (i : Instance) (s s' : State F) :
  i ∈ getTargetEventResponderInstances responder responderFields n
        (getClosestInstanceFromNode target) s →
  is_Some (currentEventQueue s') →
  currentInstance s' = Some i →
  isTargetWithinEventComponent getClosestInstanceFromNode (Some target) s'
  = mkResult [] (Normal true s').
Proof.
  intros Hi Hq Hcur.
  apply target_instances_elem in Hi as ((node & Hnode & Hk) & _ & _).
  unfold isTargetWithinEventComponent.
  rewrite run_bind, validate_inside by (split; [done | by rewrite Hcur]).
  cbn [effects completion app]. rewrite run_bind. cbn [get effects completion app].
  rewrite Hcur. cbn [mret M_ret ret].
  replace (existsb _ _) with true; [done|].
  symmetry. apply existsb_exists. exists node.
  split; [by apply list_elem_of_In | by apply stateNode_is_true].
Qed.

Lemma responder_finds_its_target_witness :
  isTargetWithinEventComponent Example.getClosestInstanceFromNode (Some 100%nat)
    Example.fresh_inCycle
  = mkResult [] (Normal true Example.fresh_inCycle).
Proof.
  apply (responder_finds_its_target Example.responder Example.responderFields
           Example.getClosestInstanceFromNode "click" 100%nat 1%nat
           (@initialState Example.Fn) Example.fresh_inCycle).
  - apply list_elem_of_In. vm_compute. left. reflexivity.
  - by eexists.
  - reflexivity.
Defined.

Section TreeTargets.
Context {F : Type}.
Variable getClosestInstanceFromNode : Node → option Fiber.
Variable Coord : Type.
Variable coord_gt : Coord → Coord → bool.
Variable elementFromPoint : Node → option (Coord → Coord → option Node).
Variable parentNode : Node → Node.
Variable getBoundingClientRect : Node → Coord * Coord * Coord * Coord.
Implicit Types (s : State F) (cur : option Instance).

Lemma upToInstance_elem cur (path : list Fiber) (node : Fiber) :
  node ∈ upToInstance cur path → node ∈ path ∧ stateNode_is node cur = false.
Proof.
  induction path as [|x path IH]; simpl; [by intros ?%elem_of_nil|].
  destruct (stateNode_is x cur) eqn:Hx; [by intros ?%elem_of_nil|].
  intros [->|Hin]%elem_of_cons.
  - split; [by left | done].
  - destruct (IH Hin). split; [by right | done].
Qed.

Lemma eventTargetOf_elem cur (node : Fiber) queryType queryKey (nd : Node) (p : option nat) :
  (nd, p) ∈ eventTargetOf cur node queryType queryKey →
  fiber_kind node = HostComponentFiber nd ∧
  ∃ child, child ∈ fiber_children node ∧
           child_tag child = EventTargetWorkTag ∧
           queryEventTarget child queryType queryKey = true ∧
           child_props child = p.
Proof.
  unfold eventTargetOf.
  destruct (List.find _ (fiber_children node)) as [child|] eqn:Hfind;
    [|by intros ?%elem_of_nil].
  apply find_some in Hfind as [Hin [Htag Hq]%andb_true_iff].
  apply bool_decide_eq_true in Htag.
  destruct (stateNode_is node cur); [by intros ?%elem_of_nil|].
  destruct (fiber_kind node) as [|  |nd'|]; try by intros ?%elem_of_nil.
  intros [= -> ->]%list_elem_of_singleton.
  split; [done|]. exists child. split; [by apply list_elem_of_In | done].
Qed.
End TreeTargets.

(** X21.  Inside a cycle [getEventTargetsFromTarget] returns without a
    call or a change.  Every entry it returns is a host component on the
    return path of the target's fiber, with the props of a child of that
    fiber that is an event target and matches the query; a fiber that is
    the current instance's own is never reported, and nothing is when the
    target has no fiber or its fiber is the current instance's. *)
Theorem event_targets_are_host_components {F}
    (getClosestInstanceFromNode : Node → option Fiber) (target : Node)
    (queryType : option nat) (queryKey : option string) (s : State F) :
  inCycle s →
  ∃ l, getEventTargetsFromTarget getClosestInstanceFromNode target queryType queryKey s
       = mkResult [] (Normal l s) ∧
    (∀ nd p, (nd, p) ∈ l →
       ∃ node child,
         node ∈ pathFrom (getClosestInstanceFromNode target) ∧
         stateNode_is node (currentInstance s) = false ∧
         fiber_kind node = HostComponentFiber nd ∧
         child ∈ fiber_children node ∧
         child_tag child = EventTargetWorkTag ∧
         queryEventTarget child queryType queryKey = true ∧
         child_props child = p) ∧
    (getClosestInstanceFromNode target = None → l = []) ∧
    (∀ f, getClosestInstanceFromNode target = Some f →
          stateNode_is f (currentInstance s) = true → l = []).
Proof.
  intros Hin. unfold getEventTargetsFromTarget.
  rewrite run_bind, (validate_inside s Hin). cbn [effects completion app].
  rewrite run_bind. cbn [get effects completion app mret M_ret ret].
  eexists. split; [reflexivity|]. split; [|split].
  - intros nd p Hmem.
    apply list_elem_of_In, in_concat in Hmem as (l0 & Hl0 & Hmem).
    apply in_map_iff in Hl0 as (node & <- & Hnode%list_elem_of_In).
    apply list_elem_of_In in Hmem.
    destruct (upToInstance_elem _ _ _ Hnode) as [Hpath Hnot].
    destruct (eventTargetOf_elem _ _ _ _ _ _ Hmem) as (Hk & child & Hc & Htag & Hq & Hp).
    by exists node, child.
  - by intros ->.
  - intros f -> Hf. cbn [pathFrom]. destruct f as [fid k ch r]. simpl.
    simpl in Hf. by rewrite Hf.
Qed.

Lemma event_targets_are_host_components_witness :
  ∃ l, getEventTargetsFromTarget Example.getClosestInstanceFromNode 100%nat None None
         Example.fresh_inCycle
       = mkResult [] (Normal l Example.fresh_inCycle).
Proof.
  destruct (event_targets_are_host_components Example.getClosestInstanceFromNode 100%nat
              None None Example.fresh_inCycle) as (l & Hrun & _).
  - split; by eexists.
  - exists l. exact Hrun.
Defined.

(** X22.  [isTargetWithinElement] compares fibers along the return path of
    the child's fiber: it answers [false] when either node has no fiber,
    [true] for a node with a fiber and itself, and [true] for a node and
    the node of its fiber's parent; it makes no call and changes nothing. *)
Theorem isTargetWithinElement_along_the_return_path {F}
    (getClosestInstanceFromNode : Node → option Fiber)
    (childTarget parentTarget : Node) (s : State F) :
  let within a b := isTargetWithinElement getClosestInstanceFromNode a b s in
  (getClosestInstanceFromNode childTarget = None ∨
   getClosestInstanceFromNode parentTarget = None →
   within childTarget parentTarget = mkResult [] (Normal false s)) ∧
  (is_Some (getClosestInstanceFromNode childTarget) →
   within childTarget childTarget = mkResult [] (Normal true s)) ∧
  (∀ child parent,
     getClosestInstanceFromNode childTarget = Some child →
     fiber_return child = Some parent →
     getClosestInstanceFromNode parentTarget = Some parent →
     within childTarget parentTarget = mkResult [] (Normal true s)).
Proof.
  intros within. unfold within, isTargetWithinElement. cbn [mret M_ret ret].
  split; [|split].
  - intros [->| ->]; [done|].
    replace (existsb _ _) with false; [done|].
    symmetry. apply not_true_is_false. by intros (x & _ & ?)%existsb_exists.
  - intros [f ->]. destruct f as [fid k ch r]. simpl.
    by rewrite bool_decide_true.
  - intros child parent -> Hret ->.
    replace (existsb _ _) with true; [done|].
    symmetry. apply existsb_exists. exists parent. split.
    + destruct child as [fid k ch r]. simpl in *. subst r. right.
      destruct parent. simpl. by left.
    + simpl. by rewrite bool_decide_true.
Qed.

Lemma isTargetWithinElement_along_the_return_path_witness :
  isTargetWithinElement Example.getClosestInstanceFromNode 100%nat 100%nat
    (@initialState Example.Fn)
  = mkResult [] (Normal true initialState).
Proof.
  apply (isTargetWithinElement_along_the_return_path Example.getClosestInstanceFromNode
           100%nat 100%nat (@initialState Example.Fn)).
  vm_compute. by eexists.
Defined.

(** X23.  Inside a cycle the queries of the context return, make no call
    and leave the state as it is: [hasOwnership],
    [isTargetWithinEventComponent], [isPositionWithinTouchHitTarget] and
    [getEventTargetsFromTarget].  [isPositionWithinTouchHitTarget] answers
    [true] only for a point whose element has a fiber whose parent is an
    event target, and which is not strictly inside the rectangle of the
    element's parent node. *)
Theorem context_queries_change_nothing {F}
    (getClosestInstanceFromNode : Node → option Fiber)
    (Coord : Type) (coord_gt : Coord → Coord → bool)
    (elementFromPoint : Node → option (Coord → Coord → option Node))
    (parentNode : Node → Node)
    (getBoundingClientRect : Node → Coord * Coord * Coord * Coord)
    (s : State F) :
  inCycle s →
  (∃ b, hasOwnership s = mkResult [] (Normal b s)) ∧
  (∀ target, ∃ b, isTargetWithinEventComponent getClosestInstanceFromNode target s
                  = mkResult [] (Normal b s)) ∧
  (∀ target queryType queryKey,
     ∃ l, getEventTargetsFromTarget getClosestInstanceFromNode target queryType queryKey s
          = mkResult [] (Normal l s)) ∧
  (∀ doc x y,
     ∃ b, isPositionWithinTouchHitTarget getClosestInstanceFromNode Coord coord_gt
            elementFromPoint parentNode getBoundingClientRect doc x y s
          = mkResult [] (Normal b s) ∧
          (b = true →
           ∃ efp target childFiber parentFiber,
             elementFromPoint doc = Some efp ∧
             efp x y = Some target ∧
             getClosestInstanceFromNode target = Some childFiber ∧
             fiber_return childFiber = Some parentFiber ∧
             fiber_tag parentFiber = EventTargetWorkTag ∧
             let '(rect_left, rect_top, rect_right, rect_bottom) :=
               getBoundingClientRect (parentNode target) in
             coord_gt x rect_left && coord_gt y rect_top
             && coord_gt rect_right x && coord_gt rect_bottom y = false)).
Proof.
  intros Hin. split; [|split; [|split]].
  - rewrite (hasOwnership_inCycle s Hin). by eexists.
  - intros target. unfold isTargetWithinEventComponent.
    rewrite run_bind, (validate_inside s Hin). cbn [effects completion app].
    destruct target; by eexists.
  - intros target queryType queryKey. unfold getEventTargetsFromTarget.
    rewrite run_bind, (validate_inside s Hin). by eexists.
  - intros doc x y. unfold isPositionWithinTouchHitTarget.
    rewrite run_bind, (validate_inside s Hin). cbn [effects completion app].
    destruct (elementFromPoint doc) as [efp|] eqn:Hefp; [|by exists false].
    destruct (efp x y) as [target|] eqn:Ht; [|by exists false].
    destruct (getClosestInstanceFromNode target) as [childFiber|] eqn:Hc;
      [|by exists false].
    destruct (fiber_return childFiber) as [parentFiber|] eqn:Hp; [|by exists false].
    case_bool_decide as Htag; [|by exists false].
    destruct (getBoundingClientRect (parentNode target)) as [[[l t] r] b] eqn:Hrect.
    destruct (coord_gt x l && coord_gt y t && coord_gt r x && coord_gt b y) eqn:Hinside;
      [by exists false|].
    exists true. split; [done|]. intros _.
    exists efp, target, childFiber, parentFiber. rewrite Hrect. done.
Qed.

Lemma context_queries_change_nothing_witness :
  ∃ b, hasOwnership Example.owned_inCycle = mkResult [] (Normal b Example.owned_inCycle).
Proof.
  apply (context_queries_change_nothing Example.getClosestInstanceFromNode Z Z.gtb
           (fun _ => None) (fun n => n) (fun _ => (0, 0, 0, 0)) Example.owned_inCycle).
  split; by eexists.
Defined.

(** ** More on timers *)

Section TimerFrames.
Context {F : Type}.
Implicit Types (s : State F) (f g : F) (d : Z).

(** What a timer that creates its host timer leaves alone. *)
Lemma setTimeout_new_frame f d s :
  inCycle s →
  default ∅ (currentTimers s) !! d = None →
  let s' := finalState (completion (setTimeout f d s)) in
  nextTimeoutID s' = S (nextTimeoutID s) ∧
  (∀ d', d' ≠ d → default ∅ (currentTimers s') !! d' = default ∅ (currentTimers s) !! d') ∧
  (∀ t, t ≠ nextTimeoutID s → timers_of t s' = timers_of t s).
Proof.
  intros Hin Hnone.
  unfold setTimeout, freshSymbol, host_setTimeout, mbind, M_bind, bind, modify, get, emit.
  rewrite (validate_inside s Hin). destruct Hin as [Hq Hi].
  destruct (currentTimers s) as [m|] eqn:Hct; state_simpl; rewrite ?Hct; state_simpl;
    rewrite Hnone; state_simpl; rewrite ?Hct; state_simpl;
    (split; [done|]); unfold timers_of; state_simpl;
    (split; [intros d' Hd'; by rewrite lookup_insert_ne by done
            |intros t Ht; by rewrite !lookup_insert_ne by done]).
Qed.

Lemma omap_delete_idemp {V} (k : Symbol) (m : list (Symbol * V)) :
  omap_delete k (omap_delete k m) = omap_delete k m.
Proof.
  unfold omap_delete. induction m as [|[k' v] m IH]; [done|]. simpl.
  destruct (negb (bool_decide (k' = k))) eqn:Hk; simpl; [|done].
  by rewrite Hk, IH.
Qed.
Lemma clearTimeout_state (token : Symbol) (t : TimeoutID) s :
  inCycle s →
  activeTimeouts s !! token = Some t →
  completion (clearTimeout token s)
  = Normal tt (set_timeoutTimers
                 (<[t := omap_delete token (timers_of t s)]> (timeoutTimers s)) s).
Proof.
  intros Hin Hsome.
  unfold clearTimeout, host_clearTimeout, mbind, M_bind, bind, modify, get, emit.
  rewrite (validate_inside s Hin). state_simpl. rewrite Hsome. state_simpl.
  by case_bool_decide.
Qed.
End TimerFrames.

(** X24.  Inside a cycle that has no timeout for either delay, two timers
    with different delays get a host timer each; each host timer's group
    holds its own timer, scheduled by the current instance. *)
Theorem different_delays_get_separate_host_timers {F} (f g : F) (d1 d2 : Z)
    (s : State F) :
  inCycle s →
  d1 ≠ d2 →
  default ∅ (currentTimers s) !! d1 = None →
  default ∅ (currentTimers s) !! d2 = None →
  let r := (t1 ← setTimeout f d1;
            t2 ← setTimeout g d2;
            mret (t1, t2)) s in
  effects r = [HostSetTimeout (nextTimeoutID s) d1;
               HostSetTimeout (S (nextTimeoutID s)) d2] ∧
  ∃ s', completion r = Normal (nextSymbol s, S (nextSymbol s)) s' ∧
        timers_of (nextTimeoutID s) s'
        = [(nextSymbol s, mkTimer (currentInstance s) f (nextSymbol s))] ∧
        timers_of (S (nextTimeoutID s)) s'
        = [(S (nextSymbol s), mkTimer (currentInstance s) g (S (nextSymbol s)))].
Proof.
  intros Hin Hne Hn1 Hn2 r. unfold r. clear r.
  destruct (setTimeout_new f d1 s Hin Hn1)
    as (s1 & E1 & Hin1 & Hi1 & Hd1 & Ht1 & Ha1 & Hs1).
  destruct (setTimeout_new_frame f d1 s Hin Hn1) as (Hid1 & Hframe1 & _).
  rewrite E1 in Hid1, Hframe1. cbn [completion finalState] in Hid1, Hframe1.
  assert (Hn2' : default ∅ (currentTimers s1) !! d2 = None).
  { rewrite Hframe1 by done. exact Hn2. }
  destruct (setTimeout_new g d2 s1 Hin1 Hn2')
    as (s2 & E2 & Hin2 & Hi2 & Hd2 & Ht2 & Ha2 & Hs2).
  destruct (setTimeout_new_frame g d2 s1 Hin1 Hn2') as (_ & _ & Hframe2).
  rewrite E2 in Hframe2. cbn [completion finalState] in Hframe2.
  rewrite Hid1, Hs1, Hi1 in *.
  rewrite !run_bind, E1. state_simpl. rewrite !run_bind, E2. state_simpl.
  split; [done|]. exists s2. split; [done|]. split; [|done].
  rewrite Hframe2 by lia. exact Ht1.
Qed.

Lemma different_delays_get_separate_host_timers_witness :
  effects ((t1 ← setTimeout Example.Noop 10;
            t2 ← setTimeout Example.Fail 20;
            mret (t1, t2)) Example.fresh_inCycle)
  = [HostSetTimeout 0%nat 10; HostSetTimeout 1%nat 20].
Proof.
  apply (different_delays_get_separate_host_timers Example.Noop Example.Fail 10 20
           Example.fresh_inCycle).
  - split; by eexists.
  - lia.
  - reflexivity.
  - reflexivity.
Defined.

(** X25.  Edge cases of [clearTimeout], inside a cycle.  A token that is
    not registered (never handed out, or of a timer that has fired) is
    ignored: no host timer is cleared and nothing changes.  Clearing a
    token a second time leaves the state as the first clearing left it. *)
Theorem clearTimeout_edge_cases {F} (call : F → Args → State F → Completion F unit)
    (token : Symbol) (s : State F) :
  inCycle s →
  (activeTimeouts s !! token = None → clearTimeout token s = mkResult [] (Normal tt s)) ∧
  (∀ timer s0,
     s = finalState (completion (fireTimer call timer s0)) →
     clearTimeout (timer_id timer) s = mkResult [] (Normal tt s)) ∧
  (∃ s1, completion (clearTimeout token s) = Normal tt s1 ∧
         completion (clearTimeout token s1) = Normal tt s1).
Proof.
  intros Hin.
  assert (Hunknown : ∀ id', activeTimeouts s !! id' = None →
            clearTimeout id' s = mkResult [] (Normal tt s)).
  { intros id' Hnone. unfold clearTimeout.
    rewrite run_bind, (validate_inside s Hin). cbn [effects completion app].
    rewrite run_bind. cbn [get effects completion app]. by rewrite Hnone. }
  split; [apply Hunknown|]. split.
  - intros timer s0 Hs. apply Hunknown. rewrite Hs.
    by destruct (fireTimer_entry call timer s0) as (_ & H & _).
  - destruct (activeTimeouts s !! token) as [t|] eqn:Hid.
    + set (s1 := set_timeoutTimers
                   (<[t := omap_delete token (timers_of t s)]> (timeoutTimers s)) s).
      assert (Hin1 : inCycle s1) by exact Hin.
      assert (Hid1 : activeTimeouts s1 !! token = Some t) by exact Hid.
      exists s1. split; [exact (clearTimeout_state token t s Hin Hid)|].
      rewrite (clearTimeout_state token t s1 Hin1 Hid1).
      f_equal. unfold s1, timers_of, set_timeoutTimers. cbn [timeoutTimers].
      rewrite lookup_insert_eq. cbn [default from_option id].
      rewrite insert_insert_eq, omap_delete_idemp. reflexivity.
    + exists s. rewrite (Hunknown token Hid). split; reflexivity.
Qed.

Lemma clearTimeout_edge_cases_witness :
  clearTimeout 7%nat Example.fresh_inCycle = mkResult [] (Normal tt Example.fresh_inCycle).
Proof.
  refine (proj1 (clearTimeout_edge_cases Example.quiet 7%nat Example.fresh_inCycle _) _).
  - split; by eexists.
  - reflexivity.
Defined.

(** ** A repeated root event type *)

Lemma addRootEventTypes_repeated_faults_witness :
  ∃ s', completion
          (addRootEventTypes 0%nat
             [EventTypeString "click"; EventTypeObject "click" None None]
             Example.fresh_inCycle)
        = Throw (Invariant duplicateRootEventMessage) s'.
Proof.
  refine (addRootEventTypes_repeated_faults 0%nat
            [EventTypeString "click"; EventTypeObject "click" None None]
            Example.fresh_inCycle 1%nat _ _ _).
  - by eexists.
  - reflexivity.
  - intros H. apply NoDup_cons in H as [H _]. apply H. simpl. left.
Defined.

(** ** The registry agrees with the instances' root event types

    [rootTypesAgree] holds when the module is loaded, and every operation
    that writes an instance's [rootEventTypes] or the registry keeps it:
    the static registration, [addRootEventTypes] and [removeRootEventTypes]
    (however they end), and [unmountEventResponder] of another instance. *)

Section RegistryAgreement.
Context {F : Type}.
Variable responder : Instance → Responder.
Variable responderFields : Responder → ReactEventResponder F.
Variable call : F → Args → State F → Completion F unit.
Implicit Types (s : State F) (i j : Instance) (n m : string).

Lemma agree_initial j : rootTypesAgree j (@initialState F).
Proof.
  intros m Hm. apply set_has_true in Hm. unfold initialState in Hm. simpl in Hm.
  rewrite lookup_empty in Hm. by apply elem_of_nil in Hm.
Qed.

Lemma has_add_inv j m i n s :
  rootEventTypes_has j m (rootEventTypes_add i n s) = true →
  rootEventTypes_has j m s = true ∨ (j = i ∧ m = n).
Proof.
  unfold rootEventTypes_has, rootEventTypes_add.
  cbn [instanceRootEventTypes set_instanceRootEventTypes].
  destruct (decide (j = i)) as [->|Hne].
  - rewrite lookup_insert_eq. cbn [default from_option id].
    rewrite !set_has_true, elem_of_set_add. intros [->|Hm]; [by right | by left].
  - rewrite lookup_insert_ne by done. by left.
Qed.

Lemma registry_add_mono j m n i s :
  j ∈ default [] (rootEventTypesToEventComponentInstances s !! m) →
  j ∈ default [] (rootEventTypesToEventComponentInstances (registry_add n i s) !! m).
Proof.
  unfold registry_add.
  cbn [rootEventTypesToEventComponentInstances
       set_rootEventTypesToEventComponentInstances].
  destruct (decide (n = m)) as [->|Hne].
  - rewrite lookup_insert_eq. cbn [default from_option id].
    rewrite elem_of_set_add. by right.
  - by rewrite lookup_insert_ne.
Qed.

Lemma agree_add j i n s :
  rootTypesAgree j s → rootTypesAgree j (registry_add n i (rootEventTypes_add i n s)).
Proof.
  intros H m Hm. rewrite has_registry_add in Hm.
  apply has_add_inv in Hm as [Hm|[-> ->]].
  - apply registry_add_mono. exact (H m Hm).
  - unfold registry_add.
    cbn [rootEventTypesToEventComponentInstances
         set_rootEventTypesToEventComponentInstances].
    rewrite lookup_insert_eq. cbn [default from_option id].
    apply elem_of_set_add. by left.
Qed.

Lemma agree_registry_ensure j n s :
  rootTypesAgree j s → rootTypesAgree j (registry_ensure n s).
Proof.
  intros H m Hm. rewrite has_registry_ensure in Hm.
  rewrite registry_ensure_lookup. by apply H.
Qed.

Lemma agree_rootEventTypes_ensure j i s :
  rootTypesAgree j s → rootTypesAgree j (rootEventTypes_ensure i s).
Proof.
  intros H m Hm. rewrite has_rootEventTypes_ensure in Hm.
  rewrite rootEventTypes_ensure_registry. by apply H.
Qed.

Lemma agree_registerStatic j i s (x : ReactEventResponderEventType) :
  rootTypesAgree j s → rootTypesAgree j (registerStatic i s x).
Proof.
  intros H. unfold registerStatic.
  by apply agree_add, agree_rootEventTypes_ensure, agree_registry_ensure.
Qed.

(** The static registration keeps the agreement, for every instance. *)
Lemma agree_static j i (types : list ReactEventResponderEventType) s :
  rootTypesAgree j s →
  rootTypesAgree j
    (finalState (completion (addRootEventTypesForComponentInstance i types s))).
Proof.
  rewrite static_run. cbn [completion finalState].
  revert s. induction types as [|x types IH]; intros s H; [done|].
  simpl. by apply IH, agree_registerStatic.
Qed.

Lemma agree_rootEventTypes_delete j i n s :
  rootTypesAgree j s → rootTypesAgree j (rootEventTypes_delete i n s).
Proof.
  intros H m Hm. unfold rootEventTypes_delete in *.
  destruct (instanceRootEventTypes s !! i) as [ts|] eqn:Hts; [|by apply H].
  cbn [rootEventTypesToEventComponentInstances set_instanceRootEventTypes].
  apply H. revert Hm. unfold rootEventTypes_has.
  cbn [instanceRootEventTypes set_instanceRootEventTypes].
  destruct (decide (j = i)) as [->|Hne].
  - rewrite lookup_insert_eq, Hts. cbn [default from_option id].
    rewrite !set_has_true, elem_of_set_delete. tauto.
  - by rewrite lookup_insert_ne.
Qed.

Lemma agree_registry_delete j i n s :
  j ≠ i ∨ rootEventTypes_has i n s = false →
  rootTypesAgree j s → rootTypesAgree j (registry_delete n i s).
Proof.
  intros Hor H m Hm. unfold registry_delete in *.
  destruct (rootEventTypesToEventComponentInstances s !! n) as [l|] eqn:Hl;
    [|by apply H].
  assert (Hm0 : rootEventTypes_has j m s = true) by exact Hm.
  specialize (H m Hm0).
  cbn [rootEventTypesToEventComponentInstances
       set_rootEventTypesToEventComponentInstances].
  destruct (decide (n = m)) as [->|Hne]; [|by rewrite lookup_insert_ne].
  rewrite lookup_insert_eq. cbn [default from_option id].
  rewrite Hl in H. cbn [default from_option id] in H.
  apply elem_of_set_delete. split; [done|].
  destruct Hor as [?|Hfalse]; [done|]. intros ->. congruence.
Qed.

Lemma agree_unregister j i s (x : ReactEventResponderEventType) :
  rootTypesAgree j s → rootTypesAgree j (unregister i s x).
Proof.
  intros H. unfold unregister.
  apply agree_registry_delete; [|by apply agree_rootEventTypes_delete].
  right. apply not_true_is_false. intros Hm.
  unfold rootEventTypes_has, rootEventTypes_delete in Hm.
  destruct (instanceRootEventTypes s !! i) as [ts|] eqn:Hts.
  - cbn [instanceRootEventTypes set_instanceRootEventTypes] in Hm.
    rewrite lookup_insert_eq in Hm. cbn [default from_option id] in Hm.
    apply set_has_true, elem_of_set_delete in Hm as [_ Hm]. done.
  - rewrite Hts in Hm. by apply set_has_true, elem_of_nil in Hm.
Qed.

Lemma validate_keeps (I : State F → Prop) :
  ensures I validateResponderContext (fun _ => True) (fun _ => I) I.
Proof.
  unfold validateResponderContext.
  apply ensures_get_bind. intros q. apply ensures_get_bind. intros i0.
  apply ensures_invariant; by intros s [[Hs _] _] _.
Qed.

Lemma theCurrentInstance_keeps (I : State F → Prop) :
  ensures I theCurrentInstance (fun _ => True) (fun _ => I) I.
Proof.
  unfold theCurrentInstance. apply ensures_get_bind. intros [i0|];
    [apply ensures_ret | apply ensures_throw]; by intros s [Hs _].
Qed.

(** [addRootEventTypes] keeps the agreement, also when it throws. *)
Lemma agree_addRootEventTypes j (doc : Node)
    (types : list ReactEventResponderEventType) s :
  rootTypesAgree j s →
  rootTypesAgree j (finalState (completion (addRootEventTypes doc types s))).
Proof.
  intros H.
  assert (He : ensures (F:=F) (rootTypesAgree j) (addRootEventTypes doc types)
                 (fun _ => True) (fun _ => rootTypesAgree j) (rootTypesAgree j)).
  { unfold addRootEventTypes.
    apply ensures_bind with (Q' := fun _ => rootTypesAgree j); [apply validate_keeps|].
    intros []. apply ensures_emit_bind; [done|].
    apply ensures_for_each. intros x _. unfold addRootEventType. cbn zeta.
    apply ensures_modify_bind with (P' := rootTypesAgree j);
      [intros s0; apply agree_registry_ensure|].
    apply ensures_bind with (Q' := fun _ => rootTypesAgree j);
      [apply theCurrentInstance_keeps|].
    intros ci.
    apply ensures_modify_bind with (P' := rootTypesAgree j);
      [intros s0; apply agree_rootEventTypes_ensure|].
    apply ensures_get_bind. intros has.
    apply ensures_bind with (Q' := fun _ => rootTypesAgree j);
      [apply ensures_invariant; by intros s0 [Hs0 _] _|].
    intros [].
    apply ensures_modify_bind
      with (P' := fun s0 => rootTypesAgree j
                    (registry_add (topLevelEventTypeOf x) ci s0));
      [intros s0; apply agree_add|].
    by apply ensures_modify. }
  destruct (He s H) as [_ Hc]. by destruct (completion _).
Qed.

(** [removeRootEventTypes] keeps the agreement, also when it throws. *)
Lemma agree_removeRootEventTypes j (types : list ReactEventResponderEventType) s :
  rootTypesAgree j s →
  rootTypesAgree j (finalState (completion (removeRootEventTypes types s))).
Proof.
  intros H.
  assert (He : ensures (F:=F) (rootTypesAgree j) (removeRootEventTypes types)
                 (fun _ => True) (fun _ => rootTypesAgree j) (rootTypesAgree j)).
  { unfold removeRootEventTypes.
    apply ensures_bind with (Q' := fun _ => rootTypesAgree j); [apply validate_keeps|].
    intros []. apply ensures_for_each. intros x _. cbn zeta.
    apply ensures_bind with (Q' := fun _ => rootTypesAgree j);
      [apply theCurrentInstance_keeps|].
    intros ci.
    apply ensures_modify_bind
      with (P' := fun s0 => rootTypesAgree j
                    (registry_delete (topLevelEventTypeOf x) ci s0));
      [intros s0 Hs0; by apply (agree_unregister j ci s0 x)|].
    by apply ensures_modify. }
  destruct (He s H) as [_ Hc]. by destruct (completion _).
Qed.

(** [unmountEventResponder] of another instance keeps the agreement, as
    long as the handlers it calls do. *)
Lemma agree_unmount_other j i s :
  i ≠ j →
  (∀ f args s0, rootTypesAgree j s0 → rootTypesAgree j (finalState (call f args s0))) →
  rootTypesAgree j s →
  rootTypesAgree j
    (finalState (completion (unmountEventResponder responder responderFields call i s))).
Proof.
  intros Hne Hcall H.
  assert (Hinvoke : ∀ c f args,
    ensures (F:=F) (rootTypesAgree j) (invoke call c f args) (fun _ => True)
      (fun _ => rootTypesAgree j) (rootTypesAgree j)).
  { intros c f args. apply ensures_invoke; [done|]. intros s0 Hs0.
    specialize (Hcall f args s0 Hs0). by destruct (call f args s0). }
  assert (He : ensures (F:=F) (rootTypesAgree j)
                 (unmountEventResponder responder responderFields call i)
                 (fun _ => True) (fun _ => rootTypesAgree j) (rootTypesAgree j)).
  { unfold unmountEventResponder. cbn zeta.
    apply ensures_bind with (Q' := fun _ => rootTypesAgree j).
    { destruct (onUnmount _) as [f|]; [|by apply ensures_ret].
      apply ensures_modify_bind with (P' := rootTypesAgree j); [done|].
      apply ensures_modify_bind with (P' := rootTypesAgree j); [done|].
      apply ensures_try_finally with (Q' := fun _ => rootTypesAgree j)
        (R' := rootTypesAgree j); [apply Hinvoke | done | done]. }
    intros []. apply ensures_get_bind. intros owner.
    apply ensures_bind with (Q' := fun _ => rootTypesAgree j).
    { case_bool_decide; [|by apply ensures_ret; intros s0 [Hs0 _]].
      apply ensures_modify_bind with (P' := rootTypesAgree j);
        [by intros s0 [Hs0 _]|].
      unfold triggerOwnershipListeners.
      apply ensures_get_bind. intros l. apply ensures_get_bind. intros previous.
      apply ensures_try_finally with (Q' := fun _ => rootTypesAgree j)
        (R' := rootTypesAgree j); [|done..].
      apply ensures_weaken with (P' := rootTypesAgree j) (E' := fun _ => True)
        (Q' := fun _ => rootTypesAgree j) (R' := rootTypesAgree j);
        [|by intros s0 [[Hs0 _] _] | done..].
      apply ensures_for_each. intros k _.
      apply ensures_modify_bind with (P' := rootTypesAgree j); [done|].
      unfold invoke_defined. destruct (onOwnershipChange _) as [f|];
        [apply Hinvoke | by apply ensures_throw]. }
    intros [].
    apply ensures_bind with (Q' := fun _ => rootTypesAgree j).
    { case_bool_decide; [by apply ensures_modify | by apply ensures_ret]. }
    intros []. apply ensures_get_bind. intros [ns|];
      [|by apply ensures_ret; intros s0 [Hs0 _]].
    apply ensures_weaken with (P' := rootTypesAgree j) (E' := fun _ => True)
      (Q' := fun _ => rootTypesAgree j) (R' := rootTypesAgree j);
      [|by intros s0 [Hs0 _] | done..].
    apply ensures_for_each. intros t _.
    apply ensures_modify. intros s0 Hs0.
    apply agree_registry_delete; [left; congruence | done]. }
  destruct (He s H) as [_ Hc]. by destruct (completion _).
Qed.
End RegistryAgreement.
